(** * 3D rigid-body physics engine: collisions and motion

    A shallow embedding of [physics_engine.js] (class [cube_robot], the
    collision pass, the placement loop, [init_engine] and the floor texture
    of [setup_scene]) and of the part of [listeners.js] that reads the
    [num_robots] parameter.

    Numbers.  JavaScript numbers are modelled as exact rationals ([Q]):
    rounding, NaN and the infinities produced by a division by zero are
    outside the model ([Qinv 0] is [0]).  The comparisons of the source are
    the boolean comparisons of [Q].

    Host.  The rendering library (three.js), [Math.sin] and [Math.cos] are
    not part of the sources.  The functions of the engine take them through
    the class [Host]; [model_host] is the instance used to run the engine on
    concrete inputs.  [Math.random] and the two sliders read by the physics
    step are inputs of each call. *)

From Stdlib Require Import QArith Qabs Qround ZArith Lia Lqa String Ascii List DecimalString
  DecimalNat.
From stdpp Require Import base list.

Local Open Scope Q_scope.

(** ** Numbers *)

(** [a < b] and [a >= b] of the source. *)
Definition Qltb (a b : Q) : bool := negb (Qle_bool b a).
Definition Qgeb (a b : Q) : bool := Qle_bool b a.
Definition Qgtb (a b : Q) : bool := negb (Qle_bool a b).

(** [Math.PI], the binary64 number 3.141592653589793. *)
Definition Math_PI : Q := 884279719003555 # 281474976710656.

(** [THREE.MathUtils.degToRad]: degrees times [Math.PI / 180]. *)
Definition degToRad (degrees : Q) : Q := degrees * (Math_PI / 180).

Definition GRAVITY_ACCELERATION : Q := 98 # 10.

(** ** Vectors, boxes and meshes of the rendering library *)

Module Vector3.
Record t := mk { x : Q; y : Q; z : Q }.

Definition zero : t := mk 0 0 0.
Definition set_x (a : Q) (v : t) : t := mk a (y v) (z v).
Definition set_y (a : Q) (v : t) : t := mk (x v) a (z v).
Definition set_z (a : Q) (v : t) : t := mk (x v) (y v) a.
Definition add (v w : t) : t := mk (x v + x w) (y v + y w) (z v + z w).
Definition sub (v w : t) : t := mk (x v - x w) (y v - y w) (z v - z w).
Definition multiplyScalar (v : t) (s : Q) : t := mk (x v * s) (y v * s) (z v * s).
(** Division by zero gives 0 on [Q] and NaN or Infinity in the program: the
    model agrees with the program for a divisor that is not zero. *)
Definition divideScalar (v : t) (s : Q) : t := mk (x v / s) (y v / s) (z v / s).

(** Component-wise equality of two vectors as rational numbers. *)
Definition equiv (v w : t) : Prop := x v == x w /\ y v == y w /\ z v == z w.
(** Component-wise order. *)
Definition le (v w : t) : Prop := x v <= x w /\ y v <= y w /\ z v <= z w.
End Vector3.

Module Box3.
Record t := mk { min : Vector3.t; max : Vector3.t }.

(** [getSize]: the extent [max - min] of the box. *)
Definition getSize (b : t) : Vector3.t := Vector3.sub (max b) (min b).
End Box3.

Module Mesh.
(** A mesh as the engine uses it: a position, Euler angles and, for the
    cube, the [mass] property that the physics step stores on it (0 until
    the first physics step writes it). *)
Record t := mk { position : Vector3.t; rotation : Vector3.t; mass : Q }.

Definition set_position (p : Vector3.t) (m : t) : t := mk p (rotation m) (mass m).
Definition set_rotation (e : Vector3.t) (m : t) : t := mk (position m) e (mass m).
Definition set_mass (a : Q) (m : t) : t := mk (position m) (rotation m) a.
End Mesh.

(** ** The host: library functions the sources call but do not define *)

Class Host := {
  Math_sin : Q -> Q;
  Math_cos : Q -> Q;
  (** [new THREE.Box3().setFromObject(object)]: the box of a mesh and of
      its children. *)
  Box3_setFromObject : Mesh.t -> list Mesh.t -> Box3.t;
  (** [a.intersectsBox(b)]. *)
  Box3_intersectsBox : Box3.t -> Box3.t -> bool;
  (** [object.getWorldPosition(target)]: the value copied into [target]. *)
  Object3D_getWorldPosition : Mesh.t -> Vector3.t
}.

(** Inputs of one call of a movement function: the value returned by
    [Math.random()] and the values of the sliders [piston_output] and
    [mass]. *)
Record inputs := { Math_random : Q; piston_output : Q; mass_slider : Q }.

(** ** The robot *)

(** The fields of a [cube_robot] that the engine reads or writes.  The scene,
    the materials, the wireframe and the five pistons that are never moved
    after construction are rendering data and are left out.  The fields set
    by [_calculate_physics] are 0 until the first physics step; [index] is
    [None] (undefined) until [initialize_robots] assigns it. *)
Record cube_robot := {
  time_step : Q;
  tipping_point_angle : Q;
  full_rotation : Q;
  rest_angle : Q;
  angle : Q;
  piston_output_force : Vector3.t;
  angular_velocity : Vector3.t;
  translational_velocity : Vector3.t;
  gravity : Vector3.t;
  cube : Mesh.t;
  bounding_box : Box3.t;
  robot_size : Vector3.t;
  position_in_world : Vector3.t;
  custom_bounding_box : Box3.t;
  piston_size : Q;
  piston_face_location : Q;
  axis_rotation_distance : Q;
  piston_bottom : Mesh.t;
  random_value : Q;
  user_piston_force : Q;
  torque_grav : Vector3.t;
  torque : Vector3.t;
  translation : Vector3.t;
  moment_of_inertia : Q;
  angular_acceleration : Vector3.t;
  translational_acceleration : Vector3.t;
  index : option Z;
  name : string
}.

(** Field updates ([this.f = v]). *)

Definition set_angular_velocity (v : Vector3.t) (r : cube_robot) : cube_robot :=
  {| time_step := time_step r; tipping_point_angle := tipping_point_angle r; full_rotation
     := full_rotation r; rest_angle := rest_angle r; angle := angle r; piston_output_force
     := piston_output_force r; angular_velocity := v; translational_velocity :=
     translational_velocity r; gravity := gravity r; cube := cube r; bounding_box :=
     bounding_box r; robot_size := robot_size r; position_in_world := position_in_world r;
     custom_bounding_box := custom_bounding_box r; piston_size := piston_size r;
     piston_face_location := piston_face_location r; axis_rotation_distance :=
     axis_rotation_distance r; piston_bottom := piston_bottom r; random_value :=
     random_value r; user_piston_force := user_piston_force r; torque_grav := torque_grav r;
     torque := torque r; translation := translation r; moment_of_inertia :=
     moment_of_inertia r; angular_acceleration := angular_acceleration r;
     translational_acceleration := translational_acceleration r; index := index r; name :=
     name r |}.

Definition set_translational_velocity (v : Vector3.t) (r : cube_robot) : cube_robot :=
  {| time_step := time_step r; tipping_point_angle := tipping_point_angle r; full_rotation
     := full_rotation r; rest_angle := rest_angle r; angle := angle r; piston_output_force
     := piston_output_force r; angular_velocity := angular_velocity r;
     translational_velocity := v; gravity := gravity r; cube := cube r; bounding_box :=
     bounding_box r; robot_size := robot_size r; position_in_world := position_in_world r;
     custom_bounding_box := custom_bounding_box r; piston_size := piston_size r;
     piston_face_location := piston_face_location r; axis_rotation_distance :=
     axis_rotation_distance r; piston_bottom := piston_bottom r; random_value :=
     random_value r; user_piston_force := user_piston_force r; torque_grav := torque_grav r;
     torque := torque r; translation := translation r; moment_of_inertia :=
     moment_of_inertia r; angular_acceleration := angular_acceleration r;
     translational_acceleration := translational_acceleration r; index := index r; name :=
     name r |}.

Definition set_cube (v : Mesh.t) (r : cube_robot) : cube_robot :=
  {| time_step := time_step r; tipping_point_angle := tipping_point_angle r; full_rotation
     := full_rotation r; rest_angle := rest_angle r; angle := angle r; piston_output_force
     := piston_output_force r; angular_velocity := angular_velocity r;
     translational_velocity := translational_velocity r; gravity := gravity r; cube := v;
     bounding_box := bounding_box r; robot_size := robot_size r; position_in_world :=
     position_in_world r; custom_bounding_box := custom_bounding_box r; piston_size :=
     piston_size r; piston_face_location := piston_face_location r; axis_rotation_distance
     := axis_rotation_distance r; piston_bottom := piston_bottom r; random_value :=
     random_value r; user_piston_force := user_piston_force r; torque_grav := torque_grav r;
     torque := torque r; translation := translation r; moment_of_inertia :=
     moment_of_inertia r; angular_acceleration := angular_acceleration r;
     translational_acceleration := translational_acceleration r; index := index r; name :=
     name r |}.

Definition set_bounding_box (v : Box3.t) (r : cube_robot) : cube_robot :=
  {| time_step := time_step r; tipping_point_angle := tipping_point_angle r; full_rotation
     := full_rotation r; rest_angle := rest_angle r; angle := angle r; piston_output_force
     := piston_output_force r; angular_velocity := angular_velocity r;
     translational_velocity := translational_velocity r; gravity := gravity r; cube := cube
     r; bounding_box := v; robot_size := robot_size r; position_in_world :=
     position_in_world r; custom_bounding_box := custom_bounding_box r; piston_size :=
     piston_size r; piston_face_location := piston_face_location r; axis_rotation_distance
     := axis_rotation_distance r; piston_bottom := piston_bottom r; random_value :=
     random_value r; user_piston_force := user_piston_force r; torque_grav := torque_grav r;
     torque := torque r; translation := translation r; moment_of_inertia :=
     moment_of_inertia r; angular_acceleration := angular_acceleration r;
     translational_acceleration := translational_acceleration r; index := index r; name :=
     name r |}.

Definition set_position_in_world (v : Vector3.t) (r : cube_robot) : cube_robot :=
  {| time_step := time_step r; tipping_point_angle := tipping_point_angle r; full_rotation
     := full_rotation r; rest_angle := rest_angle r; angle := angle r; piston_output_force
     := piston_output_force r; angular_velocity := angular_velocity r;
     translational_velocity := translational_velocity r; gravity := gravity r; cube := cube
     r; bounding_box := bounding_box r; robot_size := robot_size r; position_in_world := v;
     custom_bounding_box := custom_bounding_box r; piston_size := piston_size r;
     piston_face_location := piston_face_location r; axis_rotation_distance :=
     axis_rotation_distance r; piston_bottom := piston_bottom r; random_value :=
     random_value r; user_piston_force := user_piston_force r; torque_grav := torque_grav r;
     torque := torque r; translation := translation r; moment_of_inertia :=
     moment_of_inertia r; angular_acceleration := angular_acceleration r;
     translational_acceleration := translational_acceleration r; index := index r; name :=
     name r |}.

Definition set_custom_bounding_box (v : Box3.t) (r : cube_robot) : cube_robot :=
  {| time_step := time_step r; tipping_point_angle := tipping_point_angle r; full_rotation
     := full_rotation r; rest_angle := rest_angle r; angle := angle r; piston_output_force
     := piston_output_force r; angular_velocity := angular_velocity r;
     translational_velocity := translational_velocity r; gravity := gravity r; cube := cube
     r; bounding_box := bounding_box r; robot_size := robot_size r; position_in_world :=
     position_in_world r; custom_bounding_box := v; piston_size := piston_size r;
     piston_face_location := piston_face_location r; axis_rotation_distance :=
     axis_rotation_distance r; piston_bottom := piston_bottom r; random_value :=
     random_value r; user_piston_force := user_piston_force r; torque_grav := torque_grav r;
     torque := torque r; translation := translation r; moment_of_inertia :=
     moment_of_inertia r; angular_acceleration := angular_acceleration r;
     translational_acceleration := translational_acceleration r; index := index r; name :=
     name r |}.

Definition set_piston_bottom (v : Mesh.t) (r : cube_robot) : cube_robot :=
  {| time_step := time_step r; tipping_point_angle := tipping_point_angle r; full_rotation
     := full_rotation r; rest_angle := rest_angle r; angle := angle r; piston_output_force
     := piston_output_force r; angular_velocity := angular_velocity r;
     translational_velocity := translational_velocity r; gravity := gravity r; cube := cube
     r; bounding_box := bounding_box r; robot_size := robot_size r; position_in_world :=
     position_in_world r; custom_bounding_box := custom_bounding_box r; piston_size :=
     piston_size r; piston_face_location := piston_face_location r; axis_rotation_distance
     := axis_rotation_distance r; piston_bottom := v; random_value := random_value r;
     user_piston_force := user_piston_force r; torque_grav := torque_grav r; torque :=
     torque r; translation := translation r; moment_of_inertia := moment_of_inertia r;
     angular_acceleration := angular_acceleration r; translational_acceleration :=
     translational_acceleration r; index := index r; name := name r |}.

Definition set_index (v : option Z) (r : cube_robot) : cube_robot :=
  {| time_step := time_step r; tipping_point_angle := tipping_point_angle r; full_rotation
     := full_rotation r; rest_angle := rest_angle r; angle := angle r; piston_output_force
     := piston_output_force r; angular_velocity := angular_velocity r;
     translational_velocity := translational_velocity r; gravity := gravity r; cube := cube
     r; bounding_box := bounding_box r; robot_size := robot_size r; position_in_world :=
     position_in_world r; custom_bounding_box := custom_bounding_box r; piston_size :=
     piston_size r; piston_face_location := piston_face_location r; axis_rotation_distance
     := axis_rotation_distance r; piston_bottom := piston_bottom r; random_value :=
     random_value r; user_piston_force := user_piston_force r; torque_grav := torque_grav r;
     torque := torque r; translation := translation r; moment_of_inertia :=
     moment_of_inertia r; angular_acceleration := angular_acceleration r;
     translational_acceleration := translational_acceleration r; index := v; name := name r |}.

Definition set_name (v : string) (r : cube_robot) : cube_robot :=
  {| time_step := time_step r; tipping_point_angle := tipping_point_angle r; full_rotation
     := full_rotation r; rest_angle := rest_angle r; angle := angle r; piston_output_force
     := piston_output_force r; angular_velocity := angular_velocity r;
     translational_velocity := translational_velocity r; gravity := gravity r; cube := cube
     r; bounding_box := bounding_box r; robot_size := robot_size r; position_in_world :=
     position_in_world r; custom_bounding_box := custom_bounding_box r; piston_size :=
     piston_size r; piston_face_location := piston_face_location r; axis_rotation_distance
     := axis_rotation_distance r; piston_bottom := piston_bottom r; random_value :=
     random_value r; user_piston_force := user_piston_force r; torque_grav := torque_grav r;
     torque := torque r; translation := translation r; moment_of_inertia :=
     moment_of_inertia r; angular_acceleration := angular_acceleration r;
     translational_acceleration := translational_acceleration r; index := index r; name := v |}.

(** Assignments to a component of a nested object
    ([this.cube.rotation.x = a] and the like). *)
Definition set_cube_rotation_x (a : Q) (r : cube_robot) : cube_robot :=
  set_cube (Mesh.set_rotation (Vector3.set_x a (Mesh.rotation (cube r))) (cube r)) r.
Definition set_cube_rotation_y (a : Q) (r : cube_robot) : cube_robot :=
  set_cube (Mesh.set_rotation (Vector3.set_y a (Mesh.rotation (cube r))) (cube r)) r.
Definition set_cube_rotation_z (a : Q) (r : cube_robot) : cube_robot :=
  set_cube (Mesh.set_rotation (Vector3.set_z a (Mesh.rotation (cube r))) (cube r)) r.
Definition set_cube_position_x (a : Q) (r : cube_robot) : cube_robot :=
  set_cube (Mesh.set_position (Vector3.set_x a (Mesh.position (cube r))) (cube r)) r.
Definition set_cube_position_z (a : Q) (r : cube_robot) : cube_robot :=
  set_cube (Mesh.set_position (Vector3.set_z a (Mesh.position (cube r))) (cube r)) r.
Definition set_piston_bottom_rotation_x (a : Q) (r : cube_robot) : cube_robot :=
  set_piston_bottom
    (Mesh.set_rotation (Vector3.set_x a (Mesh.rotation (piston_bottom r))) (piston_bottom r)) r.
Definition set_piston_bottom_rotation_z (a : Q) (r : cube_robot) : cube_robot :=
  set_piston_bottom
    (Mesh.set_rotation (Vector3.set_z a (Mesh.rotation (piston_bottom r))) (piston_bottom r)) r.
Definition set_piston_bottom_position_x (a : Q) (r : cube_robot) : cube_robot :=
  set_piston_bottom
    (Mesh.set_position (Vector3.set_x a (Mesh.position (piston_bottom r))) (piston_bottom r)) r.
Definition set_piston_bottom_position_y (a : Q) (r : cube_robot) : cube_robot :=
  set_piston_bottom
    (Mesh.set_position (Vector3.set_y a (Mesh.position (piston_bottom r))) (piston_bottom r)) r.
Definition set_piston_bottom_position_z (a : Q) (r : cube_robot) : cube_robot :=
  set_piston_bottom
    (Mesh.set_position (Vector3.set_z a (Mesh.position (piston_bottom r))) (piston_bottom r)) r.

(** Readers for the components the movement functions use. *)
Definition cube_rotation_x (r : cube_robot) : Q := Vector3.x (Mesh.rotation (cube r)).
Definition cube_rotation_z (r : cube_robot) : Q := Vector3.z (Mesh.rotation (cube r)).
Definition cube_position_x (r : cube_robot) : Q := Vector3.x (Mesh.position (cube r)).
Definition cube_position_z (r : cube_robot) : Q := Vector3.z (Mesh.position (cube r)).
Definition piston_bottom_position (r : cube_robot) : Vector3.t := Mesh.position (piston_bottom r).

(** [constructor(scene, x, y, z)] (physics_engine.js, lines 104-187).  The box
    is taken from the cube before the pistons are attached to it. *)
Definition new_cube_robot `{Host} (x y z : Q) : cube_robot :=
  let tipping := degToRad 45 in
  let the_cube := Mesh.mk (Vector3.mk x y z) Vector3.zero 0 in
  let box := Box3_setFromObject the_cube [] in
  let size := Box3.getSize box in
  let the_piston_size := Vector3.x size / 2 - (1 # 10) in
  let face := the_piston_size - (8 # 10) in
  {| time_step := 1 / 360;
     tipping_point_angle := tipping;
     full_rotation := degToRad 90;
     rest_angle := degToRad 0;
     angle := tipping;
     piston_output_force := Vector3.zero;
     angular_velocity := Vector3.zero;
     translational_velocity := Vector3.zero;
     gravity := Vector3.mk 0 (GRAVITY_ACCELERATION * 10) 0;
     cube := the_cube;
     bounding_box := box;
     robot_size := size;
     position_in_world := Vector3.zero;
     custom_bounding_box :=
       Box3.mk (Vector3.mk (x - 1) (y - 1) (z - 1)) (Vector3.mk (x + 1) (y + 1) (z + 1));
     piston_size := the_piston_size;
     piston_face_location := face;
     axis_rotation_distance := (Vector3.x size / 2) / 100;
     piston_bottom := Mesh.mk (Vector3.mk 0 (- face) 0) Vector3.zero 0;
     random_value := 0;
     user_piston_force := 0;
     torque_grav := Vector3.zero;
     torque := Vector3.zero;
     translation := Vector3.zero;
     moment_of_inertia := 0;
     angular_acceleration := Vector3.zero;
     translational_acceleration := Vector3.zero;
     index := None;
     name := EmptyString |}.

(** [update_bounding_box] (lines 189-191): the box is whatever the library
    computes for the cube and the piston attached to it. *)
Definition update_bounding_box `{Host} (r : cube_robot) : cube_robot :=
  set_bounding_box (Box3_setFromObject (cube r) [piston_bottom r]) r.

(** [update_custom_bounding_box] (lines 193-208): position plus and minus half
    of [robot_size].  No function of the engine calls it. *)
Definition update_custom_bounding_box (r : cube_robot) : cube_robot :=
  let p := Mesh.position (cube r) in
  let s := robot_size r in
  let new_min :=
    Vector3.mk (Vector3.x p - Vector3.x s / 2) (Vector3.y p - Vector3.y s / 2)
               (Vector3.z p - Vector3.z s / 2) in
  let new_max :=
    Vector3.mk (Vector3.x p + Vector3.x s / 2) (Vector3.y p + Vector3.y s / 2)
               (Vector3.z p + Vector3.z s / 2) in
  set_custom_bounding_box (Box3.mk new_min new_max) r.

(** [_calculate_physics] (lines 210-247).  Every statement of the source is one
    binding; the record at the end stores them. *)
Definition _calculate_physics `{Host} (ins : inputs) (r : cube_robot) : cube_robot :=
  let the_random_value := Math_random ins * (1 # 10) - (9 # 100) in
  let force := piston_output ins / 100 in
  let the_cube := Mesh.set_mass (mass_slider ins / 1000) (cube r) in
  let m := Mesh.mass the_cube in
  let grav_torqueY :=
    - m * axis_rotation_distance r * GRAVITY_ACCELERATION
      * Math_sin (Vector3.x (Mesh.rotation the_cube)) in
  let the_torque_grav := Vector3.mk 0 grav_torqueY 0 in
  let torqueX := force * axis_rotation_distance r * Math_sin (angle r) in
  let torqueZ := force * axis_rotation_distance r * Math_sin (angle r) in
  let the_torque := Vector3.mk torqueX 0 torqueZ in
  let trans_x := force * Math_cos (angle r) in
  let trans_z := force * Math_cos (angle r) in
  let the_translation := Vector3.mk trans_x 0 trans_z in
  let inertia :=
    (1 / 6) * m * ((Vector3.x (robot_size r) / 100) * (Vector3.x (robot_size r) / 100)) in
  let ang_acc := Vector3.divideScalar the_torque inertia in
  let trans_acc := Vector3.divideScalar the_translation m in
  {| time_step := time_step r;
     tipping_point_angle := tipping_point_angle r;
     full_rotation := full_rotation r;
     rest_angle := rest_angle r;
     angle := angle r;
     piston_output_force := piston_output_force r;
     angular_velocity :=
       Vector3.add (angular_velocity r) (Vector3.multiplyScalar ang_acc (time_step r));
     translational_velocity :=
       Vector3.add (translational_velocity r)
                   (Vector3.multiplyScalar trans_acc (time_step r));
     gravity := gravity r;
     cube := the_cube;
     bounding_box := bounding_box r;
     robot_size := robot_size r;
     position_in_world := position_in_world r;
     custom_bounding_box := custom_bounding_box r;
     piston_size := piston_size r;
     piston_face_location := piston_face_location r;
     axis_rotation_distance := axis_rotation_distance r;
     piston_bottom := piston_bottom r;
     random_value := the_random_value;
     user_piston_force := force;
     torque_grav := the_torque_grav;
     torque := the_torque;
     translation := the_translation;
     moment_of_inertia := inertia;
     angular_acceleration := ang_acc;
     translational_acceleration := trans_acc;
     index := index r;
     name := name r |}.

(** ** The four movement functions *)

(** [move_away] (lines 249-287), block "Rotation and translation of cube based
    on calculations", with the physics step that precedes it. *)
Definition move_away_integrate `{Host} (ins : inputs) (r : cube_robot) : cube_robot :=
  let r := _calculate_physics ins r in
  let r := set_cube_rotation_x
             (cube_rotation_x r - Vector3.z (angular_velocity r) * time_step r) r in
  let r := set_cube_position_z
             (cube_position_z r - Vector3.z (translational_velocity r)) r in
  update_bounding_box r.

(** [move_away], block "Piston behaviour". *)
Definition move_away_piston `{Host} (r : cube_robot) : cube_robot :=
  if Qltb (Qabs (cube_rotation_x r)) (tipping_point_angle r) then
    let r := set_piston_bottom_rotation_x (angle r) r in
    let r := set_piston_bottom_position_y
               (Vector3.y (piston_bottom_position r)
                - Vector3.z (angular_velocity r) * time_step r) r in
    let r := set_piston_bottom_position_z
               (Vector3.z (piston_bottom_position r)
                - Vector3.z (translational_velocity r) * time_step r) r in
    update_bounding_box r
  else r.

(** [move_away], block "Tipping point check". *)
Definition move_away_tipping `{Host} (r : cube_robot) : cube_robot :=
  if Qgeb (Qabs (cube_rotation_x r)) (tipping_point_angle r) then
    let r := set_angular_velocity
               (Vector3.add (angular_velocity r)
                            (Vector3.multiplyScalar (gravity r) (time_step r))) r in
    let r := set_cube_rotation_x
               (cube_rotation_x r - Vector3.y (angular_velocity r) * time_step r) r in
    let r := set_cube_position_z
               (cube_position_z r - Vector3.z (translational_velocity r)) r in
    update_bounding_box r
  else r.

(** [move_away], block "Rotation check and element of randomness when
    landing". *)
Definition move_away_landing `{Host} (r : cube_robot) : cube_robot :=
  if Qgeb (Qabs (cube_rotation_x r)) (full_rotation r) then
    let r := set_angular_velocity (Vector3.mk 0 0 0) r in
    let r := set_translational_velocity (Vector3.mk 0 0 0) r in
    let r := set_cube_rotation_x 0 r in
    let r := set_cube_rotation_y (random_value r) r in
    let r := set_piston_bottom_position_y (- piston_face_location r) r in
    update_bounding_box r
  else r.

Definition move_away `{Host} (ins : inputs) (r : cube_robot) : cube_robot :=
  let r := move_away_integrate ins r in
  let r := move_away_piston r in
  let r := move_away_tipping r in
  let r := move_away_landing r in
  set_position_in_world (Object3D_getWorldPosition (cube r)) r.

(** [move_closer] (lines 289-327), block "Rotation and translation of cube based
    on calculations", with the physics step that precedes it. *)
Definition move_closer_integrate `{Host} (ins : inputs) (r : cube_robot) : cube_robot :=
  let r := _calculate_physics ins r in
  let r := set_cube_rotation_x
             (cube_rotation_x r + Vector3.z (angular_velocity r) * time_step r) r in
  let r := set_cube_position_z
             (cube_position_z r + Vector3.z (translational_velocity r)) r in
  update_bounding_box r.

(** [move_closer], block "Piston behaviour". *)
Definition move_closer_piston `{Host} (r : cube_robot) : cube_robot :=
  if Qltb (Qabs (cube_rotation_x r)) (tipping_point_angle r) then
    let r := set_piston_bottom_rotation_x (- angle r) r in
    let r := set_piston_bottom_position_y
               (Vector3.y (piston_bottom_position r)
                - Vector3.z (angular_velocity r) * time_step r) r in
    let r := set_piston_bottom_position_z
               (Vector3.z (piston_bottom_position r)
                + Vector3.z (translational_velocity r) * time_step r) r in
    update_bounding_box r
  else r.

(** [move_closer], block "Tipping point check". *)
Definition move_closer_tipping `{Host} (r : cube_robot) : cube_robot :=
  if Qgeb (Qabs (cube_rotation_x r)) (tipping_point_angle r) then
    let r := set_angular_velocity
               (Vector3.add (angular_velocity r)
                            (Vector3.multiplyScalar (gravity r) (time_step r))) r in
    let r := set_cube_rotation_x
               (cube_rotation_x r + Vector3.y (angular_velocity r) * time_step r) r in
    let r := set_cube_position_z
               (cube_position_z r + Vector3.z (translational_velocity r)) r in
    update_bounding_box r
  else r.

(** [move_closer], block "Rotation check and element of randomness when
    landing". *)
Definition move_closer_landing `{Host} (r : cube_robot) : cube_robot :=
  if Qgeb (Qabs (cube_rotation_x r)) (full_rotation r) then
    let r := set_angular_velocity (Vector3.mk 0 0 0) r in
    let r := set_translational_velocity (Vector3.mk 0 0 0) r in
    let r := set_cube_rotation_x 0 r in
    let r := set_cube_rotation_y (random_value r) r in
    let r := set_piston_bottom_position_y (- piston_face_location r) r in
    update_bounding_box r
  else r.

Definition move_closer `{Host} (ins : inputs) (r : cube_robot) : cube_robot :=
  let r := move_closer_integrate ins r in
  let r := move_closer_piston r in
  let r := move_closer_tipping r in
  let r := move_closer_landing r in
  set_position_in_world (Object3D_getWorldPosition (cube r)) r.

(** [move_left] (lines 329-367), block "Rotation and translation of cube based
    on calculations", with the physics step that precedes it. *)
Definition move_left_integrate `{Host} (ins : inputs) (r : cube_robot) : cube_robot :=
  let r := _calculate_physics ins r in
  let r := set_cube_rotation_z
             (cube_rotation_z r + Vector3.x (angular_velocity r) * time_step r) r in
  let r := set_cube_position_x
             (cube_position_x r - Vector3.x (translational_velocity r)) r in
  update_bounding_box r.

(** [move_left], block "Piston behaviour". *)
Definition move_left_piston `{Host} (r : cube_robot) : cube_robot :=
  if Qltb (Qabs (cube_rotation_z r)) (tipping_point_angle r) then
    let r := set_piston_bottom_rotation_z (- angle r) r in
    let r := set_piston_bottom_position_y
               (Vector3.y (piston_bottom_position r)
                - Vector3.x (angular_velocity r) * time_step r) r in
    let r := set_piston_bottom_position_x
               (Vector3.x (piston_bottom_position r)
                - Vector3.x (translational_velocity r) * time_step r) r in
    update_bounding_box r
  else r.

(** [move_left], block "Tipping point check". *)
Definition move_left_tipping `{Host} (r : cube_robot) : cube_robot :=
  if Qgeb (Qabs (cube_rotation_z r)) (tipping_point_angle r) then
    let r := set_angular_velocity
               (Vector3.add (angular_velocity r)
                            (Vector3.multiplyScalar (gravity r) (time_step r))) r in
    let r := set_cube_rotation_z
               (cube_rotation_z r + Vector3.x (angular_velocity r) * time_step r) r in
    let r := set_cube_position_x
               (cube_position_x r - Vector3.x (translational_velocity r)) r in
    update_bounding_box r
  else r.

(** [move_left], block "Rotation check and element of randomness when
    landing". *)
Definition move_left_landing `{Host} (r : cube_robot) : cube_robot :=
  if Qgeb (Qabs (cube_rotation_z r)) (full_rotation r) then
    let r := set_angular_velocity (Vector3.mk 0 0 0) r in
    let r := set_translational_velocity (Vector3.mk 0 0 0) r in
    let r := set_cube_rotation_z 0 r in
    let r := set_cube_rotation_y (random_value r) r in
    let r := set_piston_bottom_position_y (- piston_face_location r) r in
    update_bounding_box r
  else r.

Definition move_left `{Host} (ins : inputs) (r : cube_robot) : cube_robot :=
  let r := move_left_integrate ins r in
  let r := move_left_piston r in
  let r := move_left_tipping r in
  let r := move_left_landing r in
  set_position_in_world (Object3D_getWorldPosition (cube r)) r.

(** [move_right] (lines 369-407), block "Rotation and translation of cube based
    on calculations", with the physics step that precedes it. *)
Definition move_right_integrate `{Host} (ins : inputs) (r : cube_robot) : cube_robot :=
  let r := _calculate_physics ins r in
  let r := set_cube_rotation_z
             (cube_rotation_z r - Vector3.x (angular_velocity r) * time_step r) r in
  let r := set_cube_position_x
             (cube_position_x r + Vector3.x (translational_velocity r)) r in
  update_bounding_box r.

(** [move_right], block "Piston behaviour". *)
Definition move_right_piston `{Host} (r : cube_robot) : cube_robot :=
  if Qltb (Qabs (cube_rotation_z r)) (tipping_point_angle r) then
    let r := set_piston_bottom_rotation_z (angle r) r in
    let r := set_piston_bottom_position_y
               (Vector3.y (piston_bottom_position r)
                - Vector3.x (angular_velocity r) * time_step r) r in
    let r := set_piston_bottom_position_x
               (Vector3.x (piston_bottom_position r)
                - Vector3.x (translational_velocity r) * time_step r) r in
    update_bounding_box r
  else r.

(** [move_right], block "Tipping point check". *)
Definition move_right_tipping `{Host} (r : cube_robot) : cube_robot :=
  if Qgeb (Qabs (cube_rotation_z r)) (tipping_point_angle r) then
    let r := set_angular_velocity
               (Vector3.add (angular_velocity r)
                            (Vector3.multiplyScalar (gravity r) (time_step r))) r in
    let r := set_cube_rotation_z
               (cube_rotation_z r - Vector3.x (angular_velocity r) * time_step r) r in
    let r := set_cube_position_x
               (cube_position_x r + Vector3.x (translational_velocity r)) r in
    update_bounding_box r
  else r.

(** [move_right], block "Rotation check and element of randomness when
    landing". *)
Definition move_right_landing `{Host} (r : cube_robot) : cube_robot :=
  if Qgeb (Qabs (cube_rotation_z r)) (full_rotation r) then
    let r := set_angular_velocity (Vector3.mk 0 0 0) r in
    let r := set_translational_velocity (Vector3.mk 0 0 0) r in
    let r := set_cube_rotation_z 0 r in
    let r := set_cube_rotation_y (random_value r) r in
    let r := set_piston_bottom_position_y (- piston_face_location r) r in
    update_bounding_box r
  else r.

Definition move_right `{Host} (ins : inputs) (r : cube_robot) : cube_robot :=
  let r := move_right_integrate ins r in
  let r := move_right_piston r in
  let r := move_right_tipping r in
  let r := move_right_landing r in
  set_position_in_world (Object3D_getWorldPosition (cube r)) r.

(** ** Collision detection and response *)

(** [update_robot_index] (lines 443-453): the four [===] tests; any other
    value of [index] is left as it is. *)
Definition update_robot_index (robot : cube_robot) : cube_robot :=
  match index robot with
  | Some 1%Z => set_index (Some 2%Z) robot
  | Some 2%Z => set_index (Some 1%Z) robot
  | Some 3%Z => set_index (Some 4%Z) robot
  | Some 4%Z => set_index (Some 3%Z) robot
  | _ => robot
  end.

(** [update_piston] (lines 459-467). *)
Definition update_piston (robot : cube_robot) : cube_robot :=
  match index robot with
  | Some 1%Z | Some 2%Z =>
      let robot := set_piston_bottom_rotation_x (cube_rotation_x robot) robot in
      set_piston_bottom_position_y (- piston_face_location robot) robot
  | Some 3%Z | Some 4%Z =>
      let robot := set_piston_bottom_rotation_x (- cube_rotation_x robot) robot in
      set_piston_bottom_position_y (piston_face_location robot) robot
  | _ => robot
  end.

(** The test "Boundary checks" of [collision_detection] (lines 419-420). *)
Definition out_of_bounds (robot_a : cube_robot) : bool :=
  Qltb (Vector3.x (position_in_world robot_a)) (- 20)
  || Qgtb (Vector3.x (position_in_world robot_a)) 20
  || Qltb (Vector3.z (position_in_world robot_a)) (- 20)
  || Qgtb (Vector3.z (position_in_world robot_a)) 20.

(** The robots are objects shared through the array: a robot is named by its
    position in the array, read with [!!] and mutated with [alter]. *)

(** Body of the boundary [if] for [robot_array[i]] (lines 421-422). *)
Definition boundary_step (i : nat) (robot_array : list cube_robot) : list cube_robot :=
  match robot_array !! i with
  | Some robot_a =>
      if out_of_bounds robot_a
      then alter update_piston i (alter update_robot_index i robot_array)
      else robot_array
  | None => robot_array
  end.

(** Body of the inner loop for [robot_array[i]] and [robot_array[j]]
    (lines 427-434). *)
Definition pair_step `{Host} (i j : nat) (robot_array : list cube_robot)
  : list cube_robot :=
  match robot_array !! i, robot_array !! j with
  | Some robot_a, Some robot_b =>
      if Box3_intersectsBox (bounding_box robot_a) (bounding_box robot_b)
      then alter update_piston j
             (alter update_piston i
                (alter update_robot_index j
                   (alter update_robot_index i robot_array)))
      else robot_array
  | _, _ => robot_array
  end.

(** Body of the outer loop: the boundary check, then [j = i + 1 .. length - 1]. *)
Definition outer_step `{Host} (i : nat) (robot_array : list cube_robot)
  : list cube_robot :=
  foldl (fun acc j => pair_step i j acc) (boundary_step i robot_array)
        (seq (S i) (length robot_array - S i)).

(** [collision_detection] (lines 414-437). *)
Definition collision_detection `{Host} (robot_array : list cube_robot)
  : list cube_robot :=
  foldl (fun acc i => outer_step i acc) robot_array (seq 0 (length robot_array)).

(** ** Direction dispatch and frames *)

(** The [switch] of [assign_initial_direction] for one robot
    (lines 539-554). *)
Definition dispatch `{Host} (ins : inputs) (robot : cube_robot) : cube_robot :=
  match index robot with
  | Some 1%Z => move_away ins robot
  | Some 2%Z => move_closer ins robot
  | Some 3%Z => move_left ins robot
  | Some 4%Z => move_right ins robot
  | _ => robot
  end.

(** [assign_initial_direction] (lines 535-556); [ins i] are the inputs read
    while robot [i] moves. *)
Definition assign_initial_direction `{Host} (ins : nat -> inputs)
    (robot_array : list cube_robot) : list cube_robot :=
  foldl (fun acc i => alter (dispatch (ins i)) i acc) robot_array
        (seq 0 (length robot_array)).

(** The part of [animate] that touches the robots (lines 569-574). *)
Definition animate `{Host} (ins : nat -> inputs) (robot_array : list cube_robot)
  : list cube_robot :=
  assign_initial_direction ins (collision_detection robot_array).

(** The four movement functions by name, and the rotation each one tests. *)
Inductive movement_fn := Away | Closer | Left | Right.

Definition move `{Host} (m : movement_fn) : inputs -> cube_robot -> cube_robot :=
  match m with
  | Away => move_away | Closer => move_closer | Left => move_left | Right => move_right
  end.

Definition primary_rotation (m : movement_fn) (r : cube_robot) : Q :=
  match m with
  | Away | Closer => cube_rotation_x r
  | Left | Right => cube_rotation_z r
  end.

(** The four blocks of a movement function, by name of the function. *)
Definition integrate_phase `{Host} (m : movement_fn) : inputs -> cube_robot -> cube_robot :=
  match m with
  | Away => move_away_integrate | Closer => move_closer_integrate
  | Left => move_left_integrate | Right => move_right_integrate
  end.

Definition piston_phase `{Host} (m : movement_fn) : cube_robot -> cube_robot :=
  match m with
  | Away => move_away_piston | Closer => move_closer_piston
  | Left => move_left_piston | Right => move_right_piston
  end.

Definition tipping_phase `{Host} (m : movement_fn) : cube_robot -> cube_robot :=
  match m with
  | Away => move_away_tipping | Closer => move_closer_tipping
  | Left => move_left_tipping | Right => move_right_tipping
  end.

Definition landing_phase `{Host} (m : movement_fn) : cube_robot -> cube_robot :=
  match m with
  | Away => move_away_landing | Closer => move_closer_landing
  | Left => move_left_landing | Right => move_right_landing
  end.

(** The state of a movement call when the tipping point check is evaluated. *)
Definition at_tipping_check `{Host} (m : movement_fn) (ins : inputs) (r : cube_robot)
  : cube_robot :=
  piston_phase m (integrate_phase m ins r).

(** The state of a movement call when its last test, the rotation check, is
    evaluated. *)
Definition at_rotation_check `{Host} (m : movement_fn) (ins : inputs) (r : cube_robot)
  : cube_robot :=
  tipping_phase m (at_tipping_check m ins r).

(** Calls that can be made on the array of robots, in any order. *)
Inductive call :=
| Call_collision_detection
| Call_assign_initial_direction (ins : nat -> inputs)
| Call_move (i : nat) (m : movement_fn) (ins : inputs).

Definition run_call `{Host} (robot_array : list cube_robot) (c : call)
  : list cube_robot :=
  match c with
  | Call_collision_detection => collision_detection robot_array
  | Call_assign_initial_direction ins => assign_initial_direction ins robot_array
  | Call_move i m ins => alter (move m ins) i robot_array
  end.

Definition run_calls `{Host} (calls : list call) (robot_array : list cube_robot)
  : list cube_robot :=
  foldl run_call robot_array calls.

(** Successive frames; [frames] lists the inputs of each frame. *)
Definition run_frames `{Host} (frames : list (nat -> inputs))
    (robot_array : list cube_robot) : list cube_robot :=
  foldl (fun acc ins => animate ins acc) robot_array frames.

(** ** JavaScript values reaching [num_robots] *)

(** The result of ToNumber. *)
Inductive number := NaN | Finite (q : Q) | PosInfinity | NegInfinity.

(** [num_robots] is the number [1] or the string returned by
    [URLSearchParams.get]. *)
Inductive jsval := JNumber (q : Q) | JString (s : string).

(** The white space and line terminators of the language among the ASCII
    characters.  The white space of code 128 and above (the no-break space
    and the other space separators) is not covered: texts are taken here as
    ASCII texts, and the theorems on texts say so where it matters. *)
Definition is_StrWhiteSpaceChar (c : ascii) : bool :=
  match N_of_ascii c with
  | 9%N | 10%N | 11%N | 12%N | 13%N | 32%N => true
  | _ => false
  end.

(** Value of a digit in a base up to 16. *)
Definition digit_value (base : N) (c : ascii) : option N :=
  let n := N_of_ascii c in
  let v :=
    if (48 <=? n)%N && (n <=? 57)%N then Some (n - 48)%N
    else if (97 <=? n)%N && (n <=? 102)%N then Some (n - 87)%N
    else if (65 <=? n)%N && (n <=? 70)%N then Some (n - 55)%N
    else None in
  match v with
  | Some d => if (d <? base)%N then Some d else None
  | None => None
  end.

(** The longest prefix of digits of [base], and what follows it. *)
Fixpoint span_digits (base : N) (cs : list ascii) : list ascii * list ascii :=
  match cs with
  | c :: rest =>
      match digit_value base c with
      | Some _ => let (ds, tl) := span_digits base rest in (c :: ds, tl)
      | None => ([], cs)
      end
  | [] => ([], [])
  end.

(** The number written by a run of digits (0 for the empty run; characters
    that are not digits count as 0). *)
Definition digits_number (base : N) (ds : list ascii) : N :=
  foldl (fun acc c => (acc * base + default 0 (digit_value base c))%N) 0%N ds.

(** A non-empty text made of digits of [base] only. *)
Definition digits_value (base : N) (cs : list ascii) : option N :=
  match span_digits base cs with
  | ([], _) => None
  | (ds, []) => Some (digits_number base ds)
  | (_, _ :: _) => None
  end.

(** [Some rest] when the text is the character [c] followed by [rest]. *)
Definition after_char (c : ascii) (cs : list ascii) : option (list ascii) :=
  match cs with
  | c' :: rest => if Ascii.eqb c' c then Some rest else None
  | [] => None
  end.

(** [Some rest] when the text is [0], then [lower] or [upper], then
    [rest]. *)
Definition after_radix_prefix (lower upper : ascii) (cs : list ascii)
  : option (list ascii) :=
  match after_char "0" cs with
  | Some (c :: rest) =>
      if Ascii.eqb c lower || Ascii.eqb c upper then Some rest else None
  | _ => None
  end.

Fixpoint drop_space (cs : list ascii) : list ascii :=
  match cs with
  | c :: rest => if is_StrWhiteSpaceChar c then drop_space rest else cs
  | [] => []
  end.

Definition trim (cs : list ascii) : list ascii :=
  rev (drop_space (rev (drop_space cs))).

(** SignedInteger of an ExponentPart. *)
Definition SignedInteger (cs : list ascii) : option Z :=
  match after_char "+" cs, after_char "-" cs with
  | Some ds, _ => Z.of_N <$> digits_value 10 ds
  | None, Some ds => (fun n => (- Z.of_N n)%Z) <$> digits_value 10 ds
  | None, None => Z.of_N <$> digits_value 10 cs
  end.

(** What may follow the digits of a decimal literal: nothing, or an
    ExponentPart.  The result is the exponent. *)
Definition ExponentPart_opt (cs : list ascii) : option Z :=
  match cs with
  | [] => Some 0%Z
  | _ :: _ =>
      match after_char "e" cs, after_char "E" cs with
      | Some rest, _ | None, Some rest => SignedInteger rest
      | None, None => None
      end
  end.

(** The value is the exact rational the literal denotes: the rounding to a
    binary64 number and the overflow to Infinity are not modelled, so the
    value agrees with the language on the numbers that need no rounding. *)
Definition StrUnsignedDecimalLiteral (cs : list ascii) : number :=
  if String.eqb (string_of_list_ascii cs) "Infinity" then PosInfinity
  else
    let (int_part, after_int) := span_digits 10 cs in
    let (frac_part, after_frac) :=
      match after_char "." after_int with
      | Some rest => span_digits 10 rest
      | None => ([], after_int)
      end in
    match int_part, frac_part with
    | [], [] => NaN
    | _, _ =>
        match ExponentPart_opt after_frac with
        | Some e =>
            Finite ((inject_Z (Z.of_N (digits_number 10 int_part))
                     + inject_Z (Z.of_N (digits_number 10 frac_part))
                       / inject_Z (10 ^ Z.of_nat (length frac_part)))
                    * Qpower 10 e)
        | None => NaN
        end
    end.

Definition negate (n : number) : number :=
  match n with
  | NaN => NaN
  | Finite q => Finite (- q)
  | PosInfinity => NegInfinity
  | NegInfinity => PosInfinity
  end.

Definition of_digits (v : option N) : number :=
  match v with
  | Some n => Finite (inject_Z (Z.of_N n))
  | None => NaN
  end.

(** StringToNumber of ECMAScript, on ASCII text: white space is trimmed, the
    empty text is 0, then a binary, octal or hexadecimal integer or a signed
    decimal literal; any other text is NaN. *)
Definition StringToNumber (s : string) : number :=
  let cs := trim (list_ascii_of_string s) in
  match cs with
  | [] => Finite 0
  | _ :: _ =>
      match after_radix_prefix "x" "X" cs, after_radix_prefix "o" "O" cs,
            after_radix_prefix "b" "B" cs with
      | Some rest, _, _ => of_digits (digits_value 16 rest)
      | None, Some rest, _ => of_digits (digits_value 8 rest)
      | None, None, Some rest => of_digits (digits_value 2 rest)
      | None, None, None =>
          match after_char "+" cs, after_char "-" cs with
          | Some rest, _ => StrUnsignedDecimalLiteral rest
          | None, Some rest => negate (StrUnsignedDecimalLiteral rest)
          | None, None => StrUnsignedDecimalLiteral cs
          end
      end
  end.

Definition ToNumber (v : jsval) : number :=
  match v with
  | JNumber q => Finite q
  | JString s => StringToNumber s
  end.

(** [i < num_robots] for the loop counter [i]: false when ToNumber gives
    NaN. *)
Definition counter_less_than (i : nat) (num_robots : jsval) : bool :=
  match ToNumber num_robots with
  | Finite q => Qltb (inject_Z (Z.of_nat i)) q
  | PosInfinity => true
  | NaN | NegInfinity => false
  end.

(** [parseInt(text)] without a radix, as [listeners.js] calls it: leading
    white space, a sign, an optional [0x], then the longest run of digits.
    The result is the exact integer the digits denote; the language rounds
    it to a binary64 number, which changes nothing up to 2^53. *)
Definition parseInt (s : string) : number :=
  let cs := drop_space (list_ascii_of_string s) in
  let (negative, cs) :=
    match after_char "-" cs, after_char "+" cs with
    | Some rest, _ => (true, rest)
    | None, Some rest => (false, rest)
    | None, None => (false, cs)
    end in
  let (base, cs) :=
    match after_radix_prefix "x" "X" cs with
    | Some rest => (16%N, rest)
    | None => (10%N, cs)
    end in
  match fst (span_digits base cs) with
  | [] => NaN
  | ds =>
      let v := inject_Z (Z.of_N (digits_number base ds)) in
      Finite (if negative : bool then - v else v)
  end.

(** The value [listeners.js] (lines 13-19) gives its own [num_robots_create]
    from the parameter, before the sliders are read. *)
Definition listeners_num_robots_create (url_num_robots : option string) : number :=
  match url_num_robots with
  | Some text => parseInt text
  | None => Finite 0
  end.

(** ** Initial placement *)

(** [create_robots] (lines 477-479). *)
Definition create_robots `{Host} (x y z : Q) : cube_robot := new_cube_robot x y z.

Definition movement : list Z := [1; 2; 3; 4]%Z.

(** [array[k]] for a number [k]: undefined outside the array. *)
Definition array_get {A} (l : list A) (k : Z) : option A :=
  if (k <? 0)%Z then None else l !! Z.to_nat k.

(** The text [`Robot ${i + 1}`]. *)
Definition robot_name (i : nat) : string :=
  "Robot " ++ NilEmpty.string_of_uint (Nat.to_uint (i + 1)).

(** The overlap check of one candidate against the robots already placed. *)
Definition collision_detected `{Host} (robot : cube_robot)
    (robot_array : list cube_robot) : bool :=
  existsb
    (fun current => Box3_intersectsBox (bounding_box robot) (bounding_box current))
    robot_array.

(** The candidate made from the random numbers at [cursor] and
    [cursor + 1]. *)
Definition candidate `{Host} (random : nat -> Q) (cursor i : nat) : cube_robot :=
  let x := random cursor * 36 - 18 in
  let z := random (S cursor) * 36 - 18 in
  set_name (robot_name i) (create_robots x (13 # 10) z).

(** The [while (!valid_pos)] loop (lines 499-521).  [random] is the sequence of values that
    [Math.random()] returns and [cursor] the number of values used so far;
    [fuel] bounds the number of iterations, [None] meaning that the loop is
    still running when it is used up. *)
Fixpoint place_robot `{Host} (fuel : nat) (random : nat -> Q) (cursor i : nat)
    (robot_array : list cube_robot) : option (cube_robot * nat) :=
  match fuel with
  | O => None
  | S fuel' =>
      let robot := candidate random cursor i in
      if collision_detected robot robot_array
      then place_robot fuel' random (cursor + 2) i robot_array
      else Some (robot, (cursor + 2)%nat)
  end.

(** The [for (let i = 0; i < num_robots; i++)] loop (lines 494-527) from
    counter [i] on. *)
Fixpoint initialize_robots_from `{Host} (fuel : nat) (random : nat -> Q)
    (cursor i : nat) (num_robots : jsval) (robot_array : list cube_robot)
  : option (list cube_robot) :=
  match fuel with
  | O => None
  | S fuel' =>
      if counter_less_than i num_robots then
        match place_robot fuel' random cursor i robot_array with
        | Some (robot, cursor') =>
            let k := Qfloor (random cursor' * inject_Z (Z.of_nat (length movement))) in
            let robot := set_index (array_get movement k) robot in
            initialize_robots_from fuel' random (S cursor') (S i) num_robots
                                   (robot_array ++ [robot])
        | None => None
        end
      else Some robot_array
  end.

(** [initialize_robots] (lines 487-529). *)
Definition initialize_robots `{Host} (fuel : nat) (random : nat -> Q)
    (num_robots : jsval) : option (list cube_robot) :=
  initialize_robots_from fuel random 0 0 num_robots [].

(** [url_params.get('num_robots') || 1] (line 566): the text when it is
    present and not empty, otherwise the number 1. *)
Definition num_robots_create (param : option string) : jsval :=
  match param with
  | Some EmptyString | None => JNumber 1
  | Some text => JString text
  end.

(** The robots [init_engine] builds (lines 563-576); [param] is the result of
    [url_params.get('num_robots')]. *)
Definition init_engine `{Host} (fuel : nat) (random : nat -> Q) (param : option string)
  : option (list cube_robot) :=
  initialize_robots fuel random (num_robots_create param).

(** ** The floor texture painted by [setup_scene] *)

(** One call of [context.fillRect(x, y, w, h)], with the value [fillStyle]
    has when it is made. *)
Record fillRect_call := {
  fillStyle : string;
  rect_x : Z;
  rect_y : Z;
  rect_w : Z;
  rect_h : Z
}.

Definition canvas_width : Z := 512.
Definition canvas_height : Z := 512.
Definition tile_size : Z := 32.

(** [canvas.width / tile_size] and [canvas.height / tile_size], divisions of
    JavaScript numbers. *)
Definition num_tiles_x : Q := inject_Z canvas_width / inject_Z tile_size.
Definition num_tiles_y : Q := inject_Z canvas_height / inject_Z tile_size.

(** The values taken by a counter that starts at 0 and is incremented while
    it is below [bound] ([for (let x = 0; x < bound; x++)]). *)
Definition counters_below (bound : Q) : list nat := seq 0 (Z.to_nat (Qceiling bound)).

(** [(x + y) % 2 === 0 ? '#CCCCCC' : '#FFFFFF']. *)
Definition tile_color (x y : nat) : string :=
  if ((Z.of_nat x + Z.of_nat y) mod 2 =? 0)%Z then "#CCCCCC" else "#FFFFFF".

(** The two nested loops of [setup_scene] (lines 54-60): the calls of
    [fillRect] in the order in which they are made. *)
Definition paint_floor : list fillRect_call :=
  flat_map
    (fun x =>
       map (fun y =>
              {| fillStyle := tile_color x y;
                 rect_x := Z.of_nat x * tile_size;
                 rect_y := Z.of_nat y * tile_size;
                 rect_w := tile_size;
                 rect_h := tile_size |})
           (counters_below num_tiles_y))
    (counters_below num_tiles_x).

(** ** Derived notions used by the statements *)

(** One collision response on a robot: the index update followed by the
    piston update. *)
Definition respond (robot : cube_robot) : cube_robot :=
  update_piston (update_robot_index robot).

(** The pairing 1<->2, 3<->4 on the value of [index]. *)
Definition flip_index (i : option Z) : option Z :=
  match i with
  | Some 1%Z => Some 2%Z
  | Some 2%Z => Some 1%Z
  | Some 3%Z => Some 4%Z
  | Some 4%Z => Some 3%Z
  | other => other
  end.

Definition valid_index (robot : cube_robot) : Prop :=
  index robot = Some 1%Z \/ index robot = Some 2%Z
  \/ index robot = Some 3%Z \/ index robot = Some 4%Z.

(** The stored world position is beyond the boundary of 20 along x or z, or
    within it along both. *)
Definition outside_boundary (r : cube_robot) : Prop :=
  20 < Qabs (Vector3.x (position_in_world r))
  \/ 20 < Qabs (Vector3.z (position_in_world r)).

Definition inside_boundary (r : cube_robot) : Prop :=
  Qabs (Vector3.x (position_in_world r)) <= 20
  /\ Qabs (Vector3.z (position_in_world r)) <= 20.

(** The array has a robot at position [k] and its index is one of the four
    directions. *)
Definition valid_at (robot_array : list cube_robot) (k : nat) : Prop :=
  exists r, robot_array !! k = Some r /\ valid_index r.

Fixpoint count_true {A} (p : A -> bool) (l : list A) : nat :=
  match l with
  | a :: l' => (if p a then 1 else 0) + count_true p l'
  | [] => 0
  end.

(** The intersection test of the robots at positions [i] and [j], in the
    order in which the pass calls it. *)
Definition intersects_at `{Host} (robot_array : list cube_robot) (i j : nat) : bool :=
  match robot_array !! i, robot_array !! j with
  | Some robot_a, Some robot_b =>
      Box3_intersectsBox (bounding_box robot_a) (bounding_box robot_b)
  | _, _ => false
  end.

Definition out_of_bounds_at (robot_array : list cube_robot) (k : nat) : bool :=
  match robot_array !! k with
  | Some robot => out_of_bounds robot
  | None => false
  end.

(** Number of collision events robot [k] takes part in: the boundary
    violation, the intersecting pairs [(k, j)] with [j > k] and the
    intersecting pairs [(i, k)] with [i < k]. *)
Definition events `{Host} (robot_array : list cube_robot) (k : nat) : nat :=
  ((if out_of_bounds_at robot_array k then 1 else 0)
   + count_true (fun j => intersects_at robot_array k j)
                (seq (S k) (length robot_array - S k))
   + count_true (fun i => intersects_at robot_array i k) (seq 0 k))%nat.

(** The fields that no movement function writes. *)
Definition fixed_fields (r : cube_robot) :=
  (time_step r, tipping_point_angle r, full_rotation r, rest_angle r, angle r,
   piston_output_force r, gravity r, robot_size r, custom_bounding_box r, piston_size r,
   piston_face_location r, axis_rotation_distance r, index r, name r).

(** The box is the one the library gives for the current cube and piston. *)
Definition box_fresh `{Host} (r : cube_robot) : Prop :=
  bounding_box r = Box3_setFromObject (cube r) [piston_bottom r].

(** What a collision pass reads and must not write: the cube, the velocities,
    the world position and the box. *)
Definition kinematics (r : cube_robot) :=
  (cube r, angular_velocity r, translational_velocity r, position_in_world r,
   bounding_box r).

(** The responses robot [k] receives while the outer loop is at [i]. *)
Definition responses_at `{Host} (robot_array : list cube_robot) (i k : nat) : nat :=
  ((if (k =? i)%nat && out_of_bounds_at robot_array i then 1 else 0)
   + count_true (fun j => ((k =? i)%nat || (k =? j)%nat) && intersects_at robot_array i j)
                (seq (S i) (length robot_array - S i)))%nat.

(** Number of intersecting pairs robot [k] belongs to. *)
Definition intersecting_pairs `{Host} (robot_array : list cube_robot) (k : nat) : nat :=
  (count_true (fun j => intersects_at robot_array k j)
              (seq (S k) (length robot_array - S k))
   + count_true (fun i => intersects_at robot_array i k) (seq 0 k))%nat.

(** The boxes a created robot can have. *)
Definition created_box `{Host} (b : Box3.t) : Prop :=
  exists x z, b = bounding_box (create_robots x (13 # 10) z).

(** The states the placement goes through, each time the test of the [for]
    loop is reached: the number of values of [Math.random] used so far and the
    robots placed so far.  A step is one turn of the [for] loop: the [while]
    loop returns an accepted robot, which takes its index from the next
    random value and is pushed on the array. *)
Inductive placement_state `{Host} (random : nat -> Q) : nat -> list cube_robot -> Prop :=
| placement_start : placement_state random 0 []
| placement_next (cursor : nat) (robot_array : list cube_robot) (fuel : nat)
    (robot : cube_robot) (cursor' : nat) :
    placement_state random cursor robot_array ->
    place_robot fuel random cursor (length robot_array) robot_array
    = Some (robot, cursor') ->
    placement_state random (S cursor')
      (robot_array
       ++ [set_index
             (array_get movement
                (Qfloor (random cursor' * inject_Z (Z.of_nat (length movement)))))
             robot]).

(** The random sequence offers a free position within [K] attempts to the
    robots placed: in every state the placement reaches with fewer than [n]
    robots on the array, one of the next [K] candidates intersects none of
    the robots placed so far. *)
Definition offers_free_position `{Host} (random : nat -> Q) (n K : nat) : Prop :=
  forall (cursor : nat) (robot_array : list cube_robot),
    placement_state random cursor robot_array ->
    (length robot_array < n)%nat ->
    exists t, (t < K)%nat /\
      collision_detected (candidate random (cursor + 2 * t) (length robot_array))
                         robot_array = false.

(** The boxes of the array do not intersect one another: no robot's box
    intersects the box of a robot placed before it, which is the test the
    placement loop makes. *)
Definition pairwise_disjoint `{Host} (robot_array : list cube_robot) : Prop :=
  forall i j a b, (i < j)%nat -> robot_array !! i = Some a -> robot_array !! j = Some b ->
    Box3_intersectsBox (bounding_box b) (bounding_box a) = false.

(** The index of the robot is the entry of [movement] selected by the number
    [u]: [j + 1] when [u] lies in the quarter [[j/4, (j+1)/4)] of the unit
    interval. *)
Definition index_drawn (u : Q) (r : cube_robot) : Prop :=
  exists j, (0 <= j < 4)%Z
    /\ inject_Z j / 4 <= u /\ u < (inject_Z j + 1) / 4
    /\ index r = Some (j + 1)%Z.

(** Robot [k] of the array was made from three consecutive values of the
    random sequence: the candidate from the values at [c] and [c + 1], the
    index from the value at [c + 2], the one drawn for this robot when the
    [while] loop has accepted it. *)
Definition drawn_at `{Host} (random : nat -> Q) (k c : nat) (r : cube_robot) : Prop :=
  r = set_index
        (array_get movement
           (Qfloor (random (c + 2)%nat * inject_Z (Z.of_nat (length movement)))))
        (candidate random c k).

(** What the placement maintains about the robots placed so far when [cursor]
    values of the random sequence have been used: their boxes are disjoint,
    and each robot has its own three values of the sequence, in the order of
    the array. *)
Definition placement_invariant `{Host} (random : nat -> Q) (cursor : nat)
    (acc : list cube_robot) : Prop :=
  pairwise_disjoint acc
  /\ Forall (fun r => created_box (bounding_box r)) acc
  /\ exists cursors : list nat,
       length cursors = length acc
       /\ (forall k c, cursors !! k = Some c -> (c + 3 <= cursor)%nat)
       /\ (forall i j ci cj, (i < j)%nat ->
             cursors !! i = Some ci -> cursors !! j = Some cj -> (ci + 3 <= cj)%nat)
       /\ forall k r, acc !! k = Some r ->
            exists c, cursors !! k = Some c /\ drawn_at random k c r.

(** ** A host to run the engine on concrete inputs *)

(** Polynomials standing for [Math.sin] and [Math.cos] on small angles. *)
Definition sin_poly (a : Q) : Q := a - a * a * a / 6 + a * a * a * a * a / 120.
Definition cos_poly (a : Q) : Q := 1 - a * a / 2 + a * a * a * a / 24.

(** Modelled from the spec: [Box3.setFromObject] is a function of the
    rendering library, which is not among the sources.  Section 3 of the
    specification describes the bounding box as axis-aligned and "recomputed
    from position and fixed half-extents every frame"; the half-extent is
    half the edge of [BoxGeometry(2, 2, 2)]. *)
Definition spec_setFromObject (object : Mesh.t) (children : list Mesh.t) : Box3.t :=
  let p := Mesh.position object in
  Box3.mk (Vector3.mk (Vector3.x p - 1) (Vector3.y p - 1) (Vector3.z p - 1))
          (Vector3.mk (Vector3.x p + 1) (Vector3.y p + 1) (Vector3.z p + 1)).

(** Modelled from the spec: [Box3.intersectsBox] is a function of the
    rendering library.  Section 4.3 of the specification: "closed-interval
    AABB overlap on all three axes". *)
Definition spec_intersectsBox (a b : Box3.t) : bool :=
  Qle_bool (Vector3.x (Box3.min a)) (Vector3.x (Box3.max b))
  && Qle_bool (Vector3.x (Box3.min b)) (Vector3.x (Box3.max a))
  && Qle_bool (Vector3.y (Box3.min a)) (Vector3.y (Box3.max b))
  && Qle_bool (Vector3.y (Box3.min b)) (Vector3.y (Box3.max a))
  && Qle_bool (Vector3.z (Box3.min a)) (Vector3.z (Box3.max b))
  && Qle_bool (Vector3.z (Box3.min b)) (Vector3.z (Box3.max a)).

(** Modelled from the spec: [getWorldPosition] is a function of the rendering
    library.  The cube is attached to the scene itself, so its world position
    is its position (the "world position" of section 4.3). *)
Definition spec_getWorldPosition (object : Mesh.t) : Vector3.t := Mesh.position object.

Definition model_host : Host :=
  {| Math_sin := sin_poly;
     Math_cos := cos_poly;
     Box3_setFromObject := spec_setFromObject;
     Box3_intersectsBox := spec_intersectsBox;
     Object3D_getWorldPosition := spec_getWorldPosition |}.

(** Statements that name no host are about [model_host]; inside a theorem
    the host bound by the theorem comes first. *)
#[export] Existing Instance model_host | 100.


(** ** States named by the statements *)

(** No angular or translational velocity and no tilt. *)
Definition at_rest (r : cube_robot) : Prop :=
  angular_velocity r = Vector3.zero /\ translational_velocity r = Vector3.zero
  /\ cube_rotation_x r = 0.

(** The constants the constructor gives a robot whose cube has an edge of
    2. *)
Definition constructed_constants (r : cube_robot) : Prop :=
  time_step r = 1 / 360 /\ tipping_point_angle r = degToRad 45
  /\ full_rotation r = degToRad 90 /\ angle r = degToRad 45
  /\ Vector3.x (robot_size r) == 2
  /\ axis_rotation_distance r = (Vector3.x (robot_size r) / 2) / 100.

(** ** Concrete inputs *)

(** Both sliders at 50: piston force 0.5 and mass 0.05. *)
Definition sliders_50_50 : inputs :=
  {| Math_random := 1 # 2; piston_output := 50; mass_slider := 50 |}.

(** Piston force 0, mass 0.05. *)
Definition sliders_0_50 : inputs :=
  {| Math_random := 1 # 2; piston_output := 0; mass_slider := 50 |}.

(** A robot as the placement loop creates it, at the centre of the field. *)
Definition fresh_robot : cube_robot := @new_cube_robot model_host 0 (13 # 10) 0.

(** A robot moving away that has rolled to -1.57 rad, just short of 90
    degrees. *)
Definition robot_about_to_land : cube_robot := set_cube_rotation_x (- (157 # 100)) fresh_robot.

(** A robot moving left that has rolled to 0.8 rad, past the 45 degree
    threshold, with the angular velocity the piston gave it. *)
Definition robot_tipping_left : cube_robot :=
  set_index (Some 3%Z)
    (set_angular_velocity (Vector3.mk 3 0 3) (set_cube_rotation_z (4 # 5) fresh_robot)).

(** The same roll about the x axis, for a robot moving away. *)
Definition robot_tipping_away : cube_robot :=
  set_index (Some 1%Z)
    (set_angular_velocity (Vector3.mk 3 0 3) (set_cube_rotation_x (- (4 # 5)) fresh_robot)).

(** A robot as it is after a movement call that left it at world position
    [(x, 1.3, z)], with direction index [i]. *)
Definition robot_at (x z : Q) (i : Z) : cube_robot :=
  set_index (Some i)
    (set_position_in_world (Vector3.mk x (13 # 10) z) (@new_cube_robot model_host x (13 # 10) z)).

(** Three robots inside the boundary; the box of the first meets the boxes of
    the other two. *)
Definition three_in_contact : list cube_robot :=
  [robot_at 0 0 1; robot_at (3 # 2) 0 3; robot_at (- (3 # 2)) 0 3].

(** Two robots whose boxes meet, the first one outside the boundary
    ([z < -20]). *)
Definition two_at_the_boundary : list cube_robot :=
  [robot_at 0 (- (41 # 2)) 1; robot_at (1 # 2) (- 19) 3].

(** Two robots moving along z in the same lane, the first one outside the
    boundary and in contact with the second. *)
Definition followed_out_of_bounds : list cube_robot :=
  [robot_at 0 (- (41 # 2)) 1; robot_at 0 (- 19) 1].

(** One robot outside the boundary, alone. *)
Definition alone_out_of_bounds : list cube_robot := [robot_at (21 # 1) 0 4].

(** Two robots inside the boundary whose boxes meet. *)
Definition two_in_contact : list cube_robot := [robot_at 0 0 1; robot_at (3 # 2) 1 3].

(** A random sequence in which every second pair of numbers changes: the
    candidates alternate between two far corners of the field. *)
Definition alternating_random (c : nat) : Q :=
  if Nat.even (c / 2) then 1 # 10 else 9 # 10.

(** A random sequence whose second candidate lands on the first robot and is
    rejected. *)
Definition random_with_rejection (c : nat) : Q :=
  match c with
  | 0 | 1 => 1 # 2
  | 2 => 3 # 10
  | 3 | 4 => 1 # 2
  | 5 | 6 => 3 # 4
  | _ => 9 # 10
  end%nat.

(** A sequence of calls and a sequence of frames with their inputs. *)
Definition some_calls : list call :=
  [Call_collision_detection;
   Call_assign_initial_direction (fun _ => sliders_50_50);
   Call_move 0 Away sliders_50_50].

Definition some_frames : list (nat -> inputs) :=
  [fun _ : nat => sliders_50_50; fun _ : nat => sliders_0_50].

(** A random sequence that visits the points of a grid of step 3, ten to a
    row: candidate [k] is made from the values at [3 k] and [3 k + 1], and
    every third value, the one used for an index, is one half. *)
Definition grid_random (c : nat) : Q :=
  match (c mod 3)%nat with
  | 0%nat => inject_Z (3 * Z.of_nat ((c / 3) mod 10) + 2) / 36
  | 1%nat => inject_Z (3 * Z.of_nat (((c / 3) / 10) mod 10) + 2) / 36
  | _ => 1 # 2
  end.

(** ** Notions used by the properties of the movement, the frames, the
    placement, the reading of the count and the floor *)

(** The horizontal coordinate of the cube along which a movement function
    travels, the other horizontal coordinate, the component of the
    translational velocity the function reads, and the rotation it leaves
    alone. *)
Definition primary_position (m : movement_fn) (r : cube_robot) : Q :=
  match m with
  | Away | Closer => cube_position_z r
  | Left | Right => cube_position_x r
  end.

Definition secondary_position (m : movement_fn) (r : cube_robot) : Q :=
  match m with
  | Away | Closer => cube_position_x r
  | Left | Right => cube_position_z r
  end.

Definition primary_velocity (m : movement_fn) (r : cube_robot) : Q :=
  match m with
  | Away | Closer => Vector3.z (translational_velocity r)
  | Left | Right => Vector3.x (translational_velocity r)
  end.

Definition secondary_rotation (m : movement_fn) (r : cube_robot) : Q :=
  match m with
  | Away | Closer => cube_rotation_z r
  | Left | Right => cube_rotation_x r
  end.

(** One translation step of a movement function: [-=] for [move_away] and
    [move_left], [+=] for [move_closer] and [move_right]. *)
Definition advance (m : movement_fn) (p v : Q) : Q :=
  match m with
  | Away | Left => p - v
  | Closer | Right => p + v
  end.

(** The component of the angular velocity with which a movement function
    rotates the cube in its first block, and the one it uses in its tipping
    block. *)
Definition integrate_spin (m : movement_fn) (v : Vector3.t) : Q :=
  match m with
  | Away | Closer => Vector3.z v
  | Left | Right => Vector3.x v
  end.

Definition tipping_spin (m : movement_fn) (v : Vector3.t) : Q :=
  match m with
  | Away | Closer => Vector3.y v
  | Left | Right => Vector3.x v
  end.

(** One rotation step of a movement function: [-=] for [move_away] and
    [move_right], [+=] for [move_closer] and [move_left]. *)
Definition turn (m : movement_fn) (a w : Q) : Q :=
  match m with
  | Away | Right => a - w
  | Closer | Left => a + w
  end.

(** The outcome of the test "Tipping point check" and of the test "Rotation
    check" in a call of a movement function. *)
Definition tips `{Host} (m : movement_fn) (ins : inputs) (r : cube_robot) : bool :=
  Qgeb (Qabs (primary_rotation m (at_tipping_check m ins r))) (tipping_point_angle r).

Definition lands `{Host} (m : movement_fn) (ins : inputs) (r : cube_robot) : bool :=
  Qgeb (Qabs (primary_rotation m (at_rotation_check m ins r))) (full_rotation r).

(** What only the landing block changes of the cube's rotation: the rotation
    about y, with the rotation the function leaves alone and the random value
    the physics step stored. *)
Definition settle_state (m : movement_fn) (r : cube_robot) : Q * Q * Q :=
  (Vector3.y (Mesh.rotation (cube r)), secondary_rotation m r, random_value r).

(** The height of the cube. *)
Definition cube_position_y (r : cube_robot) : Q := Vector3.y (Mesh.position (cube r)).

(** The fields that neither a movement function nor the collision pass
    writes. *)
Definition constants (r : cube_robot) :=
  (time_step r, tipping_point_angle r, full_rotation r, rest_angle r, angle r,
   piston_output_force r, gravity r, robot_size r, custom_bounding_box r, piston_size r,
   piston_face_location r, axis_rotation_distance r, name r).

(** The two horizontal components of the velocities and of gravity are equal
    on a robot. *)
Definition horizontal_components_equal (r : cube_robot) : Prop :=
  Vector3.x (gravity r) = Vector3.z (gravity r)
  /\ Vector3.x (angular_velocity r) = Vector3.z (angular_velocity r)
  /\ Vector3.x (translational_velocity r) = Vector3.z (translational_velocity r).

(** Every robot of the array is a candidate of the placement loop: robot [k]
    was made from the random numbers at some [c] and [c + 1], intersected
    none of the robots before it, and took its index from the random number
    at [c + 2]. *)
Definition placed_by `{Host} (random : nat -> Q) (robot_array : list cube_robot) : Prop :=
  forall k r, robot_array !! k = Some r ->
    exists c,
      r = set_index
            (array_get movement
               (Qfloor (random (c + 2)%nat * inject_Z (Z.of_nat (length movement)))))
            (candidate random c k)
      /\ collision_detected (candidate random c k) (take k robot_array) = false.

(** The decimal digits of a natural number, as a template literal writes a
    count ([robot_name] uses the same text for [i + 1]). *)
Definition decimal_text (n : nat) : string := NilEmpty.string_of_uint (Nat.to_uint n).

(** The characters of a number in decimal notation. *)
Definition digit_chars (d : Decimal.uint) : list ascii :=
  list_ascii_of_string (NilEmpty.string_of_uint d).

(** A text that does not begin with a decimal digit. *)
Definition starts_without_digit (cs : list ascii) : Prop :=
  match cs with
  | [] => True
  | c :: _ => digit_value 10 c = None
  end.

(** An ASCII character after which neither [parseInt] nor StringToNumber can
    go on reading a decimal number, a radix prefix or an exponent: a
    character of code below 128 that is no white space, no digit, no point
    and none of the letters e, x, o, b.  Characters of code 128 and above are
    left out: some of them are, or begin, white space that the conversions of
    the language trim. *)
Definition ends_the_number (c : ascii) : bool :=
  (N_of_ascii c <? 128)%N
  && negb (is_StrWhiteSpaceChar c)
  && match digit_value 10 c with Some _ => false | None => true end
  && negb (existsb (Ascii.eqb c)
             ["."; "e"; "E"; "x"; "X"; "o"; "O"; "b"; "B"]%char).

(** The largest number up to which every natural number is a number of the
    language (a binary64 number), so that the conversions return it
    exactly: 2 to the power 53. *)
Definition max_exact_integer : Z := 2 ^ 53.

(** The pixel [(px, py)] lies in the rectangle of the call. *)
Definition covers (call : fillRect_call) (px py : Z) : bool :=
  (rect_x call <=? px)%Z && (px <? rect_x call + rect_w call)%Z
  && (rect_y call <=? py)%Z && (py <? rect_y call + rect_h call)%Z.

(** The colour of a pixel after the calls: the style of the last call that
    covers it, [None] for a pixel no call has painted. *)
Definition pixel_color (calls : list fillRect_call) (px py : Z) : option string :=
  foldl (fun acc call => if covers call px py then Some (fillStyle call) else acc)
        None calls.

(** ** Further concrete inputs *)

(** Two robots inside the boundary, far from each other. *)
Definition two_apart : list cube_robot := [robot_at 0 0 1; robot_at 10 10 3].

(** The robots placed with [random_with_rejection] when two are asked for. *)
Definition placed_with_rejection : list cube_robot :=
  default [] (initialize_robots 6 random_with_rejection (JNumber 2)).

(** * Properties *)

(** ** Comparisons *)

Lemma Qgeb_true (a b : Q) : Qgeb a b = true <-> b <= a.
Proof. unfold Qgeb. apply Qle_bool_iff. Qed.

Lemma Qle_bool_false (a b : Q) : Qle_bool a b = false <-> b < a.
Proof.
  split; intros Hx.
  - apply Qnot_le_lt. intros Hle. apply Qle_bool_iff in Hle. congruence.
  - destruct (Qle_bool a b) eqn:E; [|reflexivity].
    apply Qle_bool_iff in E. exfalso. apply (Qlt_not_le _ _ Hx E).
Qed.

Lemma Qltb_true (a b : Q) : Qltb a b = true <-> a < b.
Proof. unfold Qltb. rewrite negb_true_iff. apply Qle_bool_false. Qed.

Lemma Qgeb_false (a b : Q) : Qgeb a b = false <-> a < b.
Proof. unfold Qgeb. apply Qle_bool_false. Qed.

Lemma Qgtb_true (a b : Q) : Qgtb a b = true <-> b < a.
Proof. unfold Qgtb. rewrite negb_true_iff. apply Qle_bool_false. Qed.

(** ** The blocks of the movement functions *)

Ltac unfold_blocks :=
  unfold move_away_landing, move_closer_landing, move_left_landing, move_right_landing,
         move_away_tipping, move_closer_tipping, move_left_tipping, move_right_tipping,
         move_away_piston, move_closer_piston, move_left_piston, move_right_piston,
         move_away_integrate, move_closer_integrate, move_left_integrate,
         move_right_integrate.

(** Case analysis on the test that guards a block applied to a variable. *)
Ltac block_cases m :=
  destruct m; cbn [integrate_phase piston_phase tipping_phase landing_phase];
  unfold_blocks;
  try match goal with
      | |- context [if ?b then _ else _] => destruct b
      end.

Section Blocks.
Context `{Host}.

Lemma move_blocks m ins r :
  move m ins r =
  let s := landing_phase m (at_rotation_check m ins r) in
  set_position_in_world (Object3D_getWorldPosition (cube s)) s.
Proof.
  destruct m;
    lazy beta iota zeta delta
      [move move_away move_closer move_left move_right landing_phase at_rotation_check
       at_tipping_check tipping_phase piston_phase integrate_phase];
    reflexivity.
Qed.

Lemma fixed_integrate m ins r : fixed_fields (integrate_phase m ins r) = fixed_fields r.
Proof. block_cases m; reflexivity. Qed.

Lemma fixed_piston m r : fixed_fields (piston_phase m r) = fixed_fields r.
Proof. block_cases m; reflexivity. Qed.

Lemma fixed_tipping m r : fixed_fields (tipping_phase m r) = fixed_fields r.
Proof. block_cases m; reflexivity. Qed.

Lemma fixed_landing m r : fixed_fields (landing_phase m r) = fixed_fields r.
Proof. block_cases m; reflexivity. Qed.

Lemma fixed_at_rotation_check m ins r :
  fixed_fields (at_rotation_check m ins r) = fixed_fields r.
Proof.
  unfold at_rotation_check, at_tipping_check.
  now rewrite fixed_tipping, fixed_piston, fixed_integrate.
Qed.

Lemma fixed_move m ins r : fixed_fields (move m ins r) = fixed_fields r.
Proof.
  rewrite move_blocks. cbv zeta.
  transitivity (fixed_fields (landing_phase m (at_rotation_check m ins r)));
    [reflexivity|].
  now rewrite fixed_landing, fixed_at_rotation_check.
Qed.

Lemma index_move m ins r : index (move m ins r) = index r.
Proof. pose proof (fixed_move m ins r) as E. unfold fixed_fields in E. congruence. Qed.

Lemma full_rotation_at_rotation_check m ins r :
  full_rotation (at_rotation_check m ins r) = full_rotation r.
Proof.
  pose proof (fixed_at_rotation_check m ins r) as E. unfold fixed_fields in E.
  congruence.
Qed.

(** What the landing block does when its test holds. *)
Lemma landing_fires m r :
  Qgeb (Qabs (primary_rotation m r)) (full_rotation r) = true ->
  angular_velocity (landing_phase m r) = Vector3.mk 0 0 0
  /\ translational_velocity (landing_phase m r) = Vector3.mk 0 0 0
  /\ primary_rotation m (landing_phase m r) = 0.
Proof.
  intros Ht.
  destruct m; cbn [landing_phase primary_rotation] in *; unfold_blocks;
    rewrite Ht; repeat split.
Qed.

Lemma fresh_integrate m ins r : box_fresh (integrate_phase m ins r).
Proof. destruct m; reflexivity. Qed.

Lemma fresh_piston m r : box_fresh r -> box_fresh (piston_phase m r).
Proof. intros Hf. block_cases m; solve [reflexivity | exact Hf]. Qed.

Lemma fresh_tipping m r : box_fresh r -> box_fresh (tipping_phase m r).
Proof. intros Hf. block_cases m; solve [reflexivity | exact Hf]. Qed.

Lemma fresh_landing m r : box_fresh r -> box_fresh (landing_phase m r).
Proof. intros Hf. block_cases m; solve [reflexivity | exact Hf]. Qed.

Lemma fresh_move m ins r : box_fresh (move m ins r).
Proof.
  rewrite move_blocks. cbv zeta.
  pose proof (fresh_landing m _ (fresh_tipping m _ (fresh_piston m _
                (fresh_integrate m ins r)))) as Hf.
  exact Hf.
Qed.
End Blocks.

(** ** Landing *)

Lemma primary_rotation_set_position_in_world m v r :
  primary_rotation m (set_position_in_world v r) = primary_rotation m r.
Proof. destruct m; reflexivity. Qed.

(** C2.  For each of the four movement functions: when the rotation about
    the primary axis has magnitude at least [full_rotation] (90 degrees) at
    the rotation check of a call, the call ends with zero angular velocity,
    zero translational velocity and the primary rotation equal to 0. *)
Theorem landing_resets_velocities_and_rotation `{Host}
    (m : movement_fn) (ins : inputs) (r : cube_robot) :
  full_rotation r <= Qabs (primary_rotation m (at_rotation_check m ins r)) ->
  angular_velocity (move m ins r) = Vector3.mk 0 0 0
  /\ translational_velocity (move m ins r) = Vector3.mk 0 0 0
  /\ primary_rotation m (move m ins r) = 0.
Proof.
  intros Hge.
  rewrite <- (full_rotation_at_rotation_check m ins r) in Hge.
  apply Qgeb_true in Hge.
  destruct (landing_fires m _ Hge) as (Hav & Htv & Hrot).
  rewrite move_blocks. cbv zeta.
  rewrite primary_rotation_set_position_in_world.
  repeat split; assumption.
Qed.

Lemma landing_resets_velocities_and_rotation_witness :
  full_rotation robot_about_to_land
  <= Qabs (primary_rotation Away
             (at_rotation_check Away sliders_50_50 robot_about_to_land))
  /\ angular_velocity (move Away sliders_50_50 robot_about_to_land)
     = Vector3.mk 0 0 0
  /\ translational_velocity (move Away sliders_50_50 robot_about_to_land)
     = Vector3.mk 0 0 0
  /\ primary_rotation Away (move Away sliders_50_50 robot_about_to_land) = 0.
Proof.
  assert (Hge : full_rotation robot_about_to_land
                <= Qabs (primary_rotation Away
                           (at_rotation_check Away sliders_50_50
                              robot_about_to_land))).
  { apply Qle_bool_iff. vm_compute. reflexivity. }
  split; [exact Hge|].
  exact (@landing_resets_velocities_and_rotation model_host Away sliders_50_50
           robot_about_to_land Hge).
Defined.

(** ** The physics step *)

(** C10.  The velocities and accelerations produced by
    [_calculate_physics] do not depend on the pose: replacing the position
    and the rotation of the cube by any other, and the random number by any
    other, with the same sliders and the same stored velocities, gives the
    same angular and translational velocity; [torque_grav], the only value
    computed from the tilt, enters none of them. *)
Theorem physics_velocities_independent_of_pose `{Host}
    (ins : inputs) (r : cube_robot) (p e : Vector3.t) (u : Q) :
  let r' := set_cube (Mesh.set_rotation e (Mesh.set_position p (cube r))) r in
  let ins' := {| Math_random := u; piston_output := piston_output ins;
                 mass_slider := mass_slider ins |} in
  angular_velocity (_calculate_physics ins' r')
  = angular_velocity (_calculate_physics ins r)
  /\ translational_velocity (_calculate_physics ins' r')
     = translational_velocity (_calculate_physics ins r)
  /\ angular_acceleration (_calculate_physics ins' r')
     = angular_acceleration (_calculate_physics ins r)
  /\ translational_acceleration (_calculate_physics ins' r')
     = translational_acceleration (_calculate_physics ins r).
Proof. repeat split. Qed.

(** The gravity torque itself does follow the tilt. *)
Example torque_grav_follows_tilt :
  ~ Vector3.y (torque_grav (_calculate_physics sliders_50_50 robot_tipping_away))
    == Vector3.y (torque_grav (_calculate_physics sliders_50_50 fresh_robot)).
Proof. vm_compute. discriminate. Qed.

(** ** The tipping block *)

Section Tipping.
Context `{Host}.

(** The rotation step of the tipping block of each movement function, when
    its test holds: [move_away] and [move_closer] use the y component of the
    angular velocity after gravity was added to it; [move_left] and
    [move_right] use the x component. *)
Lemma move_away_tipping_rotation r :
  Qgeb (Qabs (cube_rotation_x r)) (tipping_point_angle r) = true ->
  cube_rotation_x (move_away_tipping r)
  = cube_rotation_x r
    - (Vector3.y (angular_velocity r) + Vector3.y (gravity r) * time_step r) * time_step r.
Proof. intros Ht. unfold move_away_tipping. now rewrite Ht. Qed.

Lemma move_closer_tipping_rotation r :
  Qgeb (Qabs (cube_rotation_x r)) (tipping_point_angle r) = true ->
  cube_rotation_x (move_closer_tipping r)
  = cube_rotation_x r
    + (Vector3.y (angular_velocity r) + Vector3.y (gravity r) * time_step r) * time_step r.
Proof. intros Ht. unfold move_closer_tipping. now rewrite Ht. Qed.

Lemma move_left_tipping_rotation r :
  Qgeb (Qabs (cube_rotation_z r)) (tipping_point_angle r) = true ->
  cube_rotation_z (move_left_tipping r)
  = cube_rotation_z r
    + (Vector3.x (angular_velocity r) + Vector3.x (gravity r) * time_step r) * time_step r.
Proof. intros Ht. unfold move_left_tipping. now rewrite Ht. Qed.

Lemma move_right_tipping_rotation r :
  Qgeb (Qabs (cube_rotation_z r)) (tipping_point_angle r) = true ->
  cube_rotation_z (move_right_tipping r)
  = cube_rotation_z r
    - (Vector3.x (angular_velocity r) + Vector3.x (gravity r) * time_step r) * time_step r.
Proof. intros Ht. unfold move_right_tipping. now rewrite Ht. Qed.

(** Gravity as the constructor sets it has no x component. *)
Lemma gravity_new_cube_robot x y z :
  gravity (new_cube_robot x y z) = Vector3.mk 0 (GRAVITY_ACCELERATION * 10) 0.
Proof. reflexivity. Qed.
End Tipping.

(** C4.  At [robot_tipping_left] the tipping block of [move_left] runs, adds
    gravity to the y component of the angular velocity and then rotates the
    cube by the x component, which gravity left as it was: the rotation grows
    by [3 * (1/360)] as in the first block, not by the gravity-augmented
    component.  At [robot_tipping_away] the tipping block of [move_away]
    rotates by the y component, the one gravity was added to. *)
Theorem move_left_tipping_ignores_gravity :
  let before := at_tipping_check Left sliders_0_50 robot_tipping_left in
  let after := tipping_phase Left before in
  let before' := at_tipping_check Away sliders_0_50 robot_tipping_away in
  let after' := tipping_phase Away before' in
  Qgeb (Qabs (cube_rotation_z before)) (tipping_point_angle before) = true
  /\ Vector3.y (angular_velocity after)
     == Vector3.y (angular_velocity before) + 98 * (1 / 360)
  /\ Vector3.x (angular_velocity after) == Vector3.x (angular_velocity before)
  /\ cube_rotation_z after - cube_rotation_z before == 3 * (1 / 360)
  /\ ~ cube_rotation_z after - cube_rotation_z before
       == Vector3.y (angular_velocity after) * (1 / 360)
  /\ cube_rotation_x before' - cube_rotation_x after'
     == Vector3.y (angular_velocity after') * (1 / 360).
Proof. vm_compute. repeat split; discriminate. Qed.

(** ** Bounding boxes *)

Lemma minus_half_le_plus_half (p s : Q) : 0 <= s -> p - s / 2 <= p + s / 2.
Proof.
  intros Hs.
  assert (E : s / 2 == s * (1 # 2)) by field.
  rewrite E. lra.
Qed.

Lemma custom_box_after_update (r : cube_robot) :
  custom_bounding_box (update_custom_bounding_box r)
  = Box3.mk (Vector3.sub (Mesh.position (cube r))
                         (Vector3.divideScalar (robot_size r) 2))
            (Vector3.add (Mesh.position (cube r))
                         (Vector3.divideScalar (robot_size r) 2)).
Proof. reflexivity. Qed.

(** C9.  Every movement call ends with [bounding_box] recomputed by the
    library from the final cube and piston.  With the library box of the
    specification (position plus and minus the half-extent 1 of the cube),
    every movement call therefore ends with [bounding_box] equal to the final
    position plus and minus (1, 1, 1), so
    with [min <= max] on every axis, and [update_bounding_box] gives the same
    box whatever the rotation.  [update_custom_bounding_box] sets
    [custom_bounding_box] to the position plus and minus half of
    [robot_size], whatever the rotation, with [min <= max] when [robot_size]
    is not negative. *)
Theorem bounding_box_is_position_plus_minus_half_extents
    (m : movement_fn) (ins : inputs) (r : cube_robot) (e : Vector3.t) :
  let half := Vector3.mk 1 1 1 in
  let r' := move m ins r in
  let turned := set_cube (Mesh.set_rotation e (cube r)) r in
  (forall host : Host, @box_fresh host (@move host m ins r))
  /\ (bounding_box r'
   = Box3.mk (Vector3.sub (Mesh.position (cube r')) half)
             (Vector3.add (Mesh.position (cube r')) half)
   /\ Vector3.le (Box3.min (bounding_box r')) (Box3.max (bounding_box r')))
  /\ (bounding_box (update_bounding_box r)
      = Box3.mk (Vector3.sub (Mesh.position (cube r)) half)
                (Vector3.add (Mesh.position (cube r)) half)
      /\ bounding_box (update_bounding_box turned) = bounding_box (update_bounding_box r))
  /\ (custom_bounding_box (update_custom_bounding_box r)
      = Box3.mk (Vector3.sub (Mesh.position (cube r))
                             (Vector3.divideScalar (robot_size r) 2))
                (Vector3.add (Mesh.position (cube r))
                             (Vector3.divideScalar (robot_size r) 2))
      /\ custom_bounding_box (update_custom_bounding_box turned)
         = custom_bounding_box (update_custom_bounding_box r)
      /\ (Vector3.le Vector3.zero (robot_size r) ->
          Vector3.le (Box3.min (custom_bounding_box (update_custom_bounding_box r)))
                     (Box3.max (custom_bounding_box (update_custom_bounding_box r))))).
Proof.
  intros half r' turned.
  assert (Hbox : bounding_box r'
                 = Box3.mk (Vector3.sub (Mesh.position (cube r')) half)
                           (Vector3.add (Mesh.position (cube r')) half)).
  { exact (@fresh_move model_host m ins r). }
  split; [intros host; apply fresh_move|].
  split; [split; [exact Hbox|]|split; [split; reflexivity|]].
  - rewrite Hbox. unfold Vector3.le, half. cbn. repeat split; lra.
  - split; [reflexivity|split; [reflexivity|]].
    intros (Hx & Hy & Hz). rewrite custom_box_after_update.
    unfold Vector3.le in *. cbn in *.
    repeat split; apply minus_half_le_plus_half; assumption.
Qed.

Lemma bounding_box_is_position_plus_minus_half_extents_witness :
  Vector3.le Vector3.zero (robot_size fresh_robot)
  /\ bounding_box (move Away sliders_50_50 fresh_robot)
     = Box3.mk (Vector3.sub (Mesh.position (cube (move Away sliders_50_50 fresh_robot)))
                            (Vector3.mk 1 1 1))
               (Vector3.add (Mesh.position (cube (move Away sliders_50_50 fresh_robot)))
                            (Vector3.mk 1 1 1))
  /\ Vector3.le (Box3.min (custom_bounding_box (update_custom_bounding_box fresh_robot)))
                (Box3.max (custom_bounding_box (update_custom_bounding_box fresh_robot))).
Proof.
  assert (Hsize : Vector3.le Vector3.zero (robot_size fresh_robot)).
  { repeat split; apply Qle_bool_iff; reflexivity. }
  pose proof (bounding_box_is_position_plus_minus_half_extents
                Away sliders_50_50 fresh_robot Vector3.zero) as Hbox.
  cbv zeta in Hbox.
  destruct Hbox as (_ & (Hmove & _) & _ & (_ & _ & Hcustom)).
  split; [exact Hsize|]. split; [exact Hmove|exact (Hcustom Hsize)].
Defined.

(** ** The first frame of a robot at rest *)

Lemma tipping_angle_bounds : 78 # 100 < degToRad 45 /\ degToRad 45 < 79 # 100.
Proof. split; reflexivity. Qed.

Lemma full_angle_bounds : 157 # 100 < degToRad 90 /\ degToRad 90 < 158 # 100.
Proof. split; reflexivity. Qed.

Section FirstFrame.
Context `{Host}.

(** The piston block moves the piston only. *)
Lemma piston_keeps_motion m r :
  angular_velocity (piston_phase m r) = angular_velocity r
  /\ translational_velocity (piston_phase m r) = translational_velocity r
  /\ cube (piston_phase m r) = cube r.
Proof. block_cases m; repeat split. Qed.

Lemma tipping_skipped m r :
  Qgeb (Qabs (primary_rotation m r)) (tipping_point_angle r) = false ->
  tipping_phase m r = r.
Proof.
  intros Ht.
  destruct m; cbn [tipping_phase primary_rotation] in *; unfold_blocks;
    rewrite Ht; reflexivity.
Qed.

Lemma landing_skipped m r :
  Qgeb (Qabs (primary_rotation m r)) (full_rotation r) = false ->
  landing_phase m r = r.
Proof.
  intros Ht.
  destruct m; cbn [landing_phase primary_rotation] in *; unfold_blocks;
    rewrite Ht; reflexivity.
Qed.

Lemma primary_rotation_cube m r s :
  cube r = cube s -> primary_rotation m r = primary_rotation m s.
Proof.
  intros E. destruct m; unfold primary_rotation, cube_rotation_x, cube_rotation_z;
    now rewrite E.
Qed.

(** A movement call in which the rotation stays below the tipping angle
    leaves the velocities as the physics step computed them. *)
Lemma move_below_tipping m ins r :
  Qabs (primary_rotation m (integrate_phase m ins r)) < tipping_point_angle r ->
  tipping_point_angle r <= full_rotation r ->
  angular_velocity (move m ins r) = angular_velocity (_calculate_physics ins r)
  /\ translational_velocity (move m ins r)
     = translational_velocity (_calculate_physics ins r).
Proof.
  intros Hlt Hle.
  pose proof (fixed_integrate m ins r) as Ei.
  pose proof (fixed_piston m (integrate_phase m ins r)) as Ep.
  destruct (piston_keeps_motion m (integrate_phase m ins r)) as (Eav & Etv & Ecube).
  set (s := piston_phase m (integrate_phase m ins r)) in *.
  assert (Hrot : primary_rotation m s = primary_rotation m (integrate_phase m ins r))
    by (apply primary_rotation_cube; exact Ecube).
  assert (Etip : tipping_point_angle s = tipping_point_angle r)
    by (unfold fixed_fields in *; congruence).
  assert (Efull : full_rotation s = full_rotation r)
    by (unfold fixed_fields in *; congruence).
  assert (Ht : tipping_phase m s = s).
  { apply tipping_skipped. apply Qgeb_false. rewrite Hrot, Etip. exact Hlt. }
  assert (Hl : landing_phase m s = s).
  { apply landing_skipped. apply Qgeb_false. rewrite Hrot, Efull.
    eapply Qlt_le_trans; eassumption. }
  rewrite move_blocks. unfold at_rotation_check, at_tipping_check. cbv zeta.
  fold s. rewrite Ht, Hl.
  change (angular_velocity s = angular_velocity (_calculate_physics ins r)
          /\ translational_velocity s
             = translational_velocity (_calculate_physics ins r)).
  rewrite Eav, Etv. destruct m; split; reflexivity.
Qed.
End FirstFrame.

Section PhysicsStep.
Context `{Host}.
(** The velocities stored by the physics step. *)
Lemma physics_velocities ins r :
    angular_velocity (_calculate_physics ins r)
    = Vector3.add (angular_velocity r)
        (Vector3.multiplyScalar
           (Vector3.divideScalar
              (Vector3.mk
                 (piston_output ins / 100 * axis_rotation_distance r * Math_sin (angle r)) 0
                 (piston_output ins / 100 * axis_rotation_distance r * Math_sin (angle r)))
              ((1 / 6) * (mass_slider ins / 1000)
               * ((Vector3.x (robot_size r) / 100) * (Vector3.x (robot_size r) / 100))))
           (time_step r))
    /\ translational_velocity (_calculate_physics ins r)
       = Vector3.add (translational_velocity r)
           (Vector3.multiplyScalar
              (Vector3.divideScalar
                 (Vector3.mk (piston_output ins / 100 * Math_cos (angle r)) 0
                             (piston_output ins / 100 * Math_cos (angle r)))
                 (mass_slider ins / 1000))
              (time_step r)).
Proof. split; reflexivity. Qed.

Lemma rotation_after_move_away_integrate ins r :
  cube_rotation_x (move_away_integrate ins r)
  = cube_rotation_x r
    - Vector3.z (angular_velocity (_calculate_physics ins r)) * time_step r.
Proof. reflexivity. Qed.

(** A robot is at rest, with the constants of the constructor, when it has
    just been constructed (the library box of the cube having an edge of 2
    along x), and it is at rest again after a landing of [move_away] or
    [move_closer]. *)
Lemma new_cube_robot_at_rest x y z : at_rest (new_cube_robot x y z).
Proof. repeat split. Qed.

Lemma new_cube_robot_constants x y z :
  Vector3.x (robot_size (new_cube_robot x y z)) == 2 ->
  constructed_constants (new_cube_robot x y z).
Proof. intros Hsize. repeat split. exact Hsize. Qed.

Lemma landed_robot_at_rest m ins r :
  m = Away \/ m = Closer ->
  full_rotation r <= Qabs (primary_rotation m (at_rotation_check m ins r)) ->
  at_rest (move m ins r).
Proof.
  intros Hm Hge.
  rewrite <- (full_rotation_at_rotation_check m ins r) in Hge.
  apply Qgeb_true in Hge.
  destruct (landing_fires m _ Hge) as (Hav & Htv & Hrot).
  rewrite move_blocks. cbv zeta.
  revert Hav Htv Hrot.
  generalize (landing_phase m (at_rotation_check m ins r)) as s.
  intros s Hav Htv Hrot.
  destruct Hm as [-> | ->]; repeat split; assumption.
Qed.
End PhysicsStep.

(** C3.  One call of [move_away] on a robot at rest (zero velocities, zero
    tilt) with the constants of the constructor, the sliders giving mass 0.05
    and piston force 0.5, and dt = 1/360, leaves the stored velocities equal
    to acceleration times dt, with angular acceleration
    (pistonForce * momentArm * sin 45) / ((1/6) * mass * (edgeLength/100)^2)
    on x and z and translational acceleration (pistonForce * cos 45) / mass
    on x and z, given that the sine is between -1 and 1. *)
Theorem move_away_first_frame_velocities `{Host} (r : cube_robot) (u : Q) :
  let ins := {| Math_random := u; piston_output := 50; mass_slider := 50 |} in
  let pistonForce := 1 # 2 in
  let mass := 5 # 100 in
  let dt := 1 / 360 in
  let momentArm := axis_rotation_distance r in
  let edgeLength := Vector3.x (robot_size r) in
  let sin45 := Math_sin (degToRad 45) in
  let cos45 := Math_cos (degToRad 45) in
  let angular :=
    (pistonForce * momentArm * sin45)
    / ((1 / 6) * mass * ((edgeLength / 100) * (edgeLength / 100))) in
  let translational := (pistonForce * cos45) / mass in
  at_rest r -> constructed_constants r -> -1 <= sin45 <= 1 ->
  Vector3.equiv (angular_velocity (move_away ins r))
                (Vector3.multiplyScalar (Vector3.mk angular 0 angular) dt)
  /\ Vector3.equiv (translational_velocity (move_away ins r))
                   (Vector3.multiplyScalar (Vector3.mk translational 0 translational) dt).
Proof.
  intros ins pistonForce mass dt momentArm edgeLength sin45 cos45 angular translational
         (Hav & Htv & Hrot) (Hdt & Htip & Hfull & Hangle & Hsize & Harm) Hsin.
  destruct (physics_velocities ins r) as (Eav & Etv).
  destruct (move_below_tipping Away ins r) as (Mav & Mtv).
  - cbn [integrate_phase primary_rotation].
    rewrite rotation_after_move_away_integrate, Eav, Hrot, Hav, Hdt, Htip, Hangle, Harm.
    cbn [Vector3.add Vector3.multiplyScalar Vector3.divideScalar Vector3.x Vector3.y Vector3.z Vector3.zero piston_output mass_slider ins].
    fold sin45. rewrite Hsize.
    assert (E : 0 - (0 + 50 / 100 * (2 / 2 / 100) * sin45
                         / (1 / 6 * (50 / 1000) * (2 / 100 * (2 / 100))) * (1 / 360))
                    * (1 / 360) == - (5 # 432) * sin45) by field.
    rewrite E. pose proof tipping_angle_bounds.
    apply Qabs_Qlt_condition. split; lra.
  - rewrite Htip, Hfull. pose proof tipping_angle_bounds. pose proof full_angle_bounds. lra.
  - cbn [move] in Mav, Mtv. rewrite Mav, Mtv, Eav, Etv, Hav, Htv, Hdt, Hangle.
    unfold Vector3.equiv, angular, translational, pistonForce, mass, dt, momentArm, edgeLength, sin45, cos45.
    cbn [Vector3.add Vector3.multiplyScalar Vector3.divideScalar Vector3.x Vector3.y Vector3.z Vector3.zero piston_output mass_slider ins].
    rewrite Hsize.
    repeat split; field.
Qed.

Lemma move_away_first_frame_velocities_witness :
  (at_rest fresh_robot /\ constructed_constants fresh_robot
   /\ -1 <= Math_sin (degToRad 45) <= 1)
  /\ Vector3.equiv (angular_velocity (move_away sliders_50_50 fresh_robot))
       (Vector3.multiplyScalar
          (Vector3.mk
             (((1 # 2) * axis_rotation_distance fresh_robot * Math_sin (degToRad 45))
              / ((1 / 6) * (5 # 100)
                 * ((Vector3.x (robot_size fresh_robot) / 100)
                    * (Vector3.x (robot_size fresh_robot) / 100))))
             0
             (((1 # 2) * axis_rotation_distance fresh_robot * Math_sin (degToRad 45))
              / ((1 / 6) * (5 # 100)
                 * ((Vector3.x (robot_size fresh_robot) / 100)
                    * (Vector3.x (robot_size fresh_robot) / 100)))))
          (1 / 360))
  /\ Vector3.equiv (translational_velocity (move_away sliders_50_50 fresh_robot))
       (Vector3.multiplyScalar
          (Vector3.mk (((1 # 2) * Math_cos (degToRad 45)) / (5 # 100)) 0
                      (((1 # 2) * Math_cos (degToRad 45)) / (5 # 100)))
          (1 / 360)).
Proof.
  assert (Hrest : at_rest fresh_robot) by (repeat split).
  assert (Hconst : constructed_constants fresh_robot) by (repeat split).
  assert (Hsin : -1 <= Math_sin (degToRad 45) <= 1)
    by (split; apply Qle_bool_iff; vm_compute; reflexivity).
  split; [repeat split; solve [apply Hrest | apply Hconst | apply Hsin]|].
  exact (@move_away_first_frame_velocities model_host fresh_robot (1 # 2)
           Hrest Hconst Hsin).
Defined.

(** ** The collision pass *)

(** Case analysis on the value of [index] down to the four numerals. *)
Ltac index_cases r :=
  let E := fresh "E" in
  destruct (index r) as [[|p|p]|] eqn:E;
  [ | do 3 (try destruct p as [p|p|]) | | ];
  cbn; rewrite ?E; try reflexivity.

Lemma index_update_robot_index r : index (update_robot_index r) = flip_index (index r).
Proof. unfold update_robot_index, flip_index. index_cases r. Qed.

Lemma index_update_piston r : index (update_piston r) = index r.
Proof. unfold update_piston. index_cases r. Qed.

Lemma index_respond r : index (respond r) = flip_index (index r).
Proof. unfold respond. now rewrite index_update_piston, index_update_robot_index. Qed.

Lemma kinematics_update_robot_index r : kinematics (update_robot_index r) = kinematics r.
Proof. unfold update_robot_index. index_cases r. Qed.

Lemma kinematics_update_piston r : kinematics (update_piston r) = kinematics r.
Proof. unfold update_piston. index_cases r. Qed.

Lemma kinematics_respond r : kinematics (respond r) = kinematics r.
Proof.
  unfold respond. now rewrite kinematics_update_piston, kinematics_update_robot_index.
Qed.

Lemma kinematics_iter_respond n r : kinematics (Nat.iter n respond r) = kinematics r.
Proof.
  induction n as [|n IH]; [reflexivity|].
  rewrite Nat.iter_succ. now rewrite kinematics_respond.
Qed.

Lemma index_iter_respond n r :
  index (Nat.iter n respond r) = Nat.iter n flip_index (index r).
Proof.
  induction n as [|n IH]; [reflexivity|].
  rewrite !Nat.iter_succ. now rewrite index_respond, IH.
Qed.

Lemma flip_index_involutive i : flip_index (flip_index i) = i.
Proof.
  destruct i as [[|p|p]|]; try reflexivity;
    do 3 (try destruct p as [p|p|]); reflexivity.
Qed.

(** An even number of flips cancels out; an odd number is one flip. *)
Lemma iter_flip_index_parity n i :
  Nat.iter n flip_index i = if Nat.even n then i else flip_index i.
Proof.
  induction n as [|n IH]; [reflexivity|].
  rewrite Nat.iter_succ, IH, Nat.even_succ, <- Nat.negb_even.
  destruct (Nat.even n); cbn [negb]; [reflexivity|apply flip_index_involutive].
Qed.

Lemma valid_index_flip r : valid_index r -> valid_index (respond r).
Proof.
  unfold valid_index. rewrite index_respond.
  intros [E|[E|[E|E]]]; rewrite E; cbn; auto.
Qed.

Lemma outside_interval (a : Q) : Qltb a (- 20) || Qgtb a 20 = true <-> 20 < Qabs a.
Proof.
  rewrite orb_true_iff, Qltb_true, Qgtb_true.
  split.
  - intros [Hlo|Hhi].
    + apply Qnot_le_lt. intros Hle. apply Qabs_Qle_condition in Hle. lra.
    + apply Qnot_le_lt. intros Hle. apply Qabs_Qle_condition in Hle. lra.
  - intros Habs.
    destruct (Qlt_le_dec a (- 20)) as [Hlo|Hlo]; [now left|].
    destruct (Qlt_le_dec 20 a) as [Hhi|Hhi]; [now right|].
    exfalso. apply (Qlt_not_le _ _ Habs). apply Qabs_Qle_condition. split; assumption.
Qed.

(** The boundary test of the pass: the world position is further than 20
    from the origin along x or along z. *)
Lemma out_of_bounds_iff (r : cube_robot) : out_of_bounds r = true <-> outside_boundary r.
Proof.
  unfold out_of_bounds, outside_boundary. rewrite <- !outside_interval, <- orb_assoc.
  rewrite orb_true_iff. reflexivity.
Qed.

Lemma in_bounds_iff (r : cube_robot) : out_of_bounds r = false <-> inside_boundary r.
Proof.
  rewrite <- not_true_iff_false, out_of_bounds_iff.
  unfold outside_boundary, inside_boundary. split.
  - intros Hn. split; apply Qnot_lt_le; intros Hlt; apply Hn; auto.
  - intros (Hx & Hz) [Hlt|Hlt]; [apply (Qlt_not_le _ _ Hlt Hx)|apply (Qlt_not_le _ _ Hlt Hz)].
Qed.

Section CollisionPass.
Context `{Host}.

Lemma iter_respond_fmap (a b : nat) (o : option cube_robot) :
  Nat.iter a respond <$> (Nat.iter b respond <$> o) = Nat.iter (b + a) respond <$> o.
Proof.
  destruct o as [r|]; [|reflexivity]. cbn.
  now rewrite Nat.add_comm, Nat.iter_add.
Qed.

Lemma boundary_response_alter i (l : list cube_robot) :
  alter update_piston i (alter update_robot_index i l) = alter respond i l.
Proof. apply list_alter_alter_eq. Qed.

Lemma pair_response_alter i j (l : list cube_robot) :
  i <> j ->
  alter update_piston j (alter update_piston i
    (alter update_robot_index j (alter update_robot_index i l)))
  = alter respond j (alter respond i l).
Proof.
  intros Hij.
  rewrite (list_alter_alter_ne update_piston update_robot_index _ i j) by exact Hij.
  now rewrite !boundary_response_alter.
Qed.

Lemma boundary_step_lookup i (l : list cube_robot) k :
  boundary_step i l !! k
  = Nat.iter (if (k =? i)%nat && out_of_bounds_at l i then 1 else 0) respond <$> l !! k.
Proof.
  unfold boundary_step, out_of_bounds_at.
  destruct (l !! i) as [a|] eqn:Ei.
  - destruct (out_of_bounds a).
    + rewrite boundary_response_alter, list_lookup_alter.
      destruct (decide (i = k)) as [Heq|Hne].
      * subst k. rewrite Nat.eqb_refl, Ei. reflexivity.
      * assert (E : (k =? i)%nat = false) by (apply Nat.eqb_neq; congruence).
        rewrite E. now destruct (l !! k).
    + rewrite andb_false_r. now destruct (l !! k).
  - rewrite andb_false_r. now destruct (l !! k).
Qed.

Lemma pair_step_lookup i j (l : list cube_robot) k :
  i <> j ->
  pair_step i j l !! k
  = Nat.iter (if ((k =? i)%nat || (k =? j)%nat) && intersects_at l i j then 1 else 0)
             respond <$> l !! k.
Proof.
  intros Hij. unfold pair_step, intersects_at.
  destruct (l !! i) as [a|] eqn:Ei; [destruct (l !! j) as [b|] eqn:Ej|].
  - destruct (Box3_intersectsBox _ _).
    + rewrite pair_response_alter by exact Hij.
      rewrite list_lookup_alter.
      destruct (decide (j = k)) as [Hj|Hj];
        [|rewrite list_lookup_alter; destruct (decide (i = k)) as [Hi|Hi]].
      * subst k. rewrite Nat.eqb_refl, orb_true_r.
        rewrite list_lookup_alter_ne by exact Hij. rewrite Ej. reflexivity.
      * subst k. rewrite Nat.eqb_refl, Ei. reflexivity.
      * assert (E1 : (k =? i)%nat = false) by (apply Nat.eqb_neq; congruence).
        assert (E2 : (k =? j)%nat = false) by (apply Nat.eqb_neq; congruence).
        rewrite E1, E2. now destruct (l !! k).
    + rewrite andb_false_r. now destruct (l !! k).
  - rewrite andb_false_r. now destruct (l !! k).
  - rewrite andb_false_r. now destruct (l !! k).
Qed.

(** Two arrays with the same kinematics answer every test alike. *)
Lemma intersects_at_kinematics (l l' : list cube_robot) i j :
  kinematics <$> l = kinematics <$> l' -> intersects_at l i j = intersects_at l' i j.
Proof.
  intros E. unfold intersects_at.
  assert (Hk : forall k, kinematics <$> (l !! k) = kinematics <$> (l' !! k)).
  { intros k. rewrite <- !list_lookup_fmap. now rewrite E. }
  pose proof (Hk i) as Hi. pose proof (Hk j) as Hj.
  destruct (l !! i) as [a|], (l' !! i) as [a'|]; try discriminate; try reflexivity;
    destruct (l !! j) as [b|], (l' !! j) as [b'|]; try discriminate; try reflexivity.
  cbn in Hi, Hj. unfold kinematics in Hi, Hj. congruence.
Qed.

Lemma out_of_bounds_at_kinematics (l l' : list cube_robot) i :
  kinematics <$> l = kinematics <$> l' -> out_of_bounds_at l i = out_of_bounds_at l' i.
Proof.
  intros E. unfold out_of_bounds_at.
  assert (Hi : kinematics <$> (l !! i) = kinematics <$> (l' !! i)).
  { rewrite <- !list_lookup_fmap. now rewrite E. }
  destruct (l !! i) as [a|], (l' !! i) as [a'|]; try discriminate; try reflexivity.
  cbn in Hi. unfold kinematics in Hi. unfold out_of_bounds. 
  assert (position_in_world a = position_in_world a') by congruence. congruence.
Qed.

Lemma kinematics_alter_respond i (l : list cube_robot) :
  kinematics <$> alter respond i l = kinematics <$> l.
Proof.
  apply list_eq. intros k. rewrite !list_lookup_fmap, list_lookup_alter.
  destruct (decide (i = k)) as [->|]; [|reflexivity].
  destruct (l !! k); [|reflexivity]. cbn. now rewrite kinematics_respond.
Qed.

Lemma kinematics_boundary_step i (l : list cube_robot) :
  kinematics <$> boundary_step i l = kinematics <$> l.
Proof.
  unfold boundary_step. destruct (l !! i); [|reflexivity].
  destruct (out_of_bounds _); [|reflexivity].
  rewrite boundary_response_alter. apply kinematics_alter_respond.
Qed.

Lemma kinematics_pair_step i j (l : list cube_robot) :
  i <> j -> kinematics <$> pair_step i j l = kinematics <$> l.
Proof.
  intros Hij. unfold pair_step.
  destruct (l !! i); [|reflexivity]. destruct (l !! j); [|reflexivity].
  destruct (Box3_intersectsBox _ _); [|reflexivity].
  rewrite pair_response_alter by exact Hij.
  now rewrite !kinematics_alter_respond.
Qed.

Lemma count_true_ext {A} (p q : A -> bool) (l : list A) :
  (forall a, a ∈ l -> p a = q a) -> count_true p l = count_true q l.
Proof.
  induction l as [|a l IH]; intros Hpq; [reflexivity|].
  cbn [count_true]. rewrite (Hpq a) by left.
  rewrite IH; [reflexivity|]. intros b Hb. apply Hpq. now right.
Qed.

Lemma inner_loop_lookup i js (l : list cube_robot) k :
  i ∉ js ->
  foldl (fun acc j => pair_step i j acc) l js !! k
  = Nat.iter (count_true (fun j => ((k =? i)%nat || (k =? j)%nat) && intersects_at l i j)
                         js)
             respond <$> l !! k
  /\ kinematics <$> foldl (fun acc j => pair_step i j acc) l js = kinematics <$> l.
Proof.
  revert l. induction js as [|j js IH]; intros l Hi.
  - cbn. split; [now destruct (l !! k)|reflexivity].
  - assert (Hij : i <> j) by (intros ->; apply Hi; left).
    assert (Hi' : i ∉ js) by (intros Hin; apply Hi; now right).
    cbn [foldl count_true].
    destruct (IH (pair_step i j l) Hi') as (Hlook & Hkin).
    pose proof (kinematics_pair_step i j l Hij) as Hstep.
    split; [|now rewrite Hkin].
    rewrite Hlook, pair_step_lookup by exact Hij.
    rewrite iter_respond_fmap. f_equal. f_equal. f_equal.
    apply count_true_ext. intros j' _.
    now rewrite (intersects_at_kinematics _ _ i j' Hstep).
Qed.

Lemma outer_step_lookup i (l : list cube_robot) k :
  outer_step i l !! k = Nat.iter (responses_at l i k) respond <$> l !! k
  /\ kinematics <$> outer_step i l = kinematics <$> l.
Proof.
  unfold outer_step, responses_at.
  assert (Hi : i ∉ seq (S i) (length l - S i)).
  { rewrite elem_of_seq. lia. }
  destruct (inner_loop_lookup i _ (boundary_step i l) k Hi) as (Hlook & Hkin).
  pose proof (kinematics_boundary_step i l) as Hb.
  split; [|now rewrite Hkin].
  rewrite Hlook, boundary_step_lookup, iter_respond_fmap.
  f_equal. f_equal. f_equal.
  apply count_true_ext. intros j _.
  now rewrite (intersects_at_kinematics _ _ i j Hb).
Qed.

Lemma responses_at_kinematics (l l' : list cube_robot) i k :
  kinematics <$> l = kinematics <$> l' -> responses_at l i k = responses_at l' i k.
Proof.
  intros E. unfold responses_at.
  assert (Hlen : length l = length l').
  { rewrite <- (length_fmap kinematics l), E. apply length_fmap. }
  rewrite (out_of_bounds_at_kinematics _ _ i E), Hlen.
  f_equal. apply count_true_ext. intros j _.
  now rewrite (intersects_at_kinematics _ _ i j E).
Qed.

Lemma sum_list_with_ext {A} (f g : A -> nat) (l : list A) :
  (forall a, a ∈ l -> f a = g a) -> sum_list_with f l = sum_list_with g l.
Proof.
  induction l as [|a l IH]; intros Hfg; [reflexivity|].
  cbn [sum_list_with]. rewrite (Hfg a) by left.
  rewrite IH; [reflexivity|]. intros b Hb. apply Hfg. now right.
Qed.

Lemma outer_loop_lookup (idxs : list nat) (l : list cube_robot) k :
  foldl (fun acc i => outer_step i acc) l idxs !! k
  = Nat.iter (sum_list_with (fun i => responses_at l i k) idxs) respond <$> l !! k
  /\ kinematics <$> foldl (fun acc i => outer_step i acc) l idxs = kinematics <$> l.
Proof.
  revert l. induction idxs as [|i idxs IH]; intros l.
  - cbn. split; [now destruct (l !! k)|reflexivity].
  - cbn [foldl sum_list_with].
    destruct (IH (outer_step i l)) as (Hlook & Hkin).
    destruct (outer_step_lookup i l k) as (Hstep & Hskin).
    split; [|now rewrite Hkin].
    rewrite Hlook, Hstep, iter_respond_fmap.
    f_equal. f_equal. f_equal.
    apply sum_list_with_ext. intros i' _.
    now apply responses_at_kinematics.
Qed.

Lemma count_true_eqb_seq (k : nat) (p : nat -> bool) (a m : nat) :
  count_true (fun j => (k =? j)%nat && p j) (seq a m)
  = if (a <=? k)%nat && (k <? a + m)%nat then (if p k then 1 else 0)%nat else 0%nat.
Proof.
  revert a. induction m as [|m IH]; intros a.
  - cbn [seq count_true].
    destruct (a <=? k)%nat eqn:E1; [|reflexivity].
    destruct (k <? a + 0)%nat eqn:E2; [|reflexivity].
    apply Nat.leb_le in E1. apply Nat.ltb_lt in E2. lia.
  - cbn [seq count_true]. rewrite IH.
    destruct (Nat.eqb_spec k a) as [->|Hne].
    + assert (E1 : (S a <=? a)%nat = false) by (apply Nat.leb_gt; lia).
      assert (E2 : (a <=? a)%nat = true) by (apply Nat.leb_le; lia).
      assert (E3 : (a <? a + S m)%nat = true) by (apply Nat.ltb_lt; lia).
      rewrite E1, E2, E3. cbn. lia.
    + cbn [andb].
      destruct (Nat.leb_spec a k), (Nat.leb_spec (S a) k),
               (Nat.ltb_spec k (a + S m)), (Nat.ltb_spec k (S a + m));
        cbn; try reflexivity; lia.
Qed.

Lemma sum_list_with_indicator {A} (p : A -> bool) (l : list A) :
  sum_list_with (fun a => if p a then 1 else 0)%nat l = count_true p l.
Proof. induction l as [|a l IH]; [reflexivity|]. cbn. now rewrite IH. Qed.

Lemma sum_list_with_zero {A} (f : A -> nat) (l : list A) :
  (forall a, a ∈ l -> f a = 0%nat) -> sum_list_with f l = 0%nat.
Proof.
  induction l as [|a l IH]; intros Hf; [reflexivity|].
  cbn. rewrite (Hf a) by left. rewrite IH; [reflexivity|].
  intros b Hb. apply Hf. now right.
Qed.

(** The responses of the whole pass add up to the collision events of the
    robot. *)
Lemma responses_sum_events (l : list cube_robot) k :
  (k < length l)%nat ->
  sum_list_with (fun i => responses_at l i k) (seq 0 (length l)) = events l k.
Proof.
  intros Hk. unfold events.
  replace (length l) with (k + S (length l - S k))%nat at 1 by lia.
  rewrite seq_app. cbn [seq]. rewrite sum_list_with_app. cbn [sum_list_with].
  rewrite Nat.add_0_l.
  assert (Hbefore : sum_list_with (fun i => responses_at l i k) (seq 0 k)
                    = count_true (fun i => intersects_at l i k) (seq 0 k)).
  { rewrite <- sum_list_with_indicator. apply sum_list_with_ext.
    intros i Hi. apply elem_of_seq in Hi. unfold responses_at.
    assert (E : (k =? i)%nat = false) by (apply Nat.eqb_neq; lia).
    rewrite E. cbn [andb orb].
    rewrite (count_true_eqb_seq k (fun j => intersects_at l i j)).
    assert (E1 : (S i <=? k)%nat = true) by (apply Nat.leb_le; lia).
    assert (E2 : (k <? S i + (length l - S i))%nat = true) by (apply Nat.ltb_lt; lia).
    rewrite E1, E2. reflexivity. }
  assert (Hat : responses_at l k k
                = ((if out_of_bounds_at l k then 1 else 0)
                   + count_true (fun j => intersects_at l k j)
                                (seq (S k) (length l - S k)))%nat).
  { unfold responses_at. rewrite Nat.eqb_refl. reflexivity. }
  assert (Hafter : sum_list_with (fun i => responses_at l i k)
                                 (seq (S k) (length l - S k)) = 0%nat).
  { apply sum_list_with_zero. intros i Hi. apply elem_of_seq in Hi.
    unfold responses_at.
    assert (E : (k =? i)%nat = false) by (apply Nat.eqb_neq; lia).
    rewrite E. cbn [andb orb].
    rewrite (count_true_eqb_seq k (fun j => intersects_at l i j)).
    assert (E1 : (S i <=? k)%nat = false) by (apply Nat.leb_gt; lia).
    rewrite E1. reflexivity. }
  rewrite Hbefore, Hat, Hafter. lia.
Qed.

(** One pass applies [respond] to each robot once per collision event it
    takes part in. *)
Lemma collision_detection_lookup (l : list cube_robot) k :
  collision_detection l !! k = Nat.iter (events l k) respond <$> l !! k.
Proof.
  unfold collision_detection.
  destruct (outer_loop_lookup (seq 0 (length l)) l k) as (Hlook & _).
  rewrite Hlook.
  destruct (l !! k) as [r|] eqn:Ek; [|reflexivity].
  rewrite responses_sum_events; [reflexivity|].
  apply lookup_lt_Some in Ek. exact Ek.
Qed.

Lemma collision_detection_length (l : list cube_robot) :
  length (collision_detection l) = length l.
Proof.
  unfold collision_detection.
  destruct (outer_loop_lookup (seq 0 (length l)) l 0) as (_ & Hkin).
  rewrite <- (length_fmap kinematics), Hkin. apply length_fmap.
Qed.
End CollisionPass.

Lemma events_boundary_pairs `{Host} (l : list cube_robot) k :
  events l k
  = ((if out_of_bounds_at l k then 1 else 0) + intersecting_pairs l k)%nat.
Proof. unfold events, intersecting_pairs. lia. Qed.

(** C1, amended.  One pass of [collision_detection] flips the direction index
    of a robot by the pairing 1<->2, 3<->4 once for every collision event the
    robot takes part in (each intersecting pair it belongs to, and the
    boundary violation when it is outside the boundary): its index after the
    pass is its index flipped [events] times, that is flipped when the number
    of events is odd and unchanged when it is even.  For exactly two robots, both
    inside the boundary, whose boxes intersect, both indices are flipped once;
    with indices 1 and 3 they become 2 and 4. *)
Theorem collision_pass_flips_once_per_event `{Host} (robot_array : list cube_robot) :
  (forall k r, robot_array !! k = Some r ->
     index <$> (collision_detection robot_array !! k)
     = Some (Nat.iter (events robot_array k) flip_index (index r))
     /\ Nat.iter (events robot_array k) flip_index (index r)
        = if Nat.even (events robot_array k) then index r else flip_index (index r))
  /\ (forall a b, robot_array = [a; b] ->
        inside_boundary a -> inside_boundary b ->
        Box3_intersectsBox (bounding_box a) (bounding_box b) = true ->
        index <$> collision_detection robot_array
        = [flip_index (index a); flip_index (index b)]
        /\ (index a = Some 1%Z -> index b = Some 3%Z ->
            index <$> collision_detection robot_array = [Some 2%Z; Some 4%Z])).
Proof.
  assert (Hgen : forall l k r, l !! k = Some r ->
            index <$> (collision_detection l !! k)
            = Some (Nat.iter (events l k) flip_index (index r))).
  { intros l k r Hk. rewrite collision_detection_lookup, Hk. cbn.
    now rewrite index_iter_respond. }
  split; [intros k r Hk; split; [now apply Hgen|apply iter_flip_index_parity]|].
  intros a b -> Ha Hb Hab. apply in_bounds_iff in Ha, Hb.
  assert (Hflip : index <$> collision_detection [a; b]
                  = [flip_index (index a); flip_index (index b)]).
  { apply list_eq. intros k. rewrite list_lookup_fmap.
    destruct k as [|[|k]].
    - rewrite (Hgen [a; b] 0%nat a eq_refl).
      unfold events, out_of_bounds_at, intersects_at. cbn. now rewrite Ha, Hab.
    - rewrite (Hgen [a; b] 1%nat b eq_refl).
      unfold events, out_of_bounds_at, intersects_at. cbn. now rewrite Hb, Hab.
    - rewrite collision_detection_lookup. reflexivity. }
  split; [exact Hflip|].
  intros Ea Eb. rewrite Hflip, Ea, Eb. reflexivity.
Qed.

Lemma collision_pass_flips_once_per_event_witness :
  (inside_boundary (robot_at 0 0 1)
   /\ inside_boundary (robot_at (3 # 2) 1 3)
   /\ Box3_intersectsBox (bounding_box (robot_at 0 0 1))
                         (bounding_box (robot_at (3 # 2) 1 3)) = true)
  /\ index <$> (collision_detection three_in_contact !! 0%nat)
     = Some (Nat.iter (events three_in_contact 0) flip_index (Some 1%Z))
  /\ index <$> collision_detection two_in_contact = [Some 2%Z; Some 4%Z].
Proof.
  assert (Ha : inside_boundary (robot_at 0 0 1)) by (apply in_bounds_iff; reflexivity).
  assert (Hb : inside_boundary (robot_at (3 # 2) 1 3))
    by (apply in_bounds_iff; reflexivity).
  split; [repeat split; solve [apply Ha | apply Hb]|]. split.
  - exact (proj1 (proj1 (@collision_pass_flips_once_per_event model_host three_in_contact)
                        0%nat (robot_at 0 0 1) eq_refl)).
  - exact (proj2 (proj2 (@collision_pass_flips_once_per_event model_host two_in_contact)
                        (robot_at 0 0 1) (robot_at (3 # 2) 1 3) eq_refl
                        Ha Hb eq_refl)
                 eq_refl eq_refl).
Defined.

(** The claim as stated fails in two ways: a robot in contact with two
    others is flipped twice, so the pair it forms with each of them does not
    end with both indices flipped; and of two robots in contact with indices
    1 and 3, the one outside the boundary is flipped twice and keeps 1. *)
Lemma collision_pass_double_flip :
  (intersects_at three_in_contact 0 1 = true
   /\ intersects_at three_in_contact 0 2 = true
   /\ out_of_bounds_at three_in_contact 0 = false
   /\ index <$> three_in_contact = [Some 1%Z; Some 3%Z; Some 3%Z]
   /\ index <$> collision_detection three_in_contact = [Some 1%Z; Some 4%Z; Some 4%Z])
  /\ (intersects_at two_at_the_boundary 0 1 = true
      /\ out_of_bounds_at two_at_the_boundary 0 = true
      /\ index <$> two_at_the_boundary = [Some 1%Z; Some 3%Z]
      /\ index <$> collision_detection two_at_the_boundary = [Some 1%Z; Some 4%Z]).
Proof. vm_compute. repeat split. Qed.

(** C6, amended.  A robot whose world position is beyond 20 along x or z
    keeps the position and rotation of its cube, its velocities and its world
    position through one pass of [collision_detection]: nothing is clamped.
    It receives the response (index flip, then piston update) once for the
    boundary violation and once more for each intersecting pair it belongs
    to, so its index ends flipped when the number of those pairs is even;
    when it belongs to none, it ends the pass with its index flipped and its
    piston resynchronised. *)
Theorem boundary_response_leaves_position `{Host}
    (robot_array : list cube_robot) (k : nat) (r : cube_robot) :
  robot_array !! k = Some r ->
  outside_boundary r ->
  exists r',
    collision_detection robot_array !! k = Some r'
    /\ (Mesh.position (cube r') = Mesh.position (cube r)
        /\ Mesh.rotation (cube r') = Mesh.rotation (cube r)
        /\ angular_velocity r' = angular_velocity r
        /\ translational_velocity r' = translational_velocity r
        /\ position_in_world r' = position_in_world r)
    /\ r' = Nat.iter (S (intersecting_pairs robot_array k)) respond r
    /\ index r'
       = (if Nat.even (intersecting_pairs robot_array k)
          then flip_index (index r) else index r)
    /\ (intersecting_pairs robot_array k = 0%nat ->
        r' = update_piston (update_robot_index r)
        /\ index r' = flip_index (index r)).
Proof.
  intros Hk Hout. apply out_of_bounds_iff in Hout.
  exists (Nat.iter (S (intersecting_pairs robot_array k)) respond r).
  assert (Hev : events robot_array k = S (intersecting_pairs robot_array k)).
  { rewrite events_boundary_pairs. unfold out_of_bounds_at. now rewrite Hk, Hout. }
  split; [rewrite collision_detection_lookup, Hk, Hev; reflexivity|].
  pose proof (kinematics_iter_respond (S (intersecting_pairs robot_array k)) r) as Hkin.
  unfold kinematics in Hkin.
  split; [repeat split; congruence|].
  split; [reflexivity|].
  split.
  - rewrite index_iter_respond, iter_flip_index_parity, Nat.even_succ, <- Nat.negb_even.
    now destruct (Nat.even _).
  - intros Hnone. rewrite Hnone. cbn. split; [reflexivity|apply index_respond].
Qed.

Lemma boundary_response_leaves_position_witness :
  outside_boundary (robot_at (21 # 1) 0 4)
  /\ exists r',
       collision_detection alone_out_of_bounds !! 0%nat = Some r'
       /\ (Mesh.position (cube r') = Mesh.position (cube (robot_at (21 # 1) 0 4))
           /\ Mesh.rotation (cube r') = Mesh.rotation (cube (robot_at (21 # 1) 0 4))
           /\ angular_velocity r' = angular_velocity (robot_at (21 # 1) 0 4)
           /\ translational_velocity r' = translational_velocity (robot_at (21 # 1) 0 4)
           /\ position_in_world r' = position_in_world (robot_at (21 # 1) 0 4))
       /\ r' = Nat.iter (S (intersecting_pairs alone_out_of_bounds 0)) respond
                        (robot_at (21 # 1) 0 4)
       /\ index r'
          = (if Nat.even (intersecting_pairs alone_out_of_bounds 0)
             then flip_index (index (robot_at (21 # 1) 0 4))
             else index (robot_at (21 # 1) 0 4))
       /\ (intersecting_pairs alone_out_of_bounds 0 = 0%nat ->
           r' = update_piston (update_robot_index (robot_at (21 # 1) 0 4))
           /\ index r' = flip_index (index (robot_at (21 # 1) 0 4))).
Proof.
  assert (Hout : outside_boundary (robot_at (21 # 1) 0 4))
    by (apply out_of_bounds_iff; reflexivity).
  split; [exact Hout|].
  exact (@boundary_response_leaves_position model_host alone_out_of_bounds 0%nat
           (robot_at (21 # 1) 0 4) eq_refl Hout).
Defined.

(** The claim as stated fails for a robot that is outside the boundary and in
    contact with the robot that follows it: it is flipped twice and ends the
    pass with the index it had. *)
Lemma boundary_flip_cancelled_by_contact :
  out_of_bounds_at followed_out_of_bounds 0 = true
  /\ index <$> (followed_out_of_bounds !! 0%nat) = Some (Some 1%Z)
  /\ index <$> (collision_detection followed_out_of_bounds !! 0%nat) = Some (Some 1%Z).
Proof. vm_compute. repeat split. Qed.

(** ** The direction index over any run *)

Lemma valid_index_iter_respond n r : valid_index r -> valid_index (Nat.iter n respond r).
Proof.
  intros Hv. induction n as [|n IH]; [exact Hv|].
  rewrite Nat.iter_succ. now apply valid_index_flip.
Qed.

Lemma valid_index_same_index r s : index s = index r -> valid_index r -> valid_index s.
Proof. unfold valid_index. now intros ->. Qed.

Section Runs.
Context `{Host}.

Lemma valid_at_alter (f : cube_robot -> cube_robot) i (l : list cube_robot) k :
  (forall r, valid_index r -> valid_index (f r)) ->
  valid_at l k -> valid_at (alter f i l) k.
Proof.
  intros Hf (r & Hk & Hv). unfold valid_at. rewrite list_lookup_alter.
  destruct (decide (i = k)) as [->|Hne]; [|eauto].
  rewrite Hk. cbn. eauto.
Qed.

Lemma valid_at_collision_detection (l : list cube_robot) k :
  valid_at l k -> valid_at (collision_detection l) k.
Proof.
  intros (r & Hk & Hv). unfold valid_at.
  rewrite collision_detection_lookup, Hk. cbn.
  eauto using valid_index_iter_respond.
Qed.

Lemma index_dispatch ins r : index (dispatch ins r) = index r.
Proof.
  unfold dispatch.
  destruct (index r) as [[|p|p]|] eqn:E; try exact E;
    do 3 (try destruct p as [p|p|]); try exact E; rewrite <- E;
    match goal with
    | |- index (move_away _ _) = _ => exact (index_move Away ins r)
    | |- index (move_closer _ _) = _ => exact (index_move Closer ins r)
    | |- index (move_left _ _) = _ => exact (index_move Left ins r)
    | |- index (move_right _ _) = _ => exact (index_move Right ins r)
    end.
Qed.

Lemma valid_dispatch ins r : valid_index r -> valid_index (dispatch ins r).
Proof. apply valid_index_same_index, index_dispatch. Qed.

Lemma valid_at_assign_initial_direction ins (l : list cube_robot) k :
  valid_at l k -> valid_at (assign_initial_direction ins l) k.
Proof.
  unfold assign_initial_direction. generalize (seq 0 (length l)) as idxs.
  intros idxs. revert l. induction idxs as [|i idxs IH]; intros l Hv; [exact Hv|].
  cbn [foldl]. apply IH. apply valid_at_alter; [|exact Hv].
  intros r. apply valid_dispatch.
Qed.

Lemma valid_at_run_call (l : list cube_robot) (c : call) k :
  valid_at l k -> valid_at (run_call l c) k.
Proof.
  intros Hv. destruct c as [|ins|i m ins]; cbn [run_call].
  - now apply valid_at_collision_detection.
  - now apply valid_at_assign_initial_direction.
  - apply valid_at_alter; [|exact Hv]. intros r.
    apply valid_index_same_index, index_move.
Qed.
End Runs.

(** C5.  A robot whose direction index is in {1, 2, 3, 4} still has its
    index in {1, 2, 3, 4} after any sequence of calls of
    [collision_detection], of [assign_initial_direction] and of the movement
    functions, and after any number of frames of [animate], whatever the
    other robots of the array are. *)
Theorem direction_index_stays_valid `{Host} (calls : list call)
    (frames : list (nat -> inputs)) (robot_array : list cube_robot) (k : nat) :
  valid_at robot_array k ->
  valid_at (run_calls calls robot_array) k
  /\ valid_at (run_frames frames robot_array) k.
Proof.
  intros Hv. split.
  - unfold run_calls. revert robot_array Hv.
    induction calls as [|c calls IH]; intros l Hv; [exact Hv|].
    cbn [foldl]. apply IH. now apply valid_at_run_call.
  - unfold run_frames. revert robot_array Hv.
    induction frames as [|ins frames IH]; intros l Hv; [exact Hv|].
    cbn [foldl]. apply IH. unfold animate.
    now apply valid_at_assign_initial_direction, valid_at_collision_detection.
Qed.

Lemma direction_index_stays_valid_witness :
  valid_at two_in_contact 1
  /\ valid_at (run_calls some_calls two_in_contact) 1
  /\ valid_at (run_frames some_frames two_in_contact) 1.
Proof.
  assert (Hv : valid_at two_in_contact 1).
  { exists (robot_at (3 # 2) 1 3). split; [reflexivity|].
    right; right; left; reflexivity. }
  split; [exact Hv|].
  exact (@direction_index_stays_valid model_host some_calls some_frames two_in_contact
           1%nat Hv).
Defined.

(** ** Initial placement *)

Lemma counter_less_than_number (i n : nat) :
  counter_less_than i (JNumber (inject_Z (Z.of_nat n))) = (i <? n)%nat.
Proof.
  unfold counter_less_than, ToNumber.
  destruct (Nat.ltb_spec i n) as [Hlt|Hge].
  - apply Qltb_true. rewrite <- Zlt_Qlt. lia.
  - unfold Qltb. apply negb_false_iff. apply Qle_bool_iff. rewrite <- Zle_Qle. lia.
Qed.

(** The quarter of the unit interval a number lies in. *)
Lemma quarter_of_unit (u : Q) :
  0 <= u -> u < 1 ->
  let j := Qfloor (u * inject_Z (Z.of_nat (length movement))) in
  (0 <= j < 4)%Z /\ inject_Z j / 4 <= u /\ u < (inject_Z j + 1) / 4
  /\ array_get movement j = Some (j + 1)%Z.
Proof.
  intros H0 H1 j.
  assert (E4 : inject_Z (Z.of_nat (length movement)) == 4) by reflexivity.
  pose proof (Qfloor_le (u * inject_Z (Z.of_nat (length movement)))) as Hlo.
  pose proof (Qlt_floor (u * inject_Z (Z.of_nat (length movement)))) as Hhi.
  fold j in Hlo, Hhi. rewrite E4 in Hlo, Hhi. rewrite inject_Z_plus in Hhi.
  change (inject_Z 1) with 1 in Hhi.
  assert (Hj0 : (0 <= j)%Z).
  { assert (Hq : inject_Z (-1) < inject_Z j) by (change (inject_Z (-1)) with (-1); lra).
    rewrite <- Zlt_Qlt in Hq. lia. }
  assert (Hj4 : (j < 4)%Z).
  { assert (Hq : inject_Z j < inject_Z 4) by (change (inject_Z 4) with 4; lra).
    rewrite <- Zlt_Qlt in Hq. exact Hq. }
  split; [lia|].
  split; [|split].
  - apply Qle_shift_div_r; [reflexivity|]. lra.
  - apply Qlt_shift_div_l; [reflexivity|]. lra.
  - unfold array_get.
    assert (Hcase : (j = 0 \/ j = 1 \/ j = 2 \/ j = 3)%Z) by lia.
    destruct Hcase as [E | [E | [E | E]]]; rewrite E; reflexivity.
Qed.

Section Placement.
Context `{Host}.

Lemma bounding_box_candidate random cursor i :
  created_box (bounding_box (candidate random cursor i)).
Proof. unfold candidate, created_box. eexists _, _. reflexivity. Qed.

(** What the [while] loop returns was accepted by the overlap check. *)
Lemma place_robot_accepted fuel random cursor i placed robot cursor' :
  place_robot fuel random cursor i placed = Some (robot, cursor') ->
  collision_detected robot placed = false
  /\ created_box (bounding_box robot) /\ index robot = None.
Proof.
  revert cursor. induction fuel as [|fuel IH]; intros cursor; [discriminate|].
  cbn [place_robot].
  destruct (collision_detected (candidate random cursor i) placed) eqn:E.
  - apply IH.
  - intros [= <- <-]. split; [exact E|]. split; [apply bounding_box_candidate|].
    reflexivity.
Qed.

(** The [while] loop ends as soon as the sequence offers a free candidate. *)
Lemma place_robot_returns t : forall fuel random cursor i placed,
  (t < fuel)%nat ->
  collision_detected (candidate random (cursor + 2 * t) i) placed = false ->
  exists robot cursor', place_robot fuel random cursor i placed = Some (robot, cursor').
Proof.
  induction t as [|t IH]; intros fuel random cursor i placed Hlt Hfree;
    (destruct fuel as [|fuel]; [lia|]); cbn [place_robot].
  - replace (cursor + 2 * 0)%nat with cursor in Hfree by lia.
    rewrite Hfree. eauto.
  - destruct (collision_detected (candidate random cursor i) placed); [|eauto].
    apply (IH fuel random (cursor + 2)%nat i placed); [lia|].
    replace (cursor + 2 + 2 * t)%nat with (cursor + 2 * S t)%nat by lia. exact Hfree.
Qed.

Lemma place_robot_more_fuel fuel fuel' random cursor i placed res :
  (fuel <= fuel')%nat ->
  place_robot fuel random cursor i placed = Some res ->
  place_robot fuel' random cursor i placed = Some res.
Proof.
  revert fuel' cursor. induction fuel as [|fuel IH]; intros fuel' cursor Hle; [discriminate|].
  destruct fuel' as [|fuel']; [lia|]. cbn [place_robot].
  destruct (collision_detected _ _); [|auto].
  apply IH. lia.
Qed.

Lemma initialize_robots_more_fuel fuel : forall fuel' random cursor i v acc robots,
  (fuel <= fuel')%nat ->
  initialize_robots_from fuel random cursor i v acc = Some robots ->
  initialize_robots_from fuel' random cursor i v acc = Some robots.
Proof.
  induction fuel as [|fuel IH]; intros fuel' random cursor i v acc robots Hle;
    [discriminate|].
  destruct fuel' as [|fuel']; [lia|]. cbn [initialize_robots_from].
  destruct (counter_less_than i v); [|auto].
  destruct (place_robot fuel random cursor i acc) as [[robot cursor']|] eqn:Ep;
    [|discriminate].
  rewrite (place_robot_more_fuel fuel fuel' _ _ _ _ _ ltac:(lia) Ep).
  apply IH. lia.
Qed.

Lemma collision_detected_false robot (placed : list cube_robot) :
  collision_detected robot placed = false ->
  forall a, a ∈ placed ->
    Box3_intersectsBox (bounding_box robot) (bounding_box a) = false.
Proof.
  unfold collision_detected. induction placed as [|b placed IH]; intros Hex a Ha.
  - inversion Ha.
  - cbn [existsb] in Hex. apply orb_false_iff in Hex. destruct Hex as (Hb & Hrest).
    apply elem_of_cons in Ha. destruct Ha as [->|Ha]; [exact Hb|].
    now apply IH.
Qed.

(** The accepted robot is a candidate made from two consecutive random
    numbers, and the cursor is just past them. *)
Lemma place_robot_candidate fuel random cursor i placed robot cursor' :
  place_robot fuel random cursor i placed = Some (robot, cursor') ->
  exists c, (cursor <= c)%nat /\ robot = candidate random c i /\ cursor' = (c + 2)%nat
            /\ collision_detected (candidate random c i) placed = false.
Proof.
  revert cursor. induction fuel as [|fuel IH]; intros cursor; [discriminate|].
  cbn [place_robot].
  destruct (collision_detected (candidate random cursor i) placed) eqn:E.
  - intros Hp. destruct (IH _ Hp) as (c & Hc & Hrest). exists c. split; [lia|exact Hrest].
  - intros [= <- <-]. exists cursor. repeat split; [lia|exact E].
Qed.

(** The boxes of the robots of a state are boxes of created robots. *)
Lemma placement_state_created random cursor acc :
  placement_state random cursor acc ->
  Forall (fun r => created_box (bounding_box r)) acc.
Proof.
  induction 1 as [|cursor acc fuel robot cursor' _ IH Hp]; [constructor|].
  destruct (place_robot_accepted _ _ _ _ _ _ _ Hp) as (_ & Hcreated & _).
  apply Forall_app. split; [exact IH|]. constructor; [exact Hcreated|constructor].
Qed.

(** Every state the placement reaches satisfies the invariant. *)
Lemma placement_state_invariant random cursor acc :
  placement_state random cursor acc -> placement_invariant random cursor acc.
Proof.
  induction 1 as [|cursor acc fuel robot cursor' Hstate IH Hp].
  - split; [|split; [constructor|]].
    + intros i j a b _ Hi. rewrite lookup_nil in Hi. discriminate.
    + exists []. split; [reflexivity|].
      split; [intros k c Hk; rewrite lookup_nil in Hk; discriminate|].
      split; [intros i j ci cj _ Hi; rewrite lookup_nil in Hi; discriminate|].
      intros k r Hk. rewrite lookup_nil in Hk. discriminate.
  - destruct IH as (Hpair & Hbox & cursors & Hlen & Hbelow & Hgap & Hdrawn).
    destruct (place_robot_candidate _ _ _ _ _ _ _ Hp) as (c & Hc & -> & -> & Hfree).
    split; [|split].
    + intros i j a b Hij Hi Hj.
      assert (Hjlen : (j < length acc + 1)%nat).
      { apply lookup_lt_Some in Hj. rewrite length_app in Hj. exact Hj. }
      destruct (decide (j < length acc)%nat) as [Hlt|Hge].
      * rewrite lookup_app_l in Hi, Hj by lia. exact (Hpair i j a b Hij Hi Hj).
      * assert (Ej : j = length acc) by lia. subst j.
        rewrite lookup_app_l in Hi by lia.
        rewrite list_lookup_middle in Hj by reflexivity. injection Hj as <-.
        change (Box3_intersectsBox
                  (bounding_box (candidate random c (length acc))) (bounding_box a)
                = false).
        apply (collision_detected_false _ acc Hfree).
        apply list_elem_of_lookup. eauto.
    + apply (placement_state_created random (S (c + 2))).
      exact (placement_next random cursor acc fuel _ _ Hstate Hp).
    + exists (cursors ++ [c]).
      split; [rewrite !length_app; cbn [length]; lia|].
      split; [|split].
      * intros k c' Hk.
        destruct (decide (k < length cursors)%nat) as [Hlt|Hge].
        -- rewrite lookup_app_l in Hk by lia. specialize (Hbelow k c' Hk). lia.
        -- assert (Ek : k = length cursors).
           { apply lookup_lt_Some in Hk. rewrite length_app in Hk. cbn in Hk. lia. }
           subst k. rewrite list_lookup_middle in Hk by reflexivity.
           injection Hk as <-. lia.
      * intros i j ci cj Hij Hi Hj.
        destruct (decide (j < length cursors)%nat) as [Hlt|Hge].
        -- rewrite lookup_app_l in Hi, Hj by lia. exact (Hgap i j ci cj Hij Hi Hj).
        -- assert (Ej : j = length cursors).
           { apply lookup_lt_Some in Hj. rewrite length_app in Hj. cbn in Hj. lia. }
           subst j. rewrite lookup_app_l in Hi by lia.
           rewrite list_lookup_middle in Hj by reflexivity. injection Hj as <-.
           specialize (Hbelow i ci Hi). lia.
      * intros k r Hk.
        destruct (decide (k < length acc)%nat) as [Hlt|Hge].
        -- rewrite lookup_app_l in Hk by lia.
           destruct (Hdrawn k r Hk) as (c' & Hc' & Hr).
           exists c'. split; [|exact Hr]. rewrite lookup_app_l by lia. exact Hc'.
        -- assert (Ek : k = length acc).
           { apply lookup_lt_Some in Hk. rewrite length_app in Hk. cbn in Hk. lia. }
           subst k. rewrite list_lookup_middle in Hk by reflexivity.
           injection Hk as <-.
           exists c. split; [rewrite <- Hlen; now apply list_lookup_middle|].
           reflexivity.
Qed.

(** With a sequence that offers a free position within [K] attempts to the
    robots placed, the loop returns, and what it returns is a state of the
    placement with [n] robots. *)
Lemma initialize_robots_from_returns random n K m :
  offers_free_position random n K ->
  forall fuel cursor acc,
    placement_state random cursor acc ->
    (length acc + m = n)%nat ->
    (m + K + 1 <= fuel)%nat ->
    exists robots cursor',
      initialize_robots_from fuel random cursor (length acc)
                             (JNumber (inject_Z (Z.of_nat n))) acc
      = Some robots
      /\ placement_state random cursor' robots
      /\ length robots = n.
Proof.
  intros Hoffer. induction m as [|m IH]; intros fuel cursor acc Hstate Hlen Hfuel;
    (destruct fuel as [|fuel]; [lia|]); cbn [initialize_robots_from];
    rewrite counter_less_than_number.
  - assert (E : (length acc <? n)%nat = false) by (apply Nat.ltb_ge; lia).
    rewrite E. exists acc, cursor. split; [reflexivity|]. split; [exact Hstate|lia].
  - assert (E : (length acc <? n)%nat = true) by (apply Nat.ltb_lt; lia).
    rewrite E.
    destruct (Hoffer cursor acc Hstate ltac:(lia)) as (t & Ht & Hfree).
    destruct (place_robot_returns t fuel random cursor (length acc) acc ltac:(lia) Hfree)
      as (robot & cursor' & Ep).
    rewrite Ep.
    pose proof (placement_next random cursor acc fuel robot cursor' Hstate Ep) as Hnext.
    match type of Hnext with
    | placement_state _ _ (acc ++ [?x]) =>
        replace (S (length acc)) with (length (acc ++ [x]))
          by (rewrite length_app; cbn [length]; lia);
        apply (IH fuel (S cursor') (acc ++ [x]) Hnext);
          [rewrite length_app; cbn [length]; lia|lia]
    end.
Qed.
End Placement.

(** C7.  When the random sequence stays in [0, 1) and offers a free position
    within [K] attempts to the robots placed, for each of [n] robots,
    [initialize_robots] returns (with any fuel from [n + K + 1] on) an array of
    exactly [n] robots whose boxes do not intersect one another (in the order
    the loop calls the test, and in both orders when the test is symmetric).
    Each robot has its own values of the random sequence, later ones for later
    robots: robot [k] is the candidate made from the values at [c] and
    [c + 1], and its direction index is drawn with the value [u] at [c + 2],
    the one [Math.random()] returns for this robot after the [while] loop:
    the index is [j + 1] when [u] lies in the quarter [[j/4, (j+1)/4)] of the
    unit interval, equal quarters for the four values, so a uniform number
    gives a uniform index. *)
Theorem initialize_robots_places_disjoint_robots `{Host}
    (random : nat -> Q) (n K : nat) :
  (forall c, 0 <= random c /\ random c < 1) ->
  offers_free_position random n K ->
  exists robots,
    (forall fuel, (n + K + 1 <= fuel)%nat ->
       initialize_robots fuel random (JNumber (inject_Z (Z.of_nat n))) = Some robots)
    /\ length robots = n
    /\ pairwise_disjoint robots
    /\ ((forall a b, Box3_intersectsBox a b = Box3_intersectsBox b a) ->
        forall i j a b, i <> j -> robots !! i = Some a -> robots !! j = Some b ->
          Box3_intersectsBox (bounding_box a) (bounding_box b) = false)
    /\ (exists cursors : list nat,
          length cursors = n
          /\ (forall i j ci cj, (i < j)%nat ->
                cursors !! i = Some ci -> cursors !! j = Some cj -> (ci + 3 <= cj)%nat)
          /\ forall k r, robots !! k = Some r ->
               exists c, cursors !! k = Some c
                         /\ drawn_at random k c r
                         /\ index_drawn (random (c + 2)%nat) r)
    /\ Forall valid_index robots.
Proof.
  intros Hu Hoffer.
  destruct (initialize_robots_from_returns random n K n Hoffer (n + K + 1) 0 []
              (placement_start random) eq_refl ltac:(lia))
    as (robots & cursor' & Hrun & Hstate & Hlen).
  exists robots.
  destruct (placement_state_invariant random cursor' robots Hstate)
    as (Hpair & _ & cursors & Hclen & _ & Hgap & Hdrawn).
  assert (Hindex : forall k r, robots !! k = Some r ->
            exists c, cursors !! k = Some c
                      /\ drawn_at random k c r
                      /\ index_drawn (random (c + 2)%nat) r).
  { intros k r Hk. destruct (Hdrawn k r Hk) as (c & Hc & Hr).
    exists c. split; [exact Hc|]. split; [exact Hr|].
    destruct (Hu (c + 2)%nat) as (H0 & H1).
    destruct (quarter_of_unit (random (c + 2)%nat) H0 H1) as (Hj & Hlo & Hhi & Hget).
    exists (Qfloor (random (c + 2)%nat * inject_Z (Z.of_nat (length movement)))).
    split; [exact Hj|]. split; [exact Hlo|]. split; [exact Hhi|].
    rewrite Hr. exact Hget. }
  split; [|split; [exact Hlen|split; [exact Hpair|split; [|split]]]].
  - intros fuel Hfuel. unfold initialize_robots.
    exact (initialize_robots_more_fuel _ _ _ _ _ _ _ _ Hfuel Hrun).
  - intros Hsym i j a b Hij Hi Hj.
    destruct (Nat.lt_total i j) as [Hlt|[Heq|Hgt]]; [|congruence|].
    + rewrite Hsym. exact (Hpair i j a b Hlt Hi Hj).
    + exact (Hpair j i b a Hgt Hj Hi).
  - exists cursors. split; [lia|]. split; [exact Hgap|exact Hindex].
  - apply Forall_lookup. intros k r Hk.
    destruct (Hindex k r Hk) as (c & _ & _ & j & Hj & _ & _ & Hr).
    unfold valid_index. rewrite Hr.
    assert (Hcase : (j = 0 \/ j = 1 \/ j = 2 \/ j = 3)%Z) by lia.
    destruct Hcase as [E | [E | [E | E]]]; rewrite E; cbn; auto.
Qed.

Lemma alternating_random_unit c : 0 <= alternating_random c /\ alternating_random c < 1.
Proof. unfold alternating_random. destruct (Nat.even _); split; reflexivity || discriminate. Qed.

Lemma alternating_random_alternates c :
  (alternating_random c = 1 # 10 /\ alternating_random (c + 2 * 1) = 9 # 10)
  \/ (alternating_random c = 9 # 10 /\ alternating_random (c + 2 * 1) = 1 # 10).
Proof.
  unfold alternating_random.
  replace (c + 2 * 1)%nat with (c + 1 * 2)%nat by lia.
  rewrite Nat.div_add by lia. rewrite Nat.add_1_r, Nat.even_succ, <- Nat.negb_even.
  destruct (Nat.even (c / 2)); cbn; auto.
Qed.

Lemma spec_intersectsBox_x (a b : Box3.t) :
  spec_intersectsBox a b = true ->
  Vector3.x (Box3.min a) <= Vector3.x (Box3.max b)
  /\ Vector3.x (Box3.min b) <= Vector3.x (Box3.max a).
Proof.
  unfold spec_intersectsBox. rewrite !andb_true_iff, !Qle_bool_iff. tauto.
Qed.

Lemma spec_intersectsBox_sym (a b : Box3.t) :
  spec_intersectsBox a b = spec_intersectsBox b a.
Proof. unfold spec_intersectsBox. repeat destruct (Qle_bool _ _); reflexivity. Qed.

(** With [alternating_random] two successive candidates lie in two far
    corners, so the box of one created robot cannot meet both. *)
Lemma alternating_random_free_of_one (r : cube_robot) (cursor i : nat) :
  @created_box model_host (bounding_box r) ->
  exists t, (t < 2)%nat /\
    @collision_detected model_host
      (@candidate model_host alternating_random (cursor + 2 * t) i) [r] = false.
Proof.
  intros (x & z & Hr).
  unfold collision_detected. cbn [existsb]. rewrite Hr.
  set (meets := fun c =>
         spec_intersectsBox
           (bounding_box (@candidate model_host alternating_random c i))
           (bounding_box (@create_robots model_host x (13 # 10) z))).
  destruct (meets (cursor + 2 * 0)%nat) eqn:E0;
    [|exists 0%nat; split; [lia|];
      change (meets (cursor + 2 * 0)%nat || false = false); now rewrite E0].
  exists 1%nat. split; [lia|].
  change (meets (cursor + 2 * 1)%nat || false = false).
  destruct (meets (cursor + 2 * 1)%nat) eqn:E1; [|reflexivity].
  unfold meets in E0, E1.
  exfalso.
  apply spec_intersectsBox_x in E0, E1.
  replace (cursor + 2 * 0)%nat with cursor in E0 by lia.
  cbn [candidate create_robots new_cube_robot bounding_box set_name Box3_setFromObject
       model_host spec_setFromObject Box3.min Box3.max Vector3.x Mesh.position]
    in E0, E1.
  destruct (alternating_random_alternates cursor) as [(Ea & Eb)|(Ea & Eb)];
    rewrite Ea in E0; rewrite Eb in E1; lra.
Qed.

Lemma alternating_random_offers : @offers_free_position model_host alternating_random 2 2.
Proof.
  intros cursor acc Hstate Hlen.
  pose proof (@placement_state_created model_host _ _ _ Hstate) as Hbox.
  destruct acc as [|r acc]; [exists 0%nat; split; [lia|reflexivity]|].
  destruct acc as [|r' acc]; [|cbn in Hlen; lia].
  apply Forall_cons in Hbox. destruct Hbox as (Hr & _).
  exact (alternating_random_free_of_one r cursor (length [r]) Hr).
Qed.

Lemma initialize_robots_places_disjoint_robots_witness :
  ((forall c, 0 <= alternating_random c /\ alternating_random c < 1)
   /\ offers_free_position alternating_random 2 2)
  /\ exists robots,
       (forall fuel, (2 + 2 + 1 <= fuel)%nat ->
          initialize_robots fuel alternating_random (JNumber (inject_Z (Z.of_nat 2)))
          = Some robots)
       /\ length robots = 2%nat
       /\ pairwise_disjoint robots
       /\ (forall i j a b, i <> j -> robots !! i = Some a -> robots !! j = Some b ->
             Box3_intersectsBox (bounding_box a) (bounding_box b) = false)
       /\ (exists cursors : list nat,
             length cursors = 2%nat
             /\ (forall i j ci cj, (i < j)%nat ->
                   cursors !! i = Some ci -> cursors !! j = Some cj ->
                   (ci + 3 <= cj)%nat)
             /\ forall k r, robots !! k = Some r ->
                  exists c, cursors !! k = Some c
                            /\ drawn_at alternating_random k c r
                            /\ index_drawn (alternating_random (c + 2)%nat) r)
       /\ Forall valid_index robots.
Proof.
  split; [split; [exact alternating_random_unit|exact alternating_random_offers]|].
  destruct (@initialize_robots_places_disjoint_robots model_host alternating_random 2 2
              alternating_random_unit alternating_random_offers)
    as (robots & Hrun & Hlen & Hpair & Hsym & Hidx & Hvalid).
  exists robots.
  repeat split; try assumption.
  exact (Hsym spec_intersectsBox_sym).
Defined.

(** ** A field with a hundred robots *)

(** The candidates of [grid_random] at the cursors [3 k], for [k] below 100,
    have boxes that do not intersect one another. *)
Lemma grid_random_apart :
  forallb (fun l =>
    forallb (fun k =>
      negb (spec_intersectsBox
              (bounding_box (@candidate model_host grid_random (3 * l) l))
              (bounding_box (@candidate model_host grid_random (3 * k) k))))
      (seq 0 l))
    (seq 0 100) = true.
Proof. vm_compute. reflexivity. Qed.

(** A candidate of the grid is free of the candidates before it. *)
Lemma grid_random_free (acc : list cube_robot) :
  (forall k r, acc !! k = Some r ->
     bounding_box r = bounding_box (@candidate model_host grid_random (3 * k) k)) ->
  (length acc < 100)%nat ->
  @collision_detected model_host
    (@candidate model_host grid_random (3 * length acc) (length acc)) acc = false.
Proof.
  intros Hboxes Hlen. unfold collision_detected.
  destruct (existsb _ acc) eqn:Ex; [|reflexivity]. exfalso.
  apply existsb_exists in Ex. destruct Ex as (a & Ha & Hmeet).
  apply list_elem_of_In, list_elem_of_lookup in Ha. destruct Ha as (k & Hk).
  rewrite (Hboxes k a Hk) in Hmeet.
  pose proof grid_random_apart as Hall. rewrite forallb_forall in Hall.
  assert (Hklen : (k < length acc)%nat) by (apply lookup_lt_Some in Hk; exact Hk).
  specialize (Hall (length acc) ltac:(apply in_seq; lia)).
  rewrite forallb_forall in Hall.
  specialize (Hall k ltac:(apply in_seq; lia)).
  apply negb_true_iff in Hall.
  change (spec_intersectsBox
            (bounding_box (@candidate model_host grid_random (3 * length acc)
                             (length acc)))
            (bounding_box (@candidate model_host grid_random (3 * k) k)) = true)
    in Hmeet.
  congruence.
Qed.

Lemma grid_random_unit c : 0 <= grid_random c /\ grid_random c < 1.
Proof.
  assert (Hcell : forall g : nat, (g < 10)%nat ->
            0 <= inject_Z (3 * Z.of_nat g + 2) / 36
            /\ inject_Z (3 * Z.of_nat g + 2) / 36 < 1).
  { intros g Hg.
    assert (H2 : inject_Z 2 <= inject_Z (3 * Z.of_nat g + 2)) by (rewrite <- Zle_Qle; lia).
    assert (H29 : inject_Z (3 * Z.of_nat g + 2) <= inject_Z 29)
      by (rewrite <- Zle_Qle; lia).
    change (inject_Z 2) with 2 in H2. change (inject_Z 29) with 29 in H29.
    split.
    - apply Qle_shift_div_l; [reflexivity|]. lra.
    - apply Qlt_shift_div_r; [reflexivity|]. lra. }
  unfold grid_random.
  destruct (c mod 3)%nat as [|[|]].
  - apply Hcell. apply Nat.mod_upper_bound. lia.
  - apply Hcell. apply Nat.mod_upper_bound. lia.
  - split; [discriminate|reflexivity].
Qed.

(** Up to a hundred robots, the placement with [grid_random] accepts every
    candidate at once: robot [k] has the box of the candidate at [3 k]. *)
Lemma grid_random_states cursor acc :
  @placement_state model_host grid_random cursor acc ->
  (length acc <= 100)%nat ->
  cursor = (3 * length acc)%nat
  /\ forall k r, acc !! k = Some r ->
       bounding_box r = bounding_box (@candidate model_host grid_random (3 * k) k).
Proof.
  induction 1 as [|cursor acc fuel robot cursor' Hstate IH Hp]; intros Hlen.
  - split; [reflexivity|]. intros k r Hk. rewrite lookup_nil in Hk. discriminate.
  - rewrite length_app in Hlen. cbn [length] in Hlen.
    destruct (IH ltac:(lia)) as (-> & Hboxes).
    pose proof (grid_random_free acc Hboxes ltac:(lia)) as Hfree.
    destruct fuel as [|fuel]; [discriminate Hp|].
    cbn [place_robot] in Hp. rewrite Hfree in Hp. injection Hp as <- <-.
    split; [rewrite length_app; cbn [length]; lia|].
    intros k r Hk.
    destruct (decide (k < length acc)%nat) as [Hlt|Hge].
    + rewrite lookup_app_l in Hk by lia. exact (Hboxes k r Hk).
    + assert (Ek : k = length acc).
      { apply lookup_lt_Some in Hk. rewrite length_app in Hk. cbn in Hk. lia. }
      subst k. rewrite list_lookup_middle in Hk by reflexivity.
      injection Hk as <-. reflexivity.
Qed.

(** The hypotheses of the placement are met for a hundred robots: the
    sequence [grid_random] stays in [0, 1) and offers a free position at the
    first attempt in every state with fewer than 100 robots. *)
Example grid_random_offers_a_hundred :
  (forall c, 0 <= grid_random c /\ grid_random c < 1)
  /\ @offers_free_position model_host grid_random 100 1.
Proof.
  split; [exact grid_random_unit|].
  intros cursor acc Hstate Hlen.
  destruct (grid_random_states cursor acc Hstate ltac:(lia)) as (-> & Hboxes).
  exists 0%nat. split; [lia|].
  replace (3 * length acc + 2 * 0)%nat with (3 * length acc)%nat by lia.
  exact (grid_random_free acc Hboxes Hlen).
Qed.

(** A run in which the loop rejects a candidate: the second candidate lands
    on the first robot, the third one is placed. *)
Example initialize_robots_rejects_overlap :
  collision_detected (candidate random_with_rejection 3 1)
                     [candidate random_with_rejection 0 0] = true
  /\ (Mesh.position ∘ cube) <$>
       default [] (initialize_robots 6 random_with_rejection (JNumber 2))
     = [Mesh.position (cube (candidate random_with_rejection 0 0));
        Mesh.position (cube (candidate random_with_rejection 5 1))].
Proof. vm_compute. split; reflexivity. Qed.

(** ** The number of robots *)

Lemma Qltb_proper (a b b' : Q) : b == b' -> Qltb a b = Qltb a b'.
Proof.
  intros E. unfold Qltb. f_equal.
  destruct (Qle_bool b a) eqn:E1, (Qle_bool b' a) eqn:E2; try reflexivity.
  - apply Qle_bool_iff in E1. rewrite E in E1. apply Qle_bool_iff in E1. congruence.
  - apply Qle_bool_iff in E2. rewrite <- E in E2. apply Qle_bool_iff in E2. congruence.
Qed.

Section Count.
Context `{Host}.

(** The loop looks at [num_robots] through its comparisons with the counter
    only. *)
Lemma initialize_robots_from_ext (v v' : jsval) fuel :
  (forall i, counter_less_than i v = counter_less_than i v') ->
  forall random cursor i acc,
    initialize_robots_from fuel random cursor i v acc
    = initialize_robots_from fuel random cursor i v' acc.
Proof.
  intros Hv. induction fuel as [|fuel IH]; intros random cursor i acc; [reflexivity|].
  cbn [initialize_robots_from]. rewrite (Hv i).
  destruct (counter_less_than i v'); [|reflexivity].
  destruct (place_robot fuel random cursor i acc) as [[robot cursor']|]; [|reflexivity].
  apply IH.
Qed.

Lemma initialize_robots_from_length random n fuel :
  forall cursor i acc robots,
    (i <= n)%nat -> length acc = i ->
    initialize_robots_from fuel random cursor i (JNumber (inject_Z (Z.of_nat n))) acc
    = Some robots ->
    length robots = n.
Proof.
  induction fuel as [|fuel IH]; intros cursor i acc robots Hi Hlen; [discriminate|].
  cbn [initialize_robots_from]. rewrite counter_less_than_number.
  destruct (Nat.ltb_spec i n) as [Hlt|Hge].
  - destruct (place_robot fuel random cursor i acc) as [[robot cursor']|]; [|discriminate].
    apply IH; [lia|]. rewrite length_app. cbn. lia.
  - intros [= <-]. lia.
Qed.

Lemma counter_less_than_text (text : string) (q : Q) (n : nat) (i : nat) :
  StringToNumber text = Finite q -> q == inject_Z (Z.of_nat n) ->
  counter_less_than i (JString text)
  = counter_less_than i (JNumber (inject_Z (Z.of_nat n))).
Proof.
  intros Et Eq. unfold counter_less_than, ToNumber. rewrite Et.
  now apply Qltb_proper.
Qed.

Lemma num_robots_create_text (text : string) :
  text <> EmptyString -> num_robots_create (Some text) = JString text.
Proof. destruct text; [congruence|reflexivity]. Qed.
End Count.



(** ** The algebra of the collision response *)

Ltac robot_index_cases r :=
  let idx := fresh "idx" in
  let p := fresh "p" in
  destruct r as [? ? ? ? ? ? ? ? ? ? ? ? ? ? ? ? ? ? ? ? ? ? ? ? ? ? idx ?];
  unfold update_piston, update_robot_index, valid_index; cbn [index];
  destruct idx as [[|p|p]|];
  [ | do 3 (try destruct p as [p|p|]) | | ].

Lemma update_robot_index_twice (r : cube_robot) :
  update_robot_index (update_robot_index r) = r.
Proof. robot_index_cases r; reflexivity. Qed.

Lemma update_piston_twice (r : cube_robot) :
  update_piston (update_piston r) = update_piston r.
Proof. robot_index_cases r; reflexivity. Qed.

Lemma update_piston_update_robot_index (r : cube_robot) :
  update_piston (update_robot_index r) = update_robot_index (update_piston r).
Proof. robot_index_cases r; reflexivity. Qed.

Lemma respond_twice (r : cube_robot) : respond (respond r) = update_piston r.
Proof.
  unfold respond.
  rewrite <- (update_piston_update_robot_index (update_robot_index r)).
  now rewrite update_robot_index_twice, update_piston_twice.
Qed.

Lemma update_without_direction (r : cube_robot) :
  ~ valid_index r -> update_robot_index r = r /\ update_piston r = r.
Proof.
  intros Hn. revert Hn.
  robot_index_cases r; intros Hn; try (split; reflexivity);
    exfalso; apply Hn; auto.
Qed.

Lemma respond_without_direction (r : cube_robot) : ~ valid_index r -> respond r = r.
Proof.
  intros Hn. destruct (update_without_direction r Hn) as [E1 E2].
  unfold respond. now rewrite E1, E2.
Qed.

(** The responses of a pass add up to nothing, to one piston update or to
    one response. *)
Lemma iter_respond_cases (n : nat) (r : cube_robot) :
  Nat.iter n respond r
  = if (n =? 0)%nat then r else if Nat.even n then update_piston r else respond r.
Proof.
  induction n as [n IH] using (well_founded_induction lt_wf).
  destruct n as [|[|n]]; [reflexivity | reflexivity |].
  rewrite !Nat.iter_succ, respond_twice.
  change (Nat.even (S (S n))) with (Nat.even n).
  cbn [Nat.eqb].
  rewrite (IH n) by lia.
  destruct n as [|n]; [reflexivity|]. cbn [Nat.eqb].
  destruct (Nat.even (S n)).
  - apply update_piston_twice.
  - unfold respond at 1.
    rewrite update_piston_twice. reflexivity.
Qed.

(** X1.  [update_robot_index] is its own inverse on every robot: applied
    twice it gives the robot back unchanged.  It changes the index of a robot
    whose index is 1, 2, 3 or 4, staying within the pair {1, 2} or {3, 4}, and
    it leaves any other robot (index undefined or out of range) as it is. *)
Theorem update_robot_index_is_an_involution (r : cube_robot) :
  update_robot_index (update_robot_index r) = r
  /\ (valid_index r ->
      index (update_robot_index r) <> index r
      /\ (index r = Some 1%Z \/ index r = Some 2%Z
          <-> index (update_robot_index r) = Some 1%Z
              \/ index (update_robot_index r) = Some 2%Z))
  /\ (~ valid_index r -> update_robot_index r = r).
Proof.
  split; [apply update_robot_index_twice|]. split.
  - rewrite index_update_robot_index.
    intros [E | [E | [E | E]]]; rewrite E; cbn [flip_index];
      (split; [discriminate|]);
      split; intros [E' | E']; solve [discriminate | auto].
  - intros Hn. apply (update_without_direction r Hn).
Qed.

(** X2.  [update_piston] is idempotent and commutes with
    [update_robot_index], so two collision responses on the same robot (index
    update followed by piston update, twice) amount to one piston update with
    the original index, and a third response amounts to a single one. *)
Theorem two_responses_are_one_piston_update (r : cube_robot) :
  let response := fun robot => update_piston (update_robot_index robot) in
  update_piston (update_piston r) = update_piston r
  /\ update_piston (update_robot_index r) = update_robot_index (update_piston r)
  /\ response (response r) = update_piston r
  /\ response (response (response r)) = response r.
Proof.
  cbv zeta. split; [apply update_piston_twice|].
  split; [apply update_piston_update_robot_index|].
  pose proof (respond_twice r) as E2. unfold respond in E2.
  split; [exact E2|].
  rewrite E2. rewrite <- update_piston_update_robot_index.
  now rewrite update_piston_twice.
Qed.

(** ** Whole passes *)

Section Passes.
Context `{Host}.

Lemma kinematics_collision_detection (l : list cube_robot) :
  kinematics <$> collision_detection l = kinematics <$> l.
Proof.
  unfold collision_detection.
  destruct (outer_loop_lookup (seq 0 (length l)) l 0) as (_ & Hkin). exact Hkin.
Qed.

Lemma events_kinematics (l l' : list cube_robot) k :
  kinematics <$> l = kinematics <$> l' -> events l k = events l' k.
Proof.
  intros E.
  assert (El : length l = length l')
    by (rewrite <- (length_fmap kinematics l), E; apply length_fmap).
  unfold events. rewrite (out_of_bounds_at_kinematics l l' k E), El.
  f_equal; [f_equal|]; apply count_true_ext; intros a _;
    apply intersects_at_kinematics; exact E.
Qed.

Lemma events_collision_detection (l : list cube_robot) k :
  events (collision_detection l) k = events l k.
Proof. apply events_kinematics, kinematics_collision_detection. Qed.

Lemma count_true_none {A} (p : A -> bool) (l : list A) :
  (forall a, a ∈ l -> p a = false) -> count_true p l = 0%nat.
Proof.
  induction l as [|a l IH]; intros Hp; [reflexivity|].
  cbn [count_true]. rewrite (Hp a) by left.
  apply IH. intros b Hb. apply Hp. now right.
Qed.

Lemma events_none (l : list cube_robot) k :
  (forall i, out_of_bounds_at l i = false) ->
  (forall i j, (i < j)%nat -> intersects_at l i j = false) ->
  events l k = 0%nat.
Proof.
  intros Hb Hp. unfold events. rewrite Hb.
  rewrite !count_true_none; [reflexivity| |].
  - intros i Hi. apply elem_of_seq in Hi. apply Hp. lia.
  - intros j Hj. apply elem_of_seq in Hj. apply Hp. lia.
Qed.
End Passes.

(** X3.  One pass of [collision_detection] keeps the length of the array and
    leaves each robot in one of three states, decided by the number of
    collision events it takes part in: untouched when there is none, with only
    the piston resynchronised ([update_piston]) when the number is even and
    positive, and with the index flipped and the piston resynchronised (one
    response) when it is odd. *)
Theorem collision_pass_outcome `{Host} (robot_array : list cube_robot) :
  length (collision_detection robot_array) = length robot_array
  /\ forall k r, robot_array !! k = Some r ->
       collision_detection robot_array !! k
       = Some (if (events robot_array k =? 0)%nat then r
               else if Nat.even (events robot_array k) then update_piston r
               else update_piston (update_robot_index r)).
Proof.
  split; [apply collision_detection_length|].
  intros k r Hk.
  rewrite collision_detection_lookup, Hk. cbn [fmap option_fmap option_map].
  f_equal. apply iter_respond_cases.
Qed.

(** X4.  A pass in which no robot is outside the boundary and no two boxes
    intersect returns the array as it was: no index, piston or any other field
    of any robot is written. *)
Theorem collision_pass_without_event_changes_nothing `{Host}
    (robot_array : list cube_robot) :
  (forall k, out_of_bounds_at robot_array k = false) ->
  (forall i j, (i < j)%nat -> intersects_at robot_array i j = false) ->
  collision_detection robot_array = robot_array.
Proof.
  intros Hb Hp. apply list_eq. intros k.
  rewrite collision_detection_lookup, (events_none robot_array k Hb Hp).
  destruct (robot_array !! k); reflexivity.
Qed.

Lemma collision_pass_without_event_changes_nothing_witness :
  (forall k, out_of_bounds_at two_apart k = false)
  /\ (forall i j, (i < j)%nat -> intersects_at two_apart i j = false)
  /\ collision_detection two_apart = two_apart.
Proof.
  assert (Hb : forall k, out_of_bounds_at two_apart k = false)
    by (intros [|[|k]]; reflexivity).
  assert (Hp : forall i j, (i < j)%nat -> intersects_at two_apart i j = false)
    by (intros [|[|i]] [|[|j]] Hij; try lia; reflexivity).
  split; [exact Hb|]. split; [exact Hp|].
  exact (@collision_pass_without_event_changes_nothing model_host two_apart Hb Hp).
Defined.

(** X5.  Two passes in a row, with no movement in between, restore every
    direction index: the second pass meets the same events as the first, so
    each robot is flipped an even number of times; a robot that took part in
    an event keeps only the resynchronised piston. *)
Theorem two_collision_passes_restore_indices `{Host} (robot_array : list cube_robot) :
  index <$> collision_detection (collision_detection robot_array)
  = index <$> robot_array
  /\ forall k r, robot_array !! k = Some r ->
       events (collision_detection robot_array) k = events robot_array k
       /\ collision_detection (collision_detection robot_array) !! k
          = Some (if (events robot_array k =? 0)%nat then r else update_piston r).
Proof.
  assert (Hlook : forall k,
    collision_detection (collision_detection robot_array) !! k
    = Nat.iter (events robot_array k + events robot_array k) respond
        <$> robot_array !! k).
  { intros k.
    rewrite collision_detection_lookup, events_collision_detection,
      collision_detection_lookup.
    apply iter_respond_fmap. }
  assert (Heven : forall n, Nat.even (n + n) = true).
  { intros n. replace (n + n)%nat with (2 * n)%nat by lia. apply Nat.even_even. }
  split.
  - apply list_eq. intros k. rewrite !list_lookup_fmap, Hlook.
    destruct (robot_array !! k) as [r|]; [|reflexivity].
    cbn [fmap option_fmap option_map]. f_equal.
    rewrite index_iter_respond, iter_flip_index_parity, Heven. reflexivity.
  - intros k r Hk. split; [apply events_collision_detection|].
    rewrite Hlook, Hk. cbn [fmap option_fmap option_map]. f_equal.
    rewrite iter_respond_cases, Heven.
    destruct (events robot_array k); reflexivity.
Qed.

(** ** Frames, robot by robot *)

Section Frames.
Context `{Host}.

Lemma alter_each_lookup {A} (f : nat -> A -> A) (idxs : list nat) :
  NoDup idxs ->
  forall (l : list A) k,
    foldl (fun acc i => alter (f i) i acc) l idxs !! k
    = (if bool_decide (k ∈ idxs) then f k else id) <$> l !! k.
Proof.
  induction 1 as [|i idxs Hi Hnd IH]; intros l k; cbn [foldl].
  - rewrite bool_decide_eq_false_2 by apply not_elem_of_nil.
    destruct (l !! k); reflexivity.
  - rewrite IH. destruct (decide (k = i)) as [->|Hne].
    + rewrite list_lookup_alter_eq.
      rewrite (bool_decide_eq_false_2 _ Hi).
      rewrite bool_decide_eq_true_2 by left.
      destruct (l !! i); reflexivity.
    + rewrite list_lookup_alter_ne by congruence.
      destruct (decide (k ∈ idxs)) as [Hin|Hout].
      * rewrite (bool_decide_eq_true_2 _ Hin).
        rewrite bool_decide_eq_true_2 by (now right). reflexivity.
      * rewrite (bool_decide_eq_false_2 _ Hout).
        rewrite bool_decide_eq_false_2; [reflexivity|].
        intros Hin. apply elem_of_cons in Hin. destruct Hin; congruence.
Qed.

Lemma assign_initial_direction_lookup ins (l : list cube_robot) k :
  assign_initial_direction ins l !! k = dispatch (ins k) <$> l !! k.
Proof.
  unfold assign_initial_direction.
  rewrite (alter_each_lookup (fun i => dispatch (ins i))) by apply NoDup_seq.
  destruct (l !! k) as [r|] eqn:Ek; [|reflexivity].
  rewrite bool_decide_eq_true_2; [reflexivity|].
  apply elem_of_seq. apply lookup_lt_Some in Ek. lia.
Qed.

Lemma assign_initial_direction_length ins (l : list cube_robot) :
  length (assign_initial_direction ins l) = length l.
Proof.
  unfold assign_initial_direction. generalize (seq 0 (length l)) as idxs.
  intros idxs. revert l. induction idxs as [|i idxs IH]; intros l; [reflexivity|].
  cbn [foldl]. rewrite IH. apply length_alter.
Qed.

Lemma animate_lookup ins (l : list cube_robot) k :
  animate ins l !! k
  = dispatch (ins k) <$> (Nat.iter (events l k) respond <$> l !! k).
Proof.
  unfold animate. now rewrite assign_initial_direction_lookup, collision_detection_lookup.
Qed.

Lemma animate_length ins (l : list cube_robot) : length (animate ins l) = length l.
Proof.
  unfold animate. now rewrite assign_initial_direction_length, collision_detection_length.
Qed.

Lemma dispatch_without_direction ins r : ~ valid_index r -> dispatch ins r = r.
Proof.
  intros Hn. unfold dispatch. revert Hn. unfold valid_index.
  destruct (index r) as [[|p|p]|]; try reflexivity.
  do 3 (try destruct p as [p|p|]); try reflexivity; intros Hn; exfalso; apply Hn; auto.
Qed.

(** Every frame acts on robot [k] by a function of robot [k] alone, once the
    events of the frame are known. *)
Lemma run_frames_invariant (P : cube_robot -> Prop) :
  (forall r, P r -> P (respond r)) ->
  (forall ins r, P r -> P (dispatch ins r)) ->
  forall frames (l : list cube_robot) k r,
    l !! k = Some r -> P r ->
    exists r', run_frames frames l !! k = Some r' /\ P r'.
Proof.
  intros Hresp Hdisp frames. unfold run_frames.
  induction frames as [|ins frames IH]; intros l k r Hk HP; cbn [foldl].
  - exists r. split; assumption.
  - apply (IH (animate ins l) k
              (dispatch (ins k) (Nat.iter (events l k) respond r))).
    + rewrite animate_lookup, Hk. reflexivity.
    + apply Hdisp. generalize (events l k) as n.
      induction n as [|n IHn]; [exact HP|]. rewrite Nat.iter_succ. now apply Hresp.
Qed.

Lemma run_frames_length frames (l : list cube_robot) :
  length (run_frames frames l) = length l.
Proof.
  unfold run_frames. revert l.
  induction frames as [|ins frames IH]; intros l; [reflexivity|].
  cbn [foldl]. rewrite IH. apply animate_length.
Qed.
End Frames.

(** X6.  A frame ([animate]) acts on the array robot by robot: robot [k]
    first receives one collision response per event it takes part in, counted
    on the array as it was at the start of the frame, and is then moved by the
    movement function of its index with its own inputs.  The direction
    dispatch alone moves robot [k] without reading or writing any other
    robot, and a frame keeps the length of the array. *)
Theorem animate_acts_robot_by_robot `{Host} (ins : nat -> inputs)
    (robot_array : list cube_robot) (k : nat) :
  animate ins robot_array !! k
  = dispatch (ins k)
      <$> (Nat.iter (events robot_array k) (fun r => update_piston (update_robot_index r))
             <$> robot_array !! k)
  /\ assign_initial_direction ins robot_array !! k
     = dispatch (ins k) <$> robot_array !! k
  /\ length (animate ins robot_array) = length robot_array.
Proof.
  split; [|split].
  - apply animate_lookup.
  - apply assign_initial_direction_lookup.
  - apply animate_length.
Qed.

(** X7.  A robot whose index is not one of 1, 2, 3, 4 (undefined, for
    instance) is never changed: the collision response and the [switch] of
    [assign_initial_direction] both fall through, so after any number of
    frames the robot is exactly as it was, whatever the other robots do. *)
Theorem robot_without_direction_never_changes `{Host}
    (frames : list (nat -> inputs)) (robot_array : list cube_robot)
    (k : nat) (r : cube_robot) :
  robot_array !! k = Some r -> ~ valid_index r ->
  run_frames frames robot_array !! k = Some r.
Proof.
  intros Hk Hn.
  destruct (run_frames_invariant (fun s => s = r)) with (frames := frames)
    (l := robot_array) (k := k) (r := r) as (r' & Hr' & ->); try assumption.
  - intros s ->. now apply respond_without_direction.
  - intros ins s ->. now apply dispatch_without_direction.
  - reflexivity.
Qed.

Lemma robot_without_direction_never_changes_witness :
  ([fresh_robot] !! 0%nat = Some fresh_robot /\ ~ valid_index fresh_robot)
  /\ run_frames some_frames [fresh_robot] !! 0%nat = Some fresh_robot.
Proof.
  assert (Hn : ~ valid_index fresh_robot)
    by (intros [E | [E | [E | E]]]; discriminate E).
  split; [split; [reflexivity|exact Hn]|].
  exact (@robot_without_direction_never_changes model_host some_frames [fresh_robot]
           0%nat fresh_robot eq_refl Hn).
Defined.

(** ** The data the next collision pass reads *)

Section UpToDate.
Context `{Host}.

Lemma world_position_move m ins r :
  position_in_world (move m ins r) = Object3D_getWorldPosition (cube (move m ins r)).
Proof.
  rewrite move_blocks. cbv zeta.
  generalize (landing_phase m (at_rotation_check m ins r)) as s. intros s. reflexivity.
Qed.

Lemma dispatch_with_direction ins r :
  valid_index r -> exists m, dispatch ins r = move m ins r.
Proof.
  unfold dispatch.
  intros [E | [E | [E | E]]]; rewrite E;
    [exists Away | exists Closer | exists Left | exists Right]; reflexivity.
Qed.
End UpToDate.

(** X27.  At the end of a frame the data the next collision pass reads is up
    to date for every robot that has a direction: its bounding box is the one
    the library computes for its cube and bottom piston as they are now, and
    its stored world position is the world position of its cube.  Its index
    is the one the collision pass of the frame left, flipped once per event
    the robot took part in. *)
Theorem frame_leaves_box_and_world_position_up_to_date `{Host}
    (ins : nat -> inputs) (robot_array : list cube_robot) (k : nat) (r : cube_robot) :
  robot_array !! k = Some r -> valid_index r ->
  exists r',
    animate ins robot_array !! k = Some r'
    /\ bounding_box r' = Box3_setFromObject (cube r') [piston_bottom r']
    /\ position_in_world r' = Object3D_getWorldPosition (cube r')
    /\ index r' = Nat.iter (events robot_array k) flip_index (index r).
Proof.
  intros Hk Hv.
  pose proof (valid_index_iter_respond (events robot_array k) r Hv) as Hv'.
  destruct (dispatch_with_direction (ins k) _ Hv') as (m & Em).
  exists (move m (ins k) (Nat.iter (events robot_array k) respond r)).
  split; [|split; [|split]].
  - rewrite animate_lookup, Hk. cbn [fmap option_fmap option_map]. now rewrite Em.
  - apply fresh_move.
  - apply world_position_move.
  - rewrite index_move. apply index_iter_respond.
Qed.

Lemma frame_leaves_box_and_world_position_up_to_date_witness :
  (two_in_contact !! 0%nat = Some (robot_at 0 0 1) /\ valid_index (robot_at 0 0 1))
  /\ exists r',
       animate (fun _ => sliders_50_50) two_in_contact !! 0%nat = Some r'
       /\ bounding_box r' = Box3_setFromObject (cube r') [piston_bottom r']
       /\ position_in_world r' = Object3D_getWorldPosition (cube r')
       /\ index r' = Nat.iter (events two_in_contact 0) flip_index (index (robot_at 0 0 1)).
Proof.
  assert (Hv : valid_index (robot_at 0 0 1)) by (left; reflexivity).
  split; [split; [reflexivity|exact Hv]|].
  exact (@frame_leaves_box_and_world_position_up_to_date model_host
           (fun _ => sliders_50_50) two_in_contact 0%nat (robot_at 0 0 1) eq_refl Hv).
Defined.

(** ** What a movement call does to the pose and to the velocities *)

Section Motion.
Context `{Host}.

Lemma integrate_position m ins r :
  primary_position m (integrate_phase m ins r)
  = advance m (primary_position m r) (primary_velocity m (_calculate_physics ins r))
  /\ secondary_position m (integrate_phase m ins r) = secondary_position m r
  /\ cube_position_y (integrate_phase m ins r) = cube_position_y r.
Proof. destruct m; repeat split. Qed.

Lemma integrate_velocities m ins r :
  angular_velocity (integrate_phase m ins r) = angular_velocity (_calculate_physics ins r)
  /\ translational_velocity (integrate_phase m ins r)
     = translational_velocity (_calculate_physics ins r).
Proof. destruct m; repeat split. Qed.

Lemma tipping_fires m r :
  Qgeb (Qabs (primary_rotation m r)) (tipping_point_angle r) = true ->
  primary_position m (tipping_phase m r)
  = advance m (primary_position m r) (primary_velocity m r)
  /\ secondary_position m (tipping_phase m r) = secondary_position m r
  /\ cube_position_y (tipping_phase m r) = cube_position_y r
  /\ translational_velocity (tipping_phase m r) = translational_velocity r
  /\ angular_velocity (tipping_phase m r)
     = Vector3.add (angular_velocity r) (Vector3.multiplyScalar (gravity r) (time_step r)).
Proof.
  intros Ht.
  destruct m; cbn [tipping_phase primary_rotation] in *; unfold_blocks;
    rewrite Ht; repeat split.
Qed.

Lemma landing_position m r :
  Mesh.position (cube (landing_phase m r)) = Mesh.position (cube r).
Proof. block_cases m; reflexivity. Qed.
End Motion.

Section Calls.
Context `{Host}.

Lemma same_position m a b :
  Mesh.position (cube a) = Mesh.position (cube b) ->
  primary_position m a = primary_position m b
  /\ secondary_position m a = secondary_position m b
  /\ cube_position_y a = cube_position_y b.
Proof.
  intros E.
  destruct m; unfold primary_position, secondary_position, cube_position_y,
    cube_position_x, cube_position_z; rewrite E; repeat split.
Qed.

Lemma fixed_at_tipping_check m ins r :
  fixed_fields (at_tipping_check m ins r) = fixed_fields r.
Proof. unfold at_tipping_check. now rewrite fixed_piston, fixed_integrate. Qed.

(** The state at the tipping point check: the pose and the velocities are
    those the first block left. *)
Lemma at_tipping_check_motion m ins r :
  cube (at_tipping_check m ins r) = cube (integrate_phase m ins r)
  /\ angular_velocity (at_tipping_check m ins r)
     = angular_velocity (_calculate_physics ins r)
  /\ translational_velocity (at_tipping_check m ins r)
     = translational_velocity (_calculate_physics ins r).
Proof.
  unfold at_tipping_check.
  destruct (piston_keeps_motion m (integrate_phase m ins r)) as (Eav & Etv & Ecube).
  destruct (integrate_velocities m ins r) as (Eav' & Etv').
  rewrite Eav, Etv, Ecube, Eav', Etv'. repeat split.
Qed.

Lemma tips_test m ins r :
  Qgeb (Qabs (primary_rotation m (at_tipping_check m ins r)))
       (tipping_point_angle (at_tipping_check m ins r))
  = tips m ins r.
Proof.
  unfold tips. pose proof (fixed_at_tipping_check m ins r) as E.
  unfold fixed_fields in E. f_equal. congruence.
Qed.

Lemma lands_test m ins r :
  Qgeb (Qabs (primary_rotation m (at_rotation_check m ins r)))
       (full_rotation (at_rotation_check m ins r))
  = lands m ins r.
Proof. unfold lands. now rewrite full_rotation_at_rotation_check. Qed.

Lemma primary_velocity_eq m a b :
  translational_velocity a = translational_velocity b ->
  primary_velocity m a = primary_velocity m b.
Proof. intros E. destruct m; unfold primary_velocity; now rewrite E. Qed.

Lemma move_position m ins r :
  primary_position m (move m ins r)
  = (if tips m ins r
     then advance m (advance m (primary_position m r)
                       (primary_velocity m (_calculate_physics ins r)))
                  (primary_velocity m (_calculate_physics ins r))
     else advance m (primary_position m r)
                  (primary_velocity m (_calculate_physics ins r)))
  /\ secondary_position m (move m ins r) = secondary_position m r
  /\ cube_position_y (move m ins r) = cube_position_y r.
Proof.
  destruct (integrate_position m ins r) as (Ep & Es & Ey).
  destruct (at_tipping_check_motion m ins r) as (Ecube & _ & Etv).
  pose proof (tips_test m ins r) as Etest.
  assert (Epos : Mesh.position (cube (at_tipping_check m ins r))
                 = Mesh.position (cube (integrate_phase m ins r)))
    by now rewrite Ecube.
  destruct (same_position m _ _ Epos) as (Ep2 & Es2 & Ey2).
  pose proof (primary_velocity_eq m _ _ Etv) as Ev.
  assert (Emove : Mesh.position (cube (move m ins r))
                  = Mesh.position (cube (at_rotation_check m ins r))).
  { rewrite move_blocks. cbv zeta.
    exact (landing_position m (at_rotation_check m ins r)). }
  destruct (same_position m _ _ Emove) as (Ep4 & Es4 & Ey4).
  rewrite Ep4, Es4, Ey4. unfold at_rotation_check.
  revert Ep2 Es2 Ey2 Ev Etest.
  generalize (at_tipping_check m ins r) as s. intros s Ep2 Es2 Ey2 Ev Etest.
  destruct (tips m ins r).
  - destruct (tipping_fires m s Etest) as (Ep3 & Es3 & Ey3 & _).
    rewrite Ep3, Es3, Ey3, Ep2, Es2, Ey2, Ev, Ep, Es, Ey. repeat split.
  - rewrite (tipping_skipped m s Etest).
    rewrite Ep2, Es2, Ey2, Ep, Es, Ey. repeat split.
Qed.

Lemma move_velocities m ins r :
  translational_velocity (move m ins r)
  = (if lands m ins r then Vector3.mk 0 0 0
     else translational_velocity (_calculate_physics ins r))
  /\ angular_velocity (move m ins r)
     = (if lands m ins r then Vector3.mk 0 0 0
        else if tips m ins r
             then Vector3.add (angular_velocity (_calculate_physics ins r))
                              (Vector3.multiplyScalar (gravity r) (time_step r))
             else angular_velocity (_calculate_physics ins r)).
Proof.
  destruct (at_tipping_check_motion m ins r) as (_ & Eav & Etv).
  pose proof (tips_test m ins r) as Etest.
  pose proof (lands_test m ins r) as Eland.
  pose proof (fixed_at_tipping_check m ins r) as Efix.
  assert (Eg : gravity (at_tipping_check m ins r) = gravity r
               /\ time_step (at_tipping_check m ins r) = time_step r)
    by (unfold fixed_fields in Efix; split; congruence).
  destruct Eg as (Eg & Edt).
  assert (Emove : angular_velocity (move m ins r)
                  = angular_velocity (landing_phase m (at_rotation_check m ins r))
                  /\ translational_velocity (move m ins r)
                     = translational_velocity
                         (landing_phase m (at_rotation_check m ins r))).
  { rewrite move_blocks. cbv zeta. split; reflexivity. }
  destruct Emove as (Ea4 & Et4). rewrite Ea4, Et4.
  revert Eland. unfold at_rotation_check.
  revert Eav Etv Etest Eg Edt.
  generalize (at_tipping_check m ins r) as s. intros s Eav Etv Etest Eg Edt Eland.
  destruct (lands m ins r).
  - destruct (landing_fires m _ Eland) as (E1 & E2 & _). now rewrite E1, E2.
  - rewrite (landing_skipped m _ Eland).
    destruct (tips m ins r).
    + destruct (tipping_fires m s Etest) as (_ & _ & _ & E1 & E2).
      rewrite E1, E2, Eav, Etv, Eg, Edt. split; reflexivity.
    + rewrite (tipping_skipped m s Etest). now rewrite Eav, Etv.
Qed.
End Calls.

Section Settle.
Context `{Host}.

Lemma settle_integrate m ins r :
  settle_state m (integrate_phase m ins r)
  = (Vector3.y (Mesh.rotation (cube r)), secondary_rotation m r,
     Math_random ins * (1 # 10) - (9 # 100)).
Proof. destruct m; reflexivity. Qed.

Lemma settle_piston m r : settle_state m (piston_phase m r) = settle_state m r.
Proof. block_cases m; reflexivity. Qed.

Lemma settle_tipping m r : settle_state m (tipping_phase m r) = settle_state m r.
Proof. block_cases m; reflexivity. Qed.

Lemma settle_landing m r :
  Vector3.y (Mesh.rotation (cube (landing_phase m r)))
  = (if Qgeb (Qabs (primary_rotation m r)) (full_rotation r)
     then random_value r else Vector3.y (Mesh.rotation (cube r)))
  /\ secondary_rotation m (landing_phase m r) = secondary_rotation m r
  /\ (Qgeb (Qabs (primary_rotation m r)) (full_rotation r) = true ->
      Vector3.y (piston_bottom_position (landing_phase m r)) = - piston_face_location r).
Proof.
  destruct m; cbn [landing_phase primary_rotation]; unfold_blocks;
    match goal with |- context [if ?b then _ else _] => destruct b end;
    repeat split; discriminate.
Qed.

Lemma move_settle m ins r :
  Vector3.y (Mesh.rotation (cube (move m ins r)))
  = (if lands m ins r then Math_random ins * (1 # 10) - (9 # 100)
     else Vector3.y (Mesh.rotation (cube r)))
  /\ secondary_rotation m (move m ins r) = secondary_rotation m r
  /\ (lands m ins r = true ->
      Vector3.y (piston_bottom_position (move m ins r)) = - piston_face_location r).
Proof.
  assert (Es : settle_state m (at_rotation_check m ins r)
               = (Vector3.y (Mesh.rotation (cube r)), secondary_rotation m r,
                  Math_random ins * (1 # 10) - (9 # 100))).
  { unfold at_rotation_check, at_tipping_check.
    now rewrite settle_tipping, settle_piston, settle_integrate. }
  pose proof (lands_test m ins r) as Eland.
  pose proof (fixed_at_rotation_check m ins r) as Efix.
  assert (Epfl : piston_face_location (at_rotation_check m ins r)
                 = piston_face_location r)
    by (unfold fixed_fields in Efix; congruence).
  assert (Emove :
    Vector3.y (Mesh.rotation (cube (move m ins r)))
    = Vector3.y (Mesh.rotation (cube (landing_phase m (at_rotation_check m ins r))))
    /\ secondary_rotation m (move m ins r)
       = secondary_rotation m (landing_phase m (at_rotation_check m ins r))
    /\ Vector3.y (piston_bottom_position (move m ins r))
       = Vector3.y (piston_bottom_position
                      (landing_phase m (at_rotation_check m ins r)))).
  { rewrite move_blocks. cbv zeta.
    generalize (landing_phase m (at_rotation_check m ins r)) as s. intros s.
    destruct m; repeat split. }
  destruct Emove as (E1 & E2 & E3). rewrite E1, E2, E3.
  revert Es Eland Epfl. generalize (at_rotation_check m ins r) as s.
  intros s Es Eland Epfl.
  destruct (settle_landing m s) as (L1 & L2 & L3).
  rewrite L1, L2, Eland. unfold settle_state in Es.
  injection Es as Ey Esec Ernd. rewrite Ey, Esec, Ernd.
  split; [reflexivity|]. split; [reflexivity|].
  intros Ht. rewrite Ht in Eland. rewrite (L3 Eland). now rewrite Epfl.
Qed.
End Settle.

(** X8.  A movement call translates the cube along one horizontal axis only
    (z for [move_away] and [move_closer], x for [move_left] and
    [move_right]), by the velocity the physics step has just stored, with no
    factor [time_step]: once when the rotation is below the tipping angle at
    the tipping point check, and twice in the same call when it is not (the
    tipping block repeats the translation).  The other horizontal coordinate
    and the height of the cube are never written. *)
Theorem move_translates_once_or_twice `{Host}
    (m : movement_fn) (ins : inputs) (r : cube_robot) :
  let v := primary_velocity m (_calculate_physics ins r) in
  primary_position m (move m ins r)
  = (if tips m ins r
     then advance m (advance m (primary_position m r) v) v
     else advance m (primary_position m r) v)
  /\ secondary_position m (move m ins r) = secondary_position m r
  /\ cube_position_y (move m ins r) = cube_position_y r.
Proof. cbv zeta. apply move_position. Qed.

(** X9.  The velocities at the end of a movement call: both are (0, 0, 0)
    when the rotation check of the call succeeds (landing); otherwise the
    translational velocity is the one the physics step computed (old velocity
    plus acceleration times [time_step], never damped), and the angular
    velocity is the one the physics step computed, plus [gravity * time_step]
    when the tipping point check succeeded. *)
Theorem move_accumulates_velocity_until_landing `{Host}
    (m : movement_fn) (ins : inputs) (r : cube_robot) :
  let after_physics := _calculate_physics ins r in
  translational_velocity (move m ins r)
  = (if lands m ins r then Vector3.mk 0 0 0
     else Vector3.add (translational_velocity r)
            (Vector3.multiplyScalar (translational_acceleration after_physics)
                                    (time_step r)))
  /\ angular_velocity (move m ins r)
     = (if lands m ins r then Vector3.mk 0 0 0
        else if tips m ins r
             then Vector3.add
                    (Vector3.add (angular_velocity r)
                       (Vector3.multiplyScalar (angular_acceleration after_physics)
                                               (time_step r)))
                    (Vector3.multiplyScalar (gravity r) (time_step r))
             else Vector3.add (angular_velocity r)
                    (Vector3.multiplyScalar (angular_acceleration after_physics)
                                            (time_step r))).
Proof.
  cbv zeta. destruct (move_velocities m ins r) as (Et & Ea).
  rewrite Et, Ea. split; reflexivity.
Qed.

(** X10.  After every movement call the magnitude of the primary rotation
    (about x for [move_away] and [move_closer], about z for [move_left] and
    [move_right]) is strictly below [full_rotation]: a rotation of 90 degrees
    or more never outlives the call in which it is reached.  The mass and the
    size are not zero, so that no division of the physics step is by zero and
    the rotation is a number. *)
Theorem rotation_below_full_after_move `{Host}
    (m : movement_fn) (ins : inputs) (r : cube_robot) :
  ~ mass_slider ins == 0 -> ~ Vector3.x (robot_size r) == 0 ->
  0 < full_rotation r ->
  Qabs (primary_rotation m (move m ins r)) < full_rotation r.
Proof.
  intros _ _ Hpos.
  rewrite move_blocks. cbv zeta. rewrite primary_rotation_set_position_in_world.
  pose proof (full_rotation_at_rotation_check m ins r) as Efull.
  revert Efull. generalize (at_rotation_check m ins r) as s. intros s Efull.
  destruct (Qgeb (Qabs (primary_rotation m s)) (full_rotation s)) eqn:Et.
  - destruct (landing_fires m s Et) as (_ & _ & ->). exact Hpos.
  - rewrite (landing_skipped m s Et). apply Qgeb_false in Et. now rewrite <- Efull.
Qed.

Lemma rotation_below_full_after_move_witness :
  (~ mass_slider sliders_50_50 == 0
   /\ ~ Vector3.x (robot_size robot_about_to_land) == 0
   /\ 0 < full_rotation robot_about_to_land)
  /\ Qabs (primary_rotation Away (move Away sliders_50_50 robot_about_to_land))
     < full_rotation robot_about_to_land.
Proof.
  assert (Hm : ~ mass_slider sliders_50_50 == 0) by (intros E; discriminate E).
  assert (Hs : ~ Vector3.x (robot_size robot_about_to_land) == 0)
    by (intros E; vm_compute in E; discriminate E).
  assert (Hpos : 0 < full_rotation robot_about_to_land) by reflexivity.
  split; [repeat split; assumption|].
  exact (@rotation_below_full_after_move model_host Away sliders_50_50
           robot_about_to_land Hm Hs Hpos).
Defined.

(** X11.  The rotation of the cube about y is written by the landing block
    only: a call that lands sets it to [Math.random() * 0.1 - 0.09], a number
    in [-0.09, 0.01) for a random number in [0, 1), and puts the bottom piston
    back at height [-piston_face_location]; a call that does not land leaves
    the rotation about y as it was.  The third rotation (about z for
    [move_away] and [move_closer], about x for [move_left] and [move_right])
    is never written. *)
Theorem landing_settles_about_y `{Host}
    (m : movement_fn) (ins : inputs) (r : cube_robot) :
  0 <= Math_random ins /\ Math_random ins < 1 ->
  Vector3.y (Mesh.rotation (cube (move m ins r)))
  = (if lands m ins r then Math_random ins * (1 # 10) - (9 # 100)
     else Vector3.y (Mesh.rotation (cube r)))
  /\ (lands m ins r = true ->
      - (9 # 100) <= Vector3.y (Mesh.rotation (cube (move m ins r)))
      /\ Vector3.y (Mesh.rotation (cube (move m ins r))) < 1 # 100
      /\ Vector3.y (piston_bottom_position (move m ins r)) = - piston_face_location r)
  /\ secondary_rotation m (move m ins r) = secondary_rotation m r.
Proof.
  intros (H0 & H1).
  destruct (move_settle m ins r) as (Ey & Es & Ep).
  split; [exact Ey|]. split; [|exact Es].
  intros Hl. rewrite Ey, Hl. split; [lra|]. split; [lra|]. exact (Ep Hl).
Qed.

Lemma landing_settles_about_y_witness :
  (0 <= Math_random sliders_50_50 /\ Math_random sliders_50_50 < 1)
  /\ lands Away sliders_50_50 robot_about_to_land = true
  /\ Vector3.y (Mesh.rotation (cube (move Away sliders_50_50 robot_about_to_land)))
     = (if lands Away sliders_50_50 robot_about_to_land
        then Math_random sliders_50_50 * (1 # 10) - (9 # 100)
        else Vector3.y (Mesh.rotation (cube robot_about_to_land)))
  /\ (lands Away sliders_50_50 robot_about_to_land = true ->
      - (9 # 100)
      <= Vector3.y (Mesh.rotation (cube (move Away sliders_50_50 robot_about_to_land)))
      /\ Vector3.y (Mesh.rotation (cube (move Away sliders_50_50 robot_about_to_land)))
         < 1 # 100
      /\ Vector3.y (piston_bottom_position (move Away sliders_50_50 robot_about_to_land))
         = - piston_face_location robot_about_to_land)
  /\ secondary_rotation Away (move Away sliders_50_50 robot_about_to_land)
     = secondary_rotation Away robot_about_to_land.
Proof.
  assert (Hu : 0 <= Math_random sliders_50_50 /\ Math_random sliders_50_50 < 1)
    by (split; [apply Qle_bool_iff|]; reflexivity).
  split; [exact Hu|]. split; [vm_compute; reflexivity|].
  exact (@landing_settles_about_y model_host Away sliders_50_50 robot_about_to_land Hu).
Defined.

(** ** What frames never change *)

Section Kept.
Context `{Host}.

Lemma constants_respond r : constants (respond r) = constants r.
Proof. unfold respond, constants. robot_index_cases r; reflexivity. Qed.

Lemma constants_of_fixed_fields a b : fixed_fields a = fixed_fields b -> constants a = constants b.
Proof. unfold fixed_fields, constants. intros E. congruence. Qed.

Lemma constants_dispatch ins r : constants (dispatch ins r) = constants r.
Proof.
  unfold dispatch.
  destruct (index r) as [[|p|p]|]; try reflexivity.
  do 3 (try destruct p as [p|p|]); try reflexivity; apply constants_of_fixed_fields;
    match goal with
    | |- fixed_fields (move_away _ _) = _ => exact (fixed_move Away ins r)
    | |- fixed_fields (move_closer _ _) = _ => exact (fixed_move Closer ins r)
    | |- fixed_fields (move_left _ _) = _ => exact (fixed_move Left ins r)
    | |- fixed_fields (move_right _ _) = _ => exact (fixed_move Right ins r)
    end.
Qed.

Lemma cube_respond r : cube (respond r) = cube r.
Proof. pose proof (kinematics_respond r) as E. unfold kinematics in E. congruence. Qed.

Lemma height_dispatch ins r : cube_position_y (dispatch ins r) = cube_position_y r.
Proof.
  unfold dispatch.
  destruct (index r) as [[|p|p]|]; try reflexivity.
  do 3 (try destruct p as [p|p|]); try reflexivity;
    match goal with
    | |- cube_position_y (move_away _ _) = _ =>
        exact (proj2 (proj2 (move_position Away ins r)))
    | |- cube_position_y (move_closer _ _) = _ =>
        exact (proj2 (proj2 (move_position Closer ins r)))
    | |- cube_position_y (move_left _ _) = _ =>
        exact (proj2 (proj2 (move_position Left ins r)))
    | |- cube_position_y (move_right _ _) = _ =>
        exact (proj2 (proj2 (move_position Right ins r)))
    end.
Qed.
End Kept.

(** X12.  Frames never add or remove a robot and never write the constants of
    a robot: after any number of frames the time step, the three angles, the
    tipping angle used by the pistons, gravity, the size, the piston
    constants and the name of every robot are those it started with.  The
    custom bounding box is among them: it stays the box of the position the
    robot was constructed at, however far the cube has moved since. *)
Theorem frames_never_write_the_constants `{Host}
    (frames : list (nat -> inputs)) (robot_array : list cube_robot)
    (k : nat) (r : cube_robot) :
  robot_array !! k = Some r ->
  length (run_frames frames robot_array) = length robot_array
  /\ exists r',
       run_frames frames robot_array !! k = Some r'
       /\ constants r' = constants r
       /\ custom_bounding_box r' = custom_bounding_box r
       /\ name r' = name r.
Proof.
  intros Hk. split; [apply run_frames_length|].
  destruct (run_frames_invariant (fun s => constants s = constants r))
    with (frames := frames) (l := robot_array) (k := k) (r := r)
    as (r' & Hr' & Ec); try assumption.
  - intros s Es. now rewrite constants_respond.
  - intros ins s Es. now rewrite constants_dispatch.
  - reflexivity.
  - exists r'. split; [exact Hr'|]. split; [exact Ec|].
    unfold constants in Ec. split; congruence.
Qed.

Lemma frames_never_write_the_constants_witness :
  two_in_contact !! 1%nat = Some (robot_at (3 # 2) 1 3)
  /\ length (run_frames some_frames two_in_contact) = length two_in_contact
  /\ exists r',
       run_frames some_frames two_in_contact !! 1%nat = Some r'
       /\ constants r' = constants (robot_at (3 # 2) 1 3)
       /\ custom_bounding_box r' = custom_bounding_box (robot_at (3 # 2) 1 3)
       /\ name r' = name (robot_at (3 # 2) 1 3).
Proof.
  split; [reflexivity|].
  exact (@frames_never_write_the_constants model_host some_frames two_in_contact
           1%nat (robot_at (3 # 2) 1 3) eq_refl).
Defined.

(** X13.  No robot ever leaves its height: the collision pass writes no
    position and the four movement functions write only [position.x] or
    [position.z] of the cube, so after any number of frames [cube.position.y]
    of every robot is the value it started with. *)
Theorem robots_keep_their_height `{Host}
    (frames : list (nat -> inputs)) (robot_array : list cube_robot)
    (k : nat) (r : cube_robot) :
  robot_array !! k = Some r ->
  exists r',
    run_frames frames robot_array !! k = Some r'
    /\ Vector3.y (Mesh.position (cube r')) = Vector3.y (Mesh.position (cube r)).
Proof.
  intros Hk.
  apply (run_frames_invariant (fun s => cube_position_y s = cube_position_y r))
    with (r := r); try assumption.
  - intros s Es. unfold cube_position_y in *. now rewrite cube_respond.
  - intros ins s Es. now rewrite height_dispatch.
  - reflexivity.
Qed.

Lemma robots_keep_their_height_witness :
  two_in_contact !! 0%nat = Some (robot_at 0 0 1)
  /\ exists r',
       run_frames some_frames two_in_contact !! 0%nat = Some r'
       /\ Vector3.y (Mesh.position (cube r'))
          = Vector3.y (Mesh.position (cube (robot_at 0 0 1))).
Proof.
  split; [reflexivity|].
  exact (@robots_keep_their_height model_host some_frames two_in_contact 0%nat
           (robot_at 0 0 1) eq_refl).
Defined.

(** ** The two horizontal components of the velocities *)

Section Horizontal.
Context `{Host}.

Lemma horizontal_respond r :
  horizontal_components_equal r -> horizontal_components_equal (respond r).
Proof.
  unfold horizontal_components_equal.
  pose proof (kinematics_respond r) as Ek. pose proof (constants_respond r) as Ec.
  unfold kinematics in Ek. unfold constants in Ec.
  injection Ek as _ Eav Etv _ _. 
  assert (Eg : gravity (respond r) = gravity r) by congruence.
  now rewrite Eav, Etv, Eg.
Qed.

Lemma horizontal_move m ins r :
  horizontal_components_equal r -> horizontal_components_equal (move m ins r).
Proof.
  unfold horizontal_components_equal. intros (Eg & Ea & Et).
  destruct (move_velocities m ins r) as (Etv & Eav).
  destruct (physics_velocities ins r) as (Pa & Pt).
  pose proof (fixed_move m ins r) as Efix.
  assert (Egr : gravity (move m ins r) = gravity r)
    by (unfold fixed_fields in Efix; congruence).
  rewrite Egr, Etv, Eav, Pa, Pt.
  split; [exact Eg|].
  destruct (lands m ins r); [split; reflexivity|].
  split.
  - destruct (tips m ins r); cbn [Vector3.add Vector3.multiplyScalar Vector3.divideScalar
                                   Vector3.x Vector3.z]; now rewrite Ea, ?Eg.
  - cbn [Vector3.add Vector3.multiplyScalar Vector3.divideScalar Vector3.x Vector3.z].
    now rewrite Et.
Qed.

Lemma horizontal_dispatch ins r :
  horizontal_components_equal r -> horizontal_components_equal (dispatch ins r).
Proof.
  intros Hr. unfold dispatch.
  destruct (index r) as [[|p|p]|]; try exact Hr.
  do 3 (try destruct p as [p|p|]); try exact Hr;
    match goal with
    | |- _ (move_away _ _) => exact (horizontal_move Away ins r Hr)
    | |- _ (move_closer _ _) => exact (horizontal_move Closer ins r Hr)
    | |- _ (move_left _ _) => exact (horizontal_move Left ins r Hr)
    | |- _ (move_right _ _) => exact (horizontal_move Right ins r Hr)
    end.
Qed.
End Horizontal.

(** X14.  The x and z components of the angular velocity are always equal,
    and so are those of the translational velocity: for a robot that starts
    with equal components (the constructor gives zero velocities and gravity
    (0, 98, 0)), they are still equal after any number of frames.  The physics
    step pushes both horizontal axes with the same numbers whatever the
    direction index; only the movement function called decides which
    component is read. *)
Theorem horizontal_velocity_components_stay_equal `{Host}
    (frames : list (nat -> inputs)) (robot_array : list cube_robot)
    (k : nat) (r : cube_robot) :
  robot_array !! k = Some r ->
  horizontal_components_equal r ->
  exists r',
    run_frames frames robot_array !! k = Some r'
    /\ Vector3.x (angular_velocity r') = Vector3.z (angular_velocity r')
    /\ Vector3.x (translational_velocity r') = Vector3.z (translational_velocity r').
Proof.
  intros Hk Hr.
  destruct (run_frames_invariant horizontal_components_equal)
    with (frames := frames) (l := robot_array) (k := k) (r := r)
    as (r' & Hr' & _ & Ea & Et); try assumption.
  - apply horizontal_respond.
  - intros ins s. apply horizontal_dispatch.
  - exists r'. repeat split; assumption.
Qed.

Lemma horizontal_velocity_components_stay_equal_witness :
  (two_in_contact !! 0%nat = Some (robot_at 0 0 1)
   /\ horizontal_components_equal (robot_at 0 0 1))
  /\ exists r',
       run_frames some_frames two_in_contact !! 0%nat = Some r'
       /\ Vector3.x (angular_velocity r') = Vector3.z (angular_velocity r')
       /\ Vector3.x (translational_velocity r')
          = Vector3.z (translational_velocity r').
Proof.
  assert (Hr : horizontal_components_equal (robot_at 0 0 1)) by (repeat split).
  split; [split; [reflexivity|exact Hr]|].
  exact (@horizontal_velocity_components_stay_equal model_host some_frames
           two_in_contact 0%nat (robot_at 0 0 1) eq_refl Hr).
Defined.

(** ** The direction of travel *)

Section Direction.
Context `{Host}.

Lemma primary_velocity_after_physics m ins r :
  primary_velocity m (_calculate_physics ins r)
  = primary_velocity m r
    + piston_output ins / 100 * Math_cos (angle r) / (mass_slider ins / 1000)
      * time_step r.
Proof. destruct m; reflexivity. Qed.

Lemma push_positive ins r :
  0 < piston_output ins -> 0 < mass_slider ins -> 0 < Math_cos (angle r) ->
  0 < time_step r ->
  0 < piston_output ins / 100 * Math_cos (angle r) / (mass_slider ins / 1000)
      * time_step r.
Proof.
  intros Hp Hm Hc Hdt.
  apply Qmult_lt_0_compat; [|exact Hdt].
  assert (Hmass : 0 < mass_slider ins / 1000)
    by (apply Qlt_shift_div_l; [reflexivity|lra]).
  assert (Hforce : 0 < piston_output ins / 100)
    by (apply Qlt_shift_div_l; [reflexivity|lra]).
  apply Qlt_shift_div_l; [exact Hmass|].
  rewrite Qmult_0_l.
  apply Qmult_lt_0_compat; [exact Hforce|exact Hc].
Qed.
End Direction.

(** X15.  A movement call moves the cube the way its name says.  With a
    positive piston force, a positive mass, a positive time step and a
    positive cosine of the piston angle, and a velocity component that is not
    negative before the call, the component the function reads is positive
    after the physics step, [move_away] strictly decreases [position.z],
    [move_closer] strictly increases it, [move_left] strictly decreases
    [position.x] and [move_right] strictly increases it. *)
Theorem move_goes_the_way_of_its_name `{Host}
    (m : movement_fn) (ins : inputs) (r : cube_robot) :
  0 < piston_output ins -> 0 < mass_slider ins ->
  0 < Math_cos (angle r) -> 0 < time_step r ->
  0 <= primary_velocity m r ->
  0 < primary_velocity m (_calculate_physics ins r)
  /\ match m with
     | Away | Left => primary_position m (move m ins r) < primary_position m r
     | Closer | Right => primary_position m r < primary_position m (move m ins r)
     end.
Proof.
  intros Hp Hm Hc Hdt Hv.
  pose proof (push_positive ins r Hp Hm Hc Hdt) as Hpush.
  pose proof (primary_velocity_after_physics m ins r) as Ev.
  destruct (move_position m ins r) as (Epos & _).
  assert (Hpos : 0 < primary_velocity m (_calculate_physics ins r))
    by (rewrite Ev; lra).
  split; [exact Hpos|].
  rewrite Epos. clear Epos Ev.
  revert Hpos. generalize (primary_velocity m (_calculate_physics ins r)) as v.
  generalize (primary_position m r) as p. intros p v Hpos.
  destruct m, (tips _ ins r); cbn [advance]; lra.
Qed.

Lemma move_goes_the_way_of_its_name_witness :
  (0 < piston_output sliders_50_50 /\ 0 < mass_slider sliders_50_50
   /\ 0 < Math_cos (angle fresh_robot) /\ 0 < time_step fresh_robot
   /\ 0 <= primary_velocity Away fresh_robot)
  /\ 0 < primary_velocity Away (_calculate_physics sliders_50_50 fresh_robot)
  /\ primary_position Away (move Away sliders_50_50 fresh_robot)
     < primary_position Away fresh_robot.
Proof.
  assert (Hp : 0 < piston_output sliders_50_50) by reflexivity.
  assert (Hm : 0 < mass_slider sliders_50_50) by reflexivity.
  assert (Hc : 0 < Math_cos (angle fresh_robot)) by reflexivity.
  assert (Hdt : 0 < time_step fresh_robot) by reflexivity.
  assert (Hv : 0 <= primary_velocity Away fresh_robot)
    by (apply Qle_bool_iff; reflexivity).
  split; [repeat split; assumption|].
  exact (@move_goes_the_way_of_its_name model_host Away sliders_50_50 fresh_robot
           Hp Hm Hc Hdt Hv).
Defined.

(** ** A robot at rest *)

Section Rest.
Context `{Host}.

Lemma integrate_rotation m ins r :
  Mesh.rotation (cube (integrate_phase m ins r))
  = match m with
    | Away =>
        Vector3.set_x (cube_rotation_x r
                       - Vector3.z (angular_velocity (_calculate_physics ins r))
                         * time_step r)
                      (Mesh.rotation (cube r))
    | Closer =>
        Vector3.set_x (cube_rotation_x r
                       + Vector3.z (angular_velocity (_calculate_physics ins r))
                         * time_step r)
                      (Mesh.rotation (cube r))
    | Left =>
        Vector3.set_z (cube_rotation_z r
                       + Vector3.x (angular_velocity (_calculate_physics ins r))
                         * time_step r)
                      (Mesh.rotation (cube r))
    | Right =>
        Vector3.set_z (cube_rotation_z r
                       - Vector3.x (angular_velocity (_calculate_physics ins r))
                         * time_step r)
                      (Mesh.rotation (cube r))
    end.
Proof. destruct m; reflexivity. Qed.

Lemma move_below_tipping_cube m ins r :
  Qabs (primary_rotation m (integrate_phase m ins r)) < tipping_point_angle r ->
  tipping_point_angle r <= full_rotation r ->
  cube (move m ins r) = cube (integrate_phase m ins r) /\ tips m ins r = false.
Proof.
  intros Hlt Hle.
  pose proof (fixed_integrate m ins r) as Ei.
  pose proof (fixed_piston m (integrate_phase m ins r)) as Ep.
  destruct (piston_keeps_motion m (integrate_phase m ins r)) as (_ & _ & Ecube).
  assert (Etips : tips m ins r = false).
  { unfold tips, at_tipping_check. apply Qgeb_false.
    now rewrite (primary_rotation_cube m _ _ Ecube). }
  split; [|exact Etips].
  rewrite <- tips_test in Etips.
  rewrite move_blocks. unfold at_rotation_check. cbv zeta.
  rewrite (tipping_skipped m _ Etips).
  assert (Hl : landing_phase m (at_tipping_check m ins r) = at_tipping_check m ins r).
  { apply landing_skipped. apply Qgeb_false.
    pose proof (fixed_at_tipping_check m ins r) as Efix.
    assert (Efull : full_rotation (at_tipping_check m ins r) = full_rotation r)
      by (unfold fixed_fields in Efix; congruence).
    rewrite Efull. unfold at_tipping_check.
    rewrite (primary_rotation_cube m _ _ Ecube).
    eapply Qlt_le_trans; eassumption. }
  rewrite Hl. exact Ecube.
Qed.

Lemma physics_without_force ins r :
  piston_output ins == 0 ->
  Vector3.equiv (angular_velocity (_calculate_physics ins r)) (angular_velocity r)
  /\ Vector3.equiv (translational_velocity (_calculate_physics ins r))
                   (translational_velocity r).
Proof.
  intros Hp. destruct (physics_velocities ins r) as (Pa & Pt). rewrite Pa, Pt.
  unfold Vector3.equiv.
  cbn [Vector3.add Vector3.multiplyScalar Vector3.divideScalar
       Vector3.x Vector3.y Vector3.z].
  rewrite Hp. unfold Qdiv. repeat split; ring.
Qed.
End Rest.

(** X16.  Without piston force a robot at rest does not move: when the
    [piston_output] slider is 0, both velocities are zero and the primary
    rotation is below the tipping angle, a movement call leaves the position
    and the rotation of the cube and both velocities as they were (as
    numbers).  Gravity plays no part: the torque it gives is stored and never
    used, so a robot tilted by less than 45 degrees stays tilted.  The mass
    and the size are not zero, so that no division of the source is by
    zero. *)
Theorem without_piston_force_a_resting_robot_stays `{Host}
    (m : movement_fn) (ins : inputs) (r : cube_robot) :
  piston_output ins == 0 ->
  ~ mass_slider ins == 0 -> ~ Vector3.x (robot_size r) == 0 ->
  Vector3.equiv (angular_velocity r) Vector3.zero ->
  Vector3.equiv (translational_velocity r) Vector3.zero ->
  Qabs (primary_rotation m r) < tipping_point_angle r ->
  tipping_point_angle r <= full_rotation r ->
  Vector3.equiv (Mesh.position (cube (move m ins r))) (Mesh.position (cube r))
  /\ Vector3.equiv (Mesh.rotation (cube (move m ins r))) (Mesh.rotation (cube r))
  /\ Vector3.equiv (angular_velocity (move m ins r)) Vector3.zero
  /\ Vector3.equiv (translational_velocity (move m ins r)) Vector3.zero.
Proof.
  intros Hp _ _ (Hax & Hay & Haz) (Htx & Hty & Htz) Hrot Hle.
  destruct (physics_without_force ins r Hp) as ((Pax & Pay & Paz) & (Ptx & Pty & Ptz)).
  cbn [Vector3.zero Vector3.x Vector3.y Vector3.z] in *.
  pose proof (integrate_rotation m ins r) as Erot.
  assert (Hsame : primary_rotation m (integrate_phase m ins r) == primary_rotation m r).
  { destruct m; unfold primary_rotation, cube_rotation_x, cube_rotation_z in *;
      rewrite Erot; cbn [Vector3.set_x Vector3.set_z Vector3.x Vector3.z];
      rewrite ?Paz, ?Pax, ?Haz, ?Hax; ring. }
  assert (Hbelow : Qabs (primary_rotation m (integrate_phase m ins r))
                   < tipping_point_angle r) by now rewrite Hsame.
  destruct (move_below_tipping m ins r Hbelow Hle) as (Eav & Etv).
  destruct (move_below_tipping_cube m ins r Hbelow Hle) as (Ecube & Etips).
  destruct (integrate_position m ins r) as (Epp & Esp & Eyp).
  pose proof (primary_velocity_after_physics m ins r) as Ev.
  rewrite Eav, Etv, Ecube.
  split; [|split; [|split]].
  - unfold Vector3.equiv.
    destruct m; unfold primary_position, secondary_position, cube_position_y,
      primary_velocity, cube_position_x, cube_position_z, advance in *;
      rewrite Epp, Esp, Eyp; rewrite ?Ptz, ?Ptx, ?Htz, ?Htx;
      repeat split; ring.
  - rewrite Erot. unfold Vector3.equiv, cube_rotation_x, cube_rotation_z.
    destruct m; cbn [Vector3.set_x Vector3.set_z Vector3.x Vector3.y Vector3.z];
      rewrite ?Paz, ?Pax, ?Haz, ?Hax; repeat split; ring.
  - unfold Vector3.equiv. cbn [Vector3.zero Vector3.x Vector3.y Vector3.z].
    rewrite Pax, Pay, Paz, Hax, Hay, Haz. repeat split; reflexivity.
  - unfold Vector3.equiv. cbn [Vector3.zero Vector3.x Vector3.y Vector3.z].
    rewrite Ptx, Pty, Ptz, Htx, Hty, Htz. repeat split; reflexivity.
Qed.

Lemma without_piston_force_a_resting_robot_stays_witness :
  (piston_output sliders_0_50 == 0
   /\ ~ mass_slider sliders_0_50 == 0 /\ ~ Vector3.x (robot_size fresh_robot) == 0
   /\ Vector3.equiv (angular_velocity fresh_robot) Vector3.zero
   /\ Vector3.equiv (translational_velocity fresh_robot) Vector3.zero
   /\ Qabs (primary_rotation Away fresh_robot) < tipping_point_angle fresh_robot
   /\ tipping_point_angle fresh_robot <= full_rotation fresh_robot)
  /\ Vector3.equiv (Mesh.position (cube (move Away sliders_0_50 fresh_robot)))
                   (Mesh.position (cube fresh_robot))
  /\ Vector3.equiv (Mesh.rotation (cube (move Away sliders_0_50 fresh_robot)))
                   (Mesh.rotation (cube fresh_robot))
  /\ Vector3.equiv (angular_velocity (move Away sliders_0_50 fresh_robot)) Vector3.zero
  /\ Vector3.equiv (translational_velocity (move Away sliders_0_50 fresh_robot))
                   Vector3.zero.
Proof.
  assert (Hp : piston_output sliders_0_50 == 0) by reflexivity.
  assert (Hm : ~ mass_slider sliders_0_50 == 0) by (intros E; discriminate E).
  assert (Hs : ~ Vector3.x (robot_size fresh_robot) == 0)
    by (intros E; vm_compute in E; discriminate E).
  assert (Ha : Vector3.equiv (angular_velocity fresh_robot) Vector3.zero)
    by (repeat split).
  assert (Ht : Vector3.equiv (translational_velocity fresh_robot) Vector3.zero)
    by (repeat split).
  assert (Hr : Qabs (primary_rotation Away fresh_robot) < tipping_point_angle fresh_robot)
    by reflexivity.
  assert (Hle : tipping_point_angle fresh_robot <= full_rotation fresh_robot)
    by (apply Qle_bool_iff; reflexivity).
  split; [repeat split; assumption|].
  exact (@without_piston_force_a_resting_robot_stays model_host Away sliders_0_50
           fresh_robot Hp Hm Hs Ha Ht Hr Hle).
Defined.

(** ** The rotation a movement call gives *)

Section Turning.
Context `{Host}.

Lemma integrate_turn m ins r :
  primary_rotation m (integrate_phase m ins r)
  = turn m (primary_rotation m r)
         (integrate_spin m (angular_velocity (_calculate_physics ins r)) * time_step r).
Proof. destruct m; reflexivity. Qed.

Lemma tipping_turn m r :
  Qgeb (Qabs (primary_rotation m r)) (tipping_point_angle r) = true ->
  primary_rotation m (tipping_phase m r)
  = turn m (primary_rotation m r)
         (tipping_spin m (Vector3.add (angular_velocity r)
                            (Vector3.multiplyScalar (gravity r) (time_step r)))
          * time_step r).
Proof.
  intros Ht. destruct m; cbn [primary_rotation tipping_phase] in *.
  - exact (move_away_tipping_rotation r Ht).
  - exact (move_closer_tipping_rotation r Ht).
  - exact (move_left_tipping_rotation r Ht).
  - exact (move_right_tipping_rotation r Ht).
Qed.
End Turning.

(** X26.  The primary rotation at the end of a movement call.  It is 0 when
    the call lands.  Otherwise the first block has turned the cube by
    [time_step] times one component of the angular velocity the physics step
    stored (z for [move_away] and [move_closer], x for [move_left] and
    [move_right]), and, when the tipping point check succeeded, the tipping
    block has turned it once more by [time_step] times a component of that
    velocity plus [gravity * time_step]: the y component for [move_away] and
    [move_closer], the x component for [move_left] and [move_right].  The
    rotation decreases in [move_away] and [move_right] and increases in
    [move_closer] and [move_left]. *)
Theorem move_turns_once_or_twice `{Host}
    (m : movement_fn) (ins : inputs) (r : cube_robot) :
  let w := angular_velocity (_calculate_physics ins r) in
  let first := turn m (primary_rotation m r) (integrate_spin m w * time_step r) in
  let w' := Vector3.add w (Vector3.multiplyScalar (gravity r) (time_step r)) in
  primary_rotation m (move m ins r)
  = (if lands m ins r then 0
     else if tips m ins r then turn m first (tipping_spin m w' * time_step r)
          else first).
Proof.
  cbv zeta.
  destruct (at_tipping_check_motion m ins r) as (Ecube & Eav & _).
  pose proof (tips_test m ins r) as Etest.
  pose proof (lands_test m ins r) as Eland.
  pose proof (fixed_at_tipping_check m ins r) as Efix.
  assert (Eg : gravity (at_tipping_check m ins r) = gravity r
               /\ time_step (at_tipping_check m ins r) = time_step r)
    by (unfold fixed_fields in Efix; split; congruence).
  destruct Eg as (Eg & Edt).
  pose proof (primary_rotation_cube m _ _ Ecube) as Erot.
  rewrite integrate_turn in Erot.
  rewrite move_blocks. cbv zeta. rewrite primary_rotation_set_position_in_world.
  revert Eland. unfold at_rotation_check.
  revert Eav Etest Eg Edt Erot.
  generalize (at_tipping_check m ins r) as s. intros s Eav Etest Eg Edt Erot Eland.
  destruct (lands m ins r).
  - now destruct (landing_fires m _ Eland) as (_ & _ & ->).
  - rewrite (landing_skipped m _ Eland).
    destruct (tips m ins r).
    + rewrite (tipping_turn m s Etest), Eav, Eg, Edt, Erot. reflexivity.
    + rewrite (tipping_skipped m s Etest). exact Erot.
Qed.

(** ** Several calls in a row *)

Section Undamped.
Context `{Host}.

Lemma translational_acceleration_physics ins r :
  translational_acceleration (_calculate_physics ins r)
  = Vector3.divideScalar
      (Vector3.mk (piston_output ins / 100 * Math_cos (angle r)) 0
                  (piston_output ins / 100 * Math_cos (angle r)))
      (mass_slider ins / 1000).
Proof. reflexivity. Qed.

Lemma iter_move_fixed m ins n r :
  fixed_fields (Nat.iter n (move m ins) r) = fixed_fields r.
Proof.
  induction n as [|n IH]; [reflexivity|].
  rewrite Nat.iter_succ, fixed_move. exact IH.
Qed.
End Undamped.

(** X28.  The integrator is not damped: as long as no call lands, [n]
    successive calls of a movement function with the same slider values add
    [n] times the same increment to the translational velocity, which is then
    the initial velocity plus [n * time_step] times the translational
    acceleration (as numbers).  Only a landing takes velocity away.  The mass
    is not zero, so that the acceleration is a number. *)
Theorem velocity_grows_linearly_between_landings `{Host}
    (m : movement_fn) (ins : inputs) (r : cube_robot) (n : nat) :
  ~ mass_slider ins == 0 ->
  (forall j, (j < n)%nat -> lands m ins (Nat.iter j (move m ins) r) = false) ->
  Vector3.equiv
    (translational_velocity (Nat.iter n (move m ins) r))
    (Vector3.add (translational_velocity r)
       (Vector3.multiplyScalar (translational_acceleration (_calculate_physics ins r))
                               (inject_Z (Z.of_nat n) * time_step r))).
Proof.
  intros _. induction n as [|n IH]; intros Hno.
  - cbn [Nat.iter nat_rect]. unfold Vector3.equiv.
    cbn [Vector3.add Vector3.multiplyScalar Vector3.x Vector3.y Vector3.z].
    change (inject_Z (Z.of_nat 0)) with 0. repeat split; ring.
  - rewrite Nat.iter_succ.
    destruct (move_velocities m ins (Nat.iter n (move m ins) r)) as (Etv & _).
    rewrite Etv, (Hno n) by lia.
    destruct (physics_velocities ins (Nat.iter n (move m ins) r)) as (_ & Pt).
    rewrite Pt.
    pose proof (iter_move_fixed m ins n r) as Efix.
    assert (Eangle : angle (Nat.iter n (move m ins) r) = angle r
                     /\ time_step (Nat.iter n (move m ins) r) = time_step r)
      by (unfold fixed_fields in Efix; split; congruence).
    destruct Eangle as (Eangle & Edt). rewrite Eangle, Edt.
    destruct IH as (Ex & Ey & Ez); [intros j Hj; apply Hno; lia|].
    rewrite translational_acceleration_physics in *.
    unfold Vector3.equiv in *.
    cbn [Vector3.add Vector3.multiplyScalar Vector3.divideScalar
         Vector3.x Vector3.y Vector3.z] in *.
    rewrite Ex, Ey, Ez.
    rewrite Nat2Z.inj_succ. unfold Z.succ. rewrite inject_Z_plus.
    change (inject_Z 1) with 1. repeat split; ring.
Qed.

Lemma velocity_grows_linearly_between_landings_witness :
  (~ mass_slider sliders_50_50 == 0
   /\ forall j, (j < 2)%nat ->
        lands Away sliders_50_50 (Nat.iter j (move Away sliders_50_50) fresh_robot)
        = false)
  /\ Vector3.equiv
       (translational_velocity (Nat.iter 2 (move Away sliders_50_50) fresh_robot))
       (Vector3.add (translational_velocity fresh_robot)
          (Vector3.multiplyScalar
             (translational_acceleration (_calculate_physics sliders_50_50 fresh_robot))
             (inject_Z (Z.of_nat 2) * time_step fresh_robot))).
Proof.
  assert (Hno : forall j, (j < 2)%nat ->
            lands Away sliders_50_50 (Nat.iter j (move Away sliders_50_50) fresh_robot)
            = false).
  { intros [|[|j]] Hj; [vm_compute; reflexivity | vm_compute; reflexivity | lia]. }
  assert (Hm : ~ mass_slider sliders_50_50 == 0) by (intros E; discriminate E).
  split; [split; [exact Hm|exact Hno]|].
  exact (@velocity_grows_linearly_between_landings model_host Away sliders_50_50
           fresh_robot 2 Hm Hno).
Defined.

(** ** The robots the placement loop returns *)

Section Placed.
Context `{Host}.

Lemma placed_by_snoc random (acc : list cube_robot) (robot : cube_robot) :
  placed_by random acc ->
  (exists c,
     robot = set_index
               (array_get movement
                  (Qfloor (random (c + 2)%nat * inject_Z (Z.of_nat (length movement)))))
               (candidate random c (length acc))
     /\ collision_detected (candidate random c (length acc)) acc = false) ->
  placed_by random (acc ++ [robot]).
Proof.
  intros Hacc (c & Er & Hfree) k r Hk.
  destruct (decide (k < length acc)%nat) as [Hlt|Hge].
  - rewrite lookup_app_l in Hk by lia.
    destruct (Hacc k r Hk) as (c' & Er' & Hfree').
    exists c'. split; [exact Er'|].
    rewrite take_app_le by lia. exact Hfree'.
  - assert (Ek : k = length acc).
    { apply lookup_lt_Some in Hk. rewrite length_app in Hk. cbn in Hk. lia. }
    subst k. rewrite list_lookup_middle in Hk by reflexivity. injection Hk as <-.
    exists c. split; [exact Er|].
    rewrite take_app_length. exact Hfree.
Qed.

Lemma initialize_robots_from_placed_by random v fuel :
  forall cursor acc robots,
    placed_by random acc ->
    initialize_robots_from fuel random cursor (length acc) v acc = Some robots ->
    placed_by random robots.
Proof.
  induction fuel as [|fuel IH]; intros cursor acc robots Hacc; [discriminate|].
  cbn [initialize_robots_from].
  destruct (counter_less_than (length acc) v).
  - destruct (place_robot fuel random cursor (length acc) acc)
      as [[robot cursor']|] eqn:Ep; [|discriminate].
    destruct (place_robot_candidate _ _ _ _ _ _ _ Ep) as (c & _ & -> & -> & Hfree).
    intros Hrun.
    match type of Hrun with
    | initialize_robots_from _ _ _ _ _ (acc ++ [?x]) = _ =>
        replace (S (length acc)) with (length (acc ++ [x])) in Hrun
          by (rewrite length_app; cbn [length]; lia)
    end.
    eapply IH; [|exact Hrun].
    apply placed_by_snoc; [exact Hacc|].
    exists c. split; [reflexivity|exact Hfree].
  - intros [= <-]. exact Hacc.
Qed.
End Placed.

(** X17.  Every robot [initialize_robots] returns is a candidate the overlap
    check accepted: robot [k] of the array is the robot constructed at
    [(36 u - 18, 1.3, 36 u' - 18)] for two consecutive values [u], [u'] of
    [Math.random], its box intersects the box of none of the robots before it
    in the array, its index is taken from [movement] with the next random
    value, and its name is the text "Robot" followed by [k + 1].  It has no
    rotation and no velocity, its stored world position is still (0, 0, 0),
    and for random values in [0, 1) its x and z lie in [-18, 18). *)
Theorem placed_robots_are_accepted_candidates `{Host}
    (fuel : nat) (random : nat -> Q) (num_robots : jsval) (robots : list cube_robot) :
  initialize_robots fuel random num_robots = Some robots ->
  forall k r, robots !! k = Some r ->
    exists c,
      r = set_index
            (array_get movement
               (Qfloor (random (c + 2)%nat * inject_Z (Z.of_nat (length movement)))))
            (candidate random c k)
      /\ collision_detected (candidate random c k) (take k robots) = false
      /\ name r = robot_name k
      /\ Mesh.position (cube r)
         = Vector3.mk (random c * 36 - 18) (13 # 10) (random (S c) * 36 - 18)
      /\ Mesh.rotation (cube r) = Vector3.zero
      /\ angular_velocity r = Vector3.zero
      /\ translational_velocity r = Vector3.zero
      /\ position_in_world r = Vector3.zero
      /\ (0 <= random c < 1 -> 0 <= random (S c) < 1 ->
          - 18 <= cube_position_x r < 18 /\ - 18 <= cube_position_z r < 18).
Proof.
  intros Hrun k r Hk.
  assert (Hplaced : placed_by random robots).
  { apply (initialize_robots_from_placed_by random num_robots fuel 0 []);
      [|exact Hrun].
    intros k' r' Hk'. rewrite lookup_nil in Hk'. discriminate. }
  destruct (Hplaced k r Hk) as (c & Er & Hfree).
  exists c. split; [exact Er|]. split; [exact Hfree|].
  rewrite Er. repeat split; cbn; lra.
Qed.

Lemma placed_robots_are_accepted_candidates_witness :
  initialize_robots 6 random_with_rejection (JNumber 2) = Some placed_with_rejection
  /\ placed_with_rejection !! 1%nat
     = Some (set_index (Some 4%Z) (candidate random_with_rejection 5 1))
  /\ exists c,
       set_index (Some 4%Z) (candidate random_with_rejection 5 1)
       = set_index
           (array_get movement
              (Qfloor (random_with_rejection (c + 2)%nat
                       * inject_Z (Z.of_nat (length movement)))))
           (candidate random_with_rejection c 1)
       /\ collision_detected (candidate random_with_rejection c 1)
            (take 1 placed_with_rejection) = false
       /\ name (set_index (Some 4%Z) (candidate random_with_rejection 5 1))
          = robot_name 1
       /\ Mesh.position (cube (set_index (Some 4%Z) (candidate random_with_rejection 5 1)))
          = Vector3.mk (random_with_rejection c * 36 - 18) (13 # 10)
                       (random_with_rejection (S c) * 36 - 18)
       /\ Mesh.rotation (cube (set_index (Some 4%Z) (candidate random_with_rejection 5 1)))
          = Vector3.zero
       /\ angular_velocity (set_index (Some 4%Z) (candidate random_with_rejection 5 1))
          = Vector3.zero
       /\ translational_velocity (set_index (Some 4%Z) (candidate random_with_rejection 5 1))
          = Vector3.zero
       /\ position_in_world (set_index (Some 4%Z) (candidate random_with_rejection 5 1))
          = Vector3.zero
       /\ (0 <= random_with_rejection c < 1 -> 0 <= random_with_rejection (S c) < 1 ->
           - 18 <= cube_position_x (set_index (Some 4%Z)
                                      (candidate random_with_rejection 5 1)) < 18
           /\ - 18 <= cube_position_z (set_index (Some 4%Z)
                                         (candidate random_with_rejection 5 1)) < 18).
Proof.
  assert (Hrun : initialize_robots 6 random_with_rejection (JNumber 2)
                 = Some placed_with_rejection) by (vm_compute; reflexivity).
  assert (Hk : placed_with_rejection !! 1%nat
               = Some (set_index (Some 4%Z) (candidate random_with_rejection 5 1)))
    by (vm_compute; reflexivity).
  split; [exact Hrun|]. split; [exact Hk|].
  exact (@placed_robots_are_accepted_candidates model_host 6 random_with_rejection
           (JNumber 2) placed_with_rejection Hrun 1%nat _ Hk).
Defined.

Section FirstPass.
Context `{Host}.

Lemma placed_by_no_event random (robots : list cube_robot) :
  (forall a b, Box3_intersectsBox a b = Box3_intersectsBox b a) ->
  placed_by random robots ->
  (forall k, out_of_bounds_at robots k = false)
  /\ (forall i j, (i < j)%nat -> intersects_at robots i j = false).
Proof.
  intros Hsym Hplaced. split.
  - intros k. unfold out_of_bounds_at.
    destruct (robots !! k) as [r|] eqn:Ek; [|reflexivity].
    destruct (Hplaced k r Ek) as (c & -> & _). reflexivity.
  - intros i j Hij. unfold intersects_at.
    destruct (robots !! i) as [a|] eqn:Ei; [|reflexivity].
    destruct (robots !! j) as [b|] eqn:Ej; [|reflexivity].
    destruct (Hplaced j b Ej) as (c & Eb & Hfree).
    assert (Ha : a ∈ take j robots).
    { apply list_elem_of_lookup. exists i. rewrite lookup_take_lt by exact Hij. exact Ei. }
    pose proof (collision_detected_false _ _ Hfree a Ha) as Hno.
    rewrite Hsym. rewrite Eb. exact Hno.
Qed.
End FirstPass.

(** X18.  The first frame after the placement has no collision response.
    The robots [initialize_robots] returns have pairwise disjoint boxes and a
    stored world position of (0, 0, 0), which the constructor never sets to
    the position of the cube; so, for an intersection test that is symmetric,
    the first collision pass finds no event and returns the array unchanged,
    and the first frame only makes every robot take the first step of its
    direction. *)
Theorem first_frame_after_placement_has_no_collision `{Host}
    (fuel : nat) (random : nat -> Q) (num_robots : jsval) (robots : list cube_robot) :
  (forall a b, Box3_intersectsBox a b = Box3_intersectsBox b a) ->
  initialize_robots fuel random num_robots = Some robots ->
  collision_detection robots = robots
  /\ forall ins k, animate ins robots !! k = dispatch (ins k) <$> robots !! k.
Proof.
  intros Hsym Hrun.
  assert (Hplaced : placed_by random robots).
  { apply (initialize_robots_from_placed_by random num_robots fuel 0 []);
      [|exact Hrun].
    intros k' r' Hk'. rewrite lookup_nil in Hk'. discriminate. }
  destruct (placed_by_no_event random robots Hsym Hplaced) as (Hb & Hp).
  split.
  - apply list_eq. intros k.
    rewrite collision_detection_lookup, (events_none robots k Hb Hp).
    destruct (robots !! k); reflexivity.
  - intros ins k. rewrite animate_lookup, (events_none robots k Hb Hp).
    destruct (robots !! k); reflexivity.
Qed.

Lemma first_frame_after_placement_has_no_collision_witness :
  ((forall a b, Box3_intersectsBox a b = Box3_intersectsBox b a)
   /\ initialize_robots 6 random_with_rejection (JNumber 2) = Some placed_with_rejection)
  /\ collision_detection placed_with_rejection = placed_with_rejection
  /\ forall ins k,
       animate ins placed_with_rejection !! k
       = dispatch (ins k) <$> placed_with_rejection !! k.
Proof.
  assert (Hrun : initialize_robots 6 random_with_rejection (JNumber 2)
                 = Some placed_with_rejection) by (vm_compute; reflexivity).
  split; [split; [exact spec_intersectsBox_sym|exact Hrun]|].
  exact (@first_frame_after_placement_has_no_collision model_host 6
           random_with_rejection (JNumber 2) placed_with_rejection
           spec_intersectsBox_sym Hrun).
Defined.

(** ** The number of robots for a count that is not a positive integer *)

Lemma counter_less_than_ceiling (i : nat) (v : jsval) (q : Q) :
  ToNumber v = Finite q ->
  counter_less_than i v
  = counter_less_than i (JNumber (inject_Z (Z.of_nat (Z.to_nat (Qceiling q))))).
Proof.
  intros Ev. rewrite counter_less_than_number.
  unfold counter_less_than. rewrite Ev.
  pose proof (Qle_ceiling q) as Hup. pose proof (Qceiling_lt q) as Hlow.
  destruct (Nat.ltb_spec i (Z.to_nat (Qceiling q))) as [Hlt|Hge].
  - apply Qltb_true.
    assert (Hz : (Z.of_nat i <= Qceiling q - 1)%Z) by lia.
    rewrite Zle_Qle in Hz. lra.
  - unfold Qltb. apply negb_false_iff. apply Qle_bool_iff.
    destruct (Z.le_gt_cases (Qceiling q) 0) as [Hneg|Hpos].
    + assert (Hq : inject_Z (Qceiling q) <= inject_Z 0) by (rewrite <- Zle_Qle; exact Hneg).
      assert (Hi : inject_Z 0 <= inject_Z (Z.of_nat i)) by (rewrite <- Zle_Qle; lia).
      change (inject_Z 0) with 0 in *. lra.
    + assert (Hz : (Qceiling q <= Z.of_nat i)%Z) by lia.
      rewrite Zle_Qle in Hz. lra.
Qed.

(** X19.  The loop test [i < num_robots] makes a count that is not a
    positive integer behave as its ceiling, and as 0 when it is negative: for
    a count whose numeric value is [q] (a number, or a text such as "2.5"),
    [initialize_robots] runs exactly as for the integer [max(0, ceil q)] and
    what it returns has that many robots; for [q <= 0] it returns the empty
    array at once, without drawing a random number. *)
Theorem number_of_robots_is_the_ceiling `{Host}
    (fuel : nat) (random : nat -> Q) (num_robots : jsval) (q : Q) :
  ToNumber num_robots = Finite q ->
  initialize_robots fuel random num_robots
  = initialize_robots fuel random (JNumber (inject_Z (Z.of_nat (Z.to_nat (Qceiling q)))))
  /\ (forall robots, initialize_robots fuel random num_robots = Some robots ->
        length robots = Z.to_nat (Qceiling q))
  /\ (q <= 0 -> initialize_robots (S fuel) random num_robots = Some []).
Proof.
  intros Ev.
  assert (Eruns : forall fuel',
    initialize_robots fuel' random num_robots
    = initialize_robots fuel' random
        (JNumber (inject_Z (Z.of_nat (Z.to_nat (Qceiling q)))))).
  { intros fuel'. unfold initialize_robots. apply initialize_robots_from_ext.
    intros i. now apply counter_less_than_ceiling. }
  split; [apply Eruns|]. split.
  - intros robots Hrun. rewrite Eruns in Hrun.
    apply (initialize_robots_from_length random _ fuel 0 0 [] robots); [lia|reflexivity|].
    exact Hrun.
  - intros Hq. rewrite Eruns. unfold initialize_robots. cbn [initialize_robots_from].
    rewrite counter_less_than_number.
    assert (E0 : Z.to_nat (Qceiling q) = 0%nat).
    { pose proof (Qceiling_lt q) as Hlow.
      assert (Hz : inject_Z (Qceiling q - 1) < inject_Z 0)
        by (change (inject_Z 0) with 0; lra).
      rewrite <- Zlt_Qlt in Hz. lia. }
    rewrite E0. reflexivity.
Qed.

Lemma number_of_robots_is_the_ceiling_witness :
  ToNumber (JString "2.5") = Finite (25 # 10)
  /\ initialize_robots 8 alternating_random (JString "2.5")
     = initialize_robots 8 alternating_random
         (JNumber (inject_Z (Z.of_nat (Z.to_nat (Qceiling (25 # 10))))))
  /\ (forall robots,
        initialize_robots 8 alternating_random (JString "2.5") = Some robots ->
        length robots = Z.to_nat (Qceiling (25 # 10)))
  /\ (25 # 10 <= 0 -> initialize_robots 9 alternating_random (JString "2.5") = Some []).
Proof.
  assert (Ev : ToNumber (JString "2.5") = Finite (25 # 10)) by (vm_compute; reflexivity).
  split; [exact Ev|].
  exact (@number_of_robots_is_the_ceiling model_host 8 alternating_random
           (JString "2.5") (25 # 10) Ev).
Defined.

(** X20.  A count of Infinity never finishes the placement: when the text of
    [num_robots] converts to +Infinity (the text "Infinity", for instance) the
    loop test [i < num_robots] is always true, so whatever the random numbers
    are and however many iterations are allowed, [init_engine] is still in
    its loops. *)
Theorem infinite_count_never_returns `{Host} (random : nat -> Q) (text : string) :
  StringToNumber text = PosInfinity ->
  forall fuel, init_engine fuel random (Some text) = None.
Proof.
  intros Ev fuel.
  assert (Etext : num_robots_create (Some text) = JString text).
  { destruct text; [discriminate Ev|reflexivity]. }
  unfold init_engine, initialize_robots. rewrite Etext.
  generalize 0%nat at 1 as cursor. generalize 0%nat as i.
  generalize (@nil cube_robot) as acc.
  induction fuel as [|fuel IH]; intros acc i cursor; [reflexivity|].
  cbn [initialize_robots_from].
  unfold counter_less_than, ToNumber. rewrite Ev.
  destruct (place_robot fuel random cursor i acc) as [[robot cursor']|];
    [apply IH|reflexivity].
Qed.

Lemma infinite_count_never_returns_witness :
  StringToNumber "Infinity" = PosInfinity
  /\ forall fuel, init_engine fuel alternating_random (Some "Infinity"%string) = None.
Proof.
  assert (Ev : StringToNumber "Infinity" = PosInfinity) by (vm_compute; reflexivity).
  split; [exact Ev|].
  exact (@infinite_count_never_returns model_host alternating_random "Infinity" Ev).
Defined.

(** ** The while loop and the names *)

(** X21.  The [while] loop of the placement is a first-fit search: it
    returns a robot exactly when one of the candidates it can still try is
    free, and then it returns the first free one, the candidates before it
    having all been rejected because their box intersects a placed robot.
    Each attempt uses two values of [Math.random]; after [t] rejections the
    robot is made from the values at [cursor + 2 t] and [cursor + 2 t + 1]. *)
Theorem place_robot_returns_the_first_free_candidate `{Host}
    (fuel : nat) (random : nat -> Q) (cursor i : nat) (placed : list cube_robot)
    (robot : cube_robot) (cursor' : nat) :
  place_robot fuel random cursor i placed = Some (robot, cursor') <->
  exists t, (t < fuel)%nat
    /\ (forall s, (s < t)%nat ->
          collision_detected (candidate random (cursor + 2 * s) i) placed = true)
    /\ collision_detected (candidate random (cursor + 2 * t) i) placed = false
    /\ robot = candidate random (cursor + 2 * t) i
    /\ cursor' = (cursor + 2 * t + 2)%nat.
Proof.
  revert cursor robot cursor'.
  induction fuel as [|fuel IH]; intros cursor robot cursor'.
  - split; [discriminate|]. intros (t & Ht & _). lia.
  - cbn [place_robot].
    destruct (collision_detected (candidate random cursor i) placed) eqn:E.
    + rewrite IH. split.
      * intros (t & Ht & Hbusy & Hfree & Er & Ec). exists (S t).
        replace (cursor + 2 * S t)%nat with (cursor + 2 + 2 * t)%nat by lia.
        split; [lia|]. split; [|split; [exact Hfree|split; [exact Er|lia]]].
        intros [|s] Hs.
        -- now replace (cursor + 2 * 0)%nat with cursor by lia.
        -- replace (cursor + 2 * S s)%nat with (cursor + 2 + 2 * s)%nat by lia.
           apply Hbusy. lia.
      * intros (t & Ht & Hbusy & Hfree & Er & Ec).
        destruct t as [|t].
        -- replace (cursor + 2 * 0)%nat with cursor in Hfree by lia. congruence.
        -- exists t.
           replace (cursor + 2 * S t)%nat with (cursor + 2 + 2 * t)%nat in * by lia.
           split; [lia|]. split; [|split; [exact Hfree|split; [exact Er|lia]]].
           intros s Hs. specialize (Hbusy (S s) ltac:(lia)).
           now replace (cursor + 2 * S s)%nat with (cursor + 2 + 2 * s)%nat in Hbusy by lia.
    + split.
      * intros [= <- <-]. exists 0%nat.
        replace (cursor + 2 * 0)%nat with cursor by lia.
        split; [lia|]. split; [intros s Hs; lia|]. split; [exact E|]. split; [reflexivity|lia].
      * intros (t & Ht & Hbusy & Hfree & Er & Ec).
        destruct t as [|t].
        -- replace (cursor + 2 * 0)%nat with cursor in * by lia.
           subst. reflexivity.
        -- specialize (Hbusy 0%nat ltac:(lia)).
           replace (cursor + 2 * 0)%nat with cursor in Hbusy by lia. congruence.
Qed.

Lemma string_of_uint_inj (d d' : Decimal.uint) :
  NilEmpty.string_of_uint d = NilEmpty.string_of_uint d' -> d = d'.
Proof.
  intros E. apply (f_equal NilEmpty.uint_of_string) in E.
  rewrite !NilEmpty.usu in E. congruence.
Qed.

Lemma robot_name_inj (i j : nat) : robot_name i = robot_name j -> i = j.
Proof.
  unfold robot_name. intros E. cbn [String.append] in E.
  injection E as E. apply string_of_uint_inj in E.
  apply DecimalNat.Unsigned.to_uint_inj in E. lia.
Qed.

(** X22.  The robots [initialize_robots] returns are named "Robot 1",
    "Robot 2", ... in the order of the array, the number being written in
    decimal, and no two robots have the same name. *)
Theorem placed_robots_have_distinct_names `{Host}
    (fuel : nat) (random : nat -> Q) (num_robots : jsval) (robots : list cube_robot) :
  initialize_robots fuel random num_robots = Some robots ->
  name <$> robots = robot_name <$> seq 0 (length robots)
  /\ NoDup (name <$> robots)
  /\ forall i j a b, robots !! i = Some a -> robots !! j = Some b ->
       name a = name b -> i = j.
Proof.
  intros Hrun.
  assert (Hplaced : placed_by random robots).
  { apply (initialize_robots_from_placed_by random num_robots fuel 0 []);
      [|exact Hrun].
    intros k' r' Hk'. rewrite lookup_nil in Hk'. discriminate. }
  assert (Hname : forall k r, robots !! k = Some r -> name r = robot_name k).
  { intros k r Hk. destruct (Hplaced k r Hk) as (c & -> & _). reflexivity. }
  assert (Hnames : name <$> robots = robot_name <$> seq 0 (length robots)).
  { apply list_eq. intros k. rewrite !list_lookup_fmap.
    destruct (robots !! k) as [r|] eqn:Ek.
    - rewrite lookup_seq_lt by (apply lookup_lt_Some in Ek; exact Ek).
      cbn. f_equal. now apply Hname.
    - rewrite lookup_seq_ge by (apply lookup_ge_None in Ek; exact Ek). reflexivity. }
  split; [exact Hnames|]. split.
  - rewrite Hnames. apply NoDup_fmap_2; [|apply NoDup_seq].
    intros i j. apply robot_name_inj.
  - intros i j a b Hi Hj E. apply robot_name_inj.
    now rewrite <- (Hname i a Hi), <- (Hname j b Hj).
Qed.

Lemma placed_robots_have_distinct_names_witness :
  initialize_robots 6 random_with_rejection (JNumber 2) = Some placed_with_rejection
  /\ name <$> placed_with_rejection = robot_name <$> seq 0 (length placed_with_rejection)
  /\ NoDup (name <$> placed_with_rejection)
  /\ forall i j a b,
       placed_with_rejection !! i = Some a -> placed_with_rejection !! j = Some b ->
       name a = name b -> i = j.
Proof.
  assert (Hrun : initialize_robots 6 random_with_rejection (JNumber 2)
                 = Some placed_with_rejection) by (vm_compute; reflexivity).
  split; [exact Hrun|].
  exact (@placed_robots_have_distinct_names model_host 6 random_with_rejection
           (JNumber 2) placed_with_rejection Hrun).
Defined.

(** ** Reading a count from its text *)

Ltac eval_digit :=
  repeat match goal with
         | |- context [digit_value 10 ?c] =>
             let v := eval vm_compute in (digit_value 10 c) in
             change (digit_value 10 c) with v
         end.

Lemma span_digits_uint (d : Decimal.uint) (tl : list ascii) :
  starts_without_digit tl ->
  span_digits 10 (digit_chars d ++ tl) = (digit_chars d, tl).
Proof.
  intros Htl. unfold digit_chars.
  induction d as [|d IH|d IH|d IH|d IH|d IH|d IH|d IH|d IH|d IH|d IH];
    cbn [NilEmpty.string_of_uint list_ascii_of_string app span_digits];
    [ destruct tl as [|c tl]; [reflexivity|]; cbn [span_digits starts_without_digit] in *;
      now rewrite Htl
    | eval_digit; cbn iota; now rewrite IH .. ].
Qed.

Lemma digits_number_uint (d : Decimal.uint) : forall acc : N,
  foldl (fun acc c => (acc * 10 + default 0 (digit_value 10 c))%N) acc (digit_chars d)
  = N.of_nat (Nat.of_uint_acc d (N.to_nat acc)).
Proof.
  unfold digit_chars.
  induction d as [|d IH|d IH|d IH|d IH|d IH|d IH|d IH|d IH|d IH|d IH]; intros acc;
    cbn [NilEmpty.string_of_uint list_ascii_of_string foldl Nat.of_uint_acc];
    [ now rewrite N2Nat.id
    | eval_digit; cbn [default from_option id]; rewrite IH; f_equal; f_equal;
      rewrite Nat.tail_mul_spec; lia .. ].
Qed.

Lemma to_uint_not_nil (n : nat) : Nat.to_uint n <> Decimal.Nil.
Proof.
  intros E. pose proof (DecimalNat.Unsigned.of_to n) as Hn. rewrite E in Hn.
  cbn in Hn. subst n. discriminate E.
Qed.

Lemma digits_number_decimal (n : nat) :
  digits_number 10 (digit_chars (Nat.to_uint n)) = N.of_nat n.
Proof.
  unfold digits_number. rewrite digits_number_uint.
  change (Nat.of_uint_acc (Nat.to_uint n) (N.to_nat 0)) with (Nat.of_uint (Nat.to_uint n)).
  now rewrite DecimalNat.Unsigned.of_to.
Qed.

Ltac digit_head d :=
  destruct d as [|d|d|d|d|d|d|d|d|d|d]; [congruence| ..];
  unfold digit_chars;
  cbn [NilEmpty.string_of_uint list_ascii_of_string app];
  fold (digit_chars d).

Lemma drop_space_digit_chars (d : Decimal.uint) (tl : list ascii) :
  d <> Decimal.Nil -> drop_space (digit_chars d ++ tl) = digit_chars d ++ tl.
Proof. intros Hd. digit_head d; reflexivity. Qed.

Lemma after_char_digit_chars (c : ascii) (d : Decimal.uint) (tl : list ascii) :
  d <> Decimal.Nil -> digit_value 10 c = None ->
  after_char c (digit_chars d ++ tl) = None.
Proof.
  intros Hd Hc.
  digit_head d; cbn [after_char];
    match goal with
    | |- (if Ascii.eqb ?h c then _ else _) = _ =>
        destruct (Ascii.eqb_spec h c) as [<-|_]; [discriminate Hc|reflexivity]
    end.
Qed.

Lemma after_radix_prefix_digit_chars (lower upper : ascii) (d : Decimal.uint)
    (tl : list ascii) :
  d <> Decimal.Nil ->
  digit_value 10 lower = None -> digit_value 10 upper = None ->
  match tl with c :: _ => c <> lower /\ c <> upper | [] => True end ->
  after_radix_prefix lower upper (digit_chars d ++ tl) = None.
Proof.
  intros Hd Hl Hu Htl. unfold after_radix_prefix.
  digit_head d; cbn [after_char Ascii.eqb Bool.eqb]; try reflexivity.
  destruct d as [|d|d|d|d|d|d|d|d|d|d];
    unfold digit_chars; cbn [NilEmpty.string_of_uint list_ascii_of_string app].
  - destruct tl as [|c tl]; [reflexivity|]. destruct Htl as (Hcl & Hcu).
    destruct (Ascii.eqb_spec c lower); [congruence|].
    destruct (Ascii.eqb_spec c upper); [congruence|]. reflexivity.
  - destruct (Ascii.eqb_spec "0" lower) as [<-|_]; [discriminate Hl|].
    destruct (Ascii.eqb_spec "0" upper) as [<-|_]; [discriminate Hu|]. reflexivity.
  - destruct (Ascii.eqb_spec "1" lower) as [<-|_]; [discriminate Hl|].
    destruct (Ascii.eqb_spec "1" upper) as [<-|_]; [discriminate Hu|]. reflexivity.
  - destruct (Ascii.eqb_spec "2" lower) as [<-|_]; [discriminate Hl|].
    destruct (Ascii.eqb_spec "2" upper) as [<-|_]; [discriminate Hu|]. reflexivity.
  - destruct (Ascii.eqb_spec "3" lower) as [<-|_]; [discriminate Hl|].
    destruct (Ascii.eqb_spec "3" upper) as [<-|_]; [discriminate Hu|]. reflexivity.
  - destruct (Ascii.eqb_spec "4" lower) as [<-|_]; [discriminate Hl|].
    destruct (Ascii.eqb_spec "4" upper) as [<-|_]; [discriminate Hu|]. reflexivity.
  - destruct (Ascii.eqb_spec "5" lower) as [<-|_]; [discriminate Hl|].
    destruct (Ascii.eqb_spec "5" upper) as [<-|_]; [discriminate Hu|]. reflexivity.
  - destruct (Ascii.eqb_spec "6" lower) as [<-|_]; [discriminate Hl|].
    destruct (Ascii.eqb_spec "6" upper) as [<-|_]; [discriminate Hu|]. reflexivity.
  - destruct (Ascii.eqb_spec "7" lower) as [<-|_]; [discriminate Hl|].
    destruct (Ascii.eqb_spec "7" upper) as [<-|_]; [discriminate Hu|]. reflexivity.
  - destruct (Ascii.eqb_spec "8" lower) as [<-|_]; [discriminate Hl|].
    destruct (Ascii.eqb_spec "8" upper) as [<-|_]; [discriminate Hu|]. reflexivity.
  - destruct (Ascii.eqb_spec "9" lower) as [<-|_]; [discriminate Hl|].
    destruct (Ascii.eqb_spec "9" upper) as [<-|_]; [discriminate Hu|]. reflexivity.
Qed.

Lemma digit_chars_not_nil (d : Decimal.uint) :
  d <> Decimal.Nil -> exists h t, digit_chars d = h :: t.
Proof. intros Hd. digit_head d; eauto. Qed.

Lemma list_ascii_of_string_app (s t : string) :
  list_ascii_of_string (s ++ t) = list_ascii_of_string s ++ list_ascii_of_string t.
Proof. induction s as [|c s IH]; [reflexivity|]. cbn. now rewrite IH. Qed.

(** [parseInt] on a text that begins with a decimal number. *)
Lemma parseInt_digit_chars (s : string) (d : Decimal.uint) (tl : list ascii) :
  list_ascii_of_string s = digit_chars d ++ tl ->
  d <> Decimal.Nil -> starts_without_digit tl ->
  match tl with c :: _ => c <> "x"%char /\ c <> "X"%char | [] => True end ->
  parseInt s = Finite (inject_Z (Z.of_N (digits_number 10 (digit_chars d)))).
Proof.
  intros Hs Hd Htl Hx. unfold parseInt.
  rewrite Hs, drop_space_digit_chars by exact Hd.
  rewrite !after_char_digit_chars by (exact Hd || reflexivity).
  rewrite after_radix_prefix_digit_chars by (exact Hd || exact Hx || reflexivity).
  rewrite span_digits_uint by exact Htl. cbn [fst].
  destruct (digit_chars_not_nil d Hd) as (h & t & ->). reflexivity.
Qed.

Lemma digit_chars_no_space (d : Decimal.uint) :
  Forall (fun c => is_StrWhiteSpaceChar c = false) (digit_chars d).
Proof.
  unfold digit_chars.
  induction d as [|d IH|d IH|d IH|d IH|d IH|d IH|d IH|d IH|d IH|d IH];
    cbn [NilEmpty.string_of_uint list_ascii_of_string]; constructor;
    solve [reflexivity | exact IH].
Qed.

Lemma drop_space_no_space (cs : list ascii) :
  Forall (fun c => is_StrWhiteSpaceChar c = false) cs -> drop_space cs = cs.
Proof. intros [|c cs' Hc _]; [reflexivity|]. cbn [drop_space]. now rewrite Hc. Qed.

Lemma trim_digit_chars (d : Decimal.uint) : trim (digit_chars d) = digit_chars d.
Proof.
  unfold trim. pose proof (digit_chars_no_space d) as Hd.
  rewrite (drop_space_no_space _ Hd).
  rewrite (drop_space_no_space (rev (digit_chars d))) by now apply Forall_rev.
  apply rev_involutive.
Qed.

Lemma drop_space_keeps (a b : list ascii) (c : ascii) :
  is_StrWhiteSpaceChar c = false ->
  exists t, drop_space (a ++ c :: b) = t ++ c :: b.
Proof.
  intros Hc. induction a as [|x a IH]; cbn [app drop_space].
  - rewrite Hc. now exists [].
  - destruct (is_StrWhiteSpaceChar x); [exact IH|]. now exists (x :: a).
Qed.

Lemma trim_digit_chars_then (d : Decimal.uint) (c : ascii) (rest : list ascii) :
  d <> Decimal.Nil -> is_StrWhiteSpaceChar c = false ->
  exists rest', trim (digit_chars d ++ c :: rest) = digit_chars d ++ c :: rest'.
Proof.
  intros Hd Hc. unfold trim. rewrite drop_space_digit_chars by exact Hd.
  rewrite rev_app_distr. cbn [rev]. rewrite <- app_assoc. cbn [app].
  destruct (drop_space_keeps (rev rest) (rev (digit_chars d)) c Hc) as (t & ->).
  exists (rev t). rewrite rev_app_distr. cbn [rev].
  rewrite rev_involutive, <- app_assoc. reflexivity.
Qed.

Lemma not_infinity (d : Decimal.uint) (tl : list ascii) :
  d <> Decimal.Nil ->
  String.eqb (string_of_list_ascii (digit_chars d ++ tl)) "Infinity" = false.
Proof. intros Hd. digit_head d; reflexivity. Qed.

(** A decimal number alone is a StrUnsignedDecimalLiteral with no fraction and
    no exponent. *)
Lemma StrUnsignedDecimalLiteral_digit_chars (d : Decimal.uint) :
  d <> Decimal.Nil ->
  exists q, StrUnsignedDecimalLiteral (digit_chars d ++ []) = Finite q
            /\ q == inject_Z (Z.of_N (digits_number 10 (digit_chars d))).
Proof.
  intros Hd. unfold StrUnsignedDecimalLiteral.
  rewrite not_infinity by exact Hd.
  rewrite span_digits_uint by exact I.
  cbn [after_char].
  destruct (digit_chars_not_nil d Hd) as (h & t & E). rewrite E.
  cbn [ExponentPart_opt]. eexists. split; [reflexivity|].
  cbn [length digits_number foldl]. change (Qpower 10 0) with 1.
  change (inject_Z (Z.of_N 0)) with 0. field. discriminate.
Qed.

Lemma ends_the_number_spec (c : ascii) :
  ends_the_number c = true ->
  is_StrWhiteSpaceChar c = false /\ digit_value 10 c = None
  /\ Forall (fun x => c <> x) ["."; "e"; "E"; "x"; "X"; "o"; "O"; "b"; "B"]%char.
Proof.
  unfold ends_the_number. intros Hc.
  apply andb_true_iff in Hc. destruct Hc as (Hc & Hlist).
  apply andb_true_iff in Hc. destruct Hc as (Hc & Hdig).
  apply andb_true_iff in Hc. destruct Hc as (_ & Hws).
  apply negb_true_iff in Hws. apply negb_true_iff in Hlist.
  split; [exact Hws|]. split; [destruct (digit_value 10 c); [discriminate|reflexivity]|].
  rewrite Forall_forall. intros x Hx Ecx. subst x.
  assert (Hex : existsb (Ascii.eqb c)
                  ["."; "e"; "E"; "x"; "X"; "o"; "O"; "b"; "B"]%char = true).
  { apply existsb_exists. exists c. split; [now apply list_elem_of_In|apply Ascii.eqb_refl]. }
  congruence.
Qed.

(** A decimal number followed by a character that ends it is not a
    StrUnsignedDecimalLiteral. *)
Lemma StrUnsignedDecimalLiteral_then (d : Decimal.uint) (c : ascii) (rest : list ascii) :
  d <> Decimal.Nil -> ends_the_number c = true ->
  StrUnsignedDecimalLiteral (digit_chars d ++ c :: rest) = NaN.
Proof.
  intros Hd Hc. destruct (ends_the_number_spec c Hc) as (_ & Hdig & Hlist).
  repeat match goal with
         | H : Forall _ (_ :: _) |- _ => inversion_clear H
         end.
  unfold StrUnsignedDecimalLiteral.
  rewrite not_infinity by exact Hd.
  rewrite span_digits_uint by exact Hdig.
  cbn [after_char].
  destruct (Ascii.eqb_spec c "."); [congruence|].
  destruct (digit_chars_not_nil d Hd) as (h & t & ->).
  unfold ExponentPart_opt. cbn [after_char].
  destruct (Ascii.eqb_spec c "e"); [congruence|].
  destruct (Ascii.eqb_spec c "E"); [congruence|]. reflexivity.
Qed.

(** StringToNumber on a text that begins with a decimal number: no radix
    prefix and no sign are read. *)
Lemma StringToNumber_digit_chars (s : string) (d : Decimal.uint) (tl : list ascii) :
  trim (list_ascii_of_string s) = digit_chars d ++ tl ->
  d <> Decimal.Nil ->
  match tl with c :: _ => ends_the_number c = true | [] => True end ->
  StringToNumber s = StrUnsignedDecimalLiteral (digit_chars d ++ tl).
Proof.
  intros Hs Hd Htl. unfold StringToNumber. rewrite Hs.
  assert (Hletters : forall l u : ascii,
            In l ["x"; "o"; "b"]%char -> In u ["X"; "O"; "B"]%char ->
            match tl with c :: _ => c <> l /\ c <> u | [] => True end).
  { intros l u Hl Hu. destruct tl as [|c tl]; [exact I|].
    destruct (ends_the_number_spec c Htl) as (_ & _ & Hlist).
    rewrite Forall_forall in Hlist.
    split; apply Hlist; apply list_elem_of_In; cbn in *; intuition. }
  rewrite !after_radix_prefix_digit_chars
    by (exact Hd || reflexivity || (apply Hletters; cbn; auto)).
  rewrite !after_char_digit_chars by (exact Hd || reflexivity).
  destruct (digit_chars_not_nil d Hd) as (h & t & E).
  destruct (digit_chars d ++ tl) as [|x l] eqn:El; [|reflexivity].
  rewrite E in El. discriminate El.
Qed.

Lemma StringToNumber_decimal_text (n : nat) :
  exists q, StringToNumber (decimal_text n) = Finite q /\ q == inject_Z (Z.of_nat n).
Proof.
  pose proof (to_uint_not_nil n) as Hd.
  destruct (StrUnsignedDecimalLiteral_digit_chars _ Hd) as (q & Eq & Hq).
  exists q. split.
  - rewrite (StringToNumber_digit_chars (decimal_text n) (Nat.to_uint n) []);
      [exact Eq| |exact Hd|exact I].
    rewrite app_nil_r. apply trim_digit_chars.
  - rewrite Hq, digits_number_decimal, nat_N_Z. reflexivity.
Qed.

Lemma parseInt_decimal_text (n : nat) (tl : string) :
  starts_without_digit (list_ascii_of_string tl) ->
  match list_ascii_of_string tl with
  | c :: _ => c <> "x"%char /\ c <> "X"%char
  | [] => True
  end ->
  parseInt (decimal_text n ++ tl) = Finite (inject_Z (Z.of_nat n)).
Proof.
  intros Htl Hx.
  rewrite (parseInt_digit_chars _ (Nat.to_uint n) (list_ascii_of_string tl));
    [|apply list_ascii_of_string_app|apply to_uint_not_nil|exact Htl|exact Hx].
  now rewrite digits_number_decimal, nat_N_Z.
Qed.

Lemma string_app_empty (s : string) : (s ++ "")%string = s.
Proof. induction s as [|c s IH]; [reflexivity|]. cbn. now rewrite IH. Qed.

Section Counts.
Context `{Host}.

Lemma init_engine_not_a_number fuel random (text : string) :
  StringToNumber text = NaN -> init_engine (S fuel) random (Some text) = Some [].
Proof.
  intros Ev.
  assert (Etext : num_robots_create (Some text) = JString text)
    by (destruct text; [discriminate Ev|reflexivity]).
  unfold init_engine, initialize_robots. rewrite Etext.
  cbn [initialize_robots_from]. unfold counter_less_than, ToNumber.
  now rewrite Ev.
Qed.

Lemma decimal_text_not_empty (n : nat) : decimal_text n <> EmptyString.
Proof.
  unfold decimal_text. pose proof (to_uint_not_nil n) as Hd.
  destruct (Nat.to_uint n); [congruence|discriminate ..].
Qed.
End Counts.

(** X23.  The decimal text of a natural number [n] up to 2^53 (the range in
    which every natural number is a number of the language, so that no
    conversion rounds) is read back as [n] by both files: [parseInt] of
    [listeners.js] returns [n], the implicit conversion in the loop test of
    [initialize_robots] gives a number equal to [n], and [init_engine] with
    this text as [num_robots] runs exactly as [initialize_robots] with the
    number [n].  This holds for [n = 0] too: the text "0" is not empty, so
    the count is 0 and not the default 1. *)
Theorem decimal_text_is_read_back_as_its_number `{Host} (n : nat) :
  (Z.of_nat n <= max_exact_integer)%Z ->
  parseInt (decimal_text n) = Finite (inject_Z (Z.of_nat n))
  /\ listeners_num_robots_create (Some (decimal_text n)) = Finite (inject_Z (Z.of_nat n))
  /\ (exists q, StringToNumber (decimal_text n) = Finite q
                /\ q == inject_Z (Z.of_nat n))
  /\ (forall fuel random,
        init_engine fuel random (Some (decimal_text n))
        = initialize_robots fuel random (JNumber (inject_Z (Z.of_nat n))))
  /\ (forall fuel random,
        init_engine (S fuel) random (Some (decimal_text 0)) = Some []).
Proof.
  intros _.
  assert (Hparse : parseInt (decimal_text n) = Finite (inject_Z (Z.of_nat n))).
  { rewrite <- (string_app_empty (decimal_text n)).
    apply parseInt_decimal_text; exact I. }
  assert (Hengine : forall m fuel random,
    init_engine fuel random (Some (decimal_text m))
    = initialize_robots fuel random (JNumber (inject_Z (Z.of_nat m)))).
  { intros m fuel random.
    destruct (StringToNumber_decimal_text m) as (q & Eq & Hq).
    unfold init_engine.
    rewrite (num_robots_create_text _ (decimal_text_not_empty m)).
    unfold initialize_robots. apply initialize_robots_from_ext.
    intros i. exact (counter_less_than_text _ q m i Eq Hq). }
  split; [exact Hparse|]. split; [exact Hparse|].
  split; [apply StringToNumber_decimal_text|]. split; [apply Hengine|].
  intros fuel random. rewrite Hengine. reflexivity.
Qed.

Lemma decimal_text_is_read_back_as_its_number_witness :
  (Z.of_nat 144 <= max_exact_integer)%Z
  /\ decimal_text 144 = "144"%string
  /\ parseInt (decimal_text 144) = Finite (inject_Z (Z.of_nat 144))
  /\ listeners_num_robots_create (Some (decimal_text 144))
     = Finite (inject_Z (Z.of_nat 144))
  /\ (exists q, StringToNumber (decimal_text 144) = Finite q
                /\ q == inject_Z (Z.of_nat 144))
  /\ (forall fuel random,
        init_engine fuel random (Some (decimal_text 144))
        = initialize_robots fuel random (JNumber (inject_Z (Z.of_nat 144))))
  /\ (forall fuel random,
        init_engine (S fuel) random (Some (decimal_text 0)) = Some []).
Proof.
  assert (Hn : (Z.of_nat 144 <= max_exact_integer)%Z)
    by (apply Z.leb_le; vm_compute; reflexivity).
  split; [exact Hn|]. split; [vm_compute; reflexivity|].
  exact (@decimal_text_is_read_back_as_its_number model_host 144 Hn).
Defined.

(** X24.  The two files disagree on a count followed by other text.  For the
    decimal text of [n], up to 2^53, followed by an ASCII character that ends
    the number (of code below 128; not white space, a digit, a point or one
    of the letters e, x, o, b) and by anything else, [parseInt] of
    [listeners.js] ignores what follows the digits and returns [n], while the
    conversion the engine relies on gives NaN, so that [init_engine] builds
    no robot. *)
Theorem listeners_and_engine_disagree_on_trailing_text `{Host}
    (n : nat) (c : ascii) (rest : string) :
  (Z.of_nat n <= max_exact_integer)%Z ->
  ends_the_number c = true ->
  parseInt (decimal_text n ++ String c rest) = Finite (inject_Z (Z.of_nat n))
  /\ listeners_num_robots_create (Some (decimal_text n ++ String c rest)%string)
     = Finite (inject_Z (Z.of_nat n))
  /\ StringToNumber (decimal_text n ++ String c rest) = NaN
  /\ forall fuel random,
       init_engine (S fuel) random (Some (decimal_text n ++ String c rest)%string)
       = Some [].
Proof.
  intros _ Hc. destruct (ends_the_number_spec c Hc) as (Hws & Hdig & Hlist).
  pose proof (to_uint_not_nil n) as Hd.
  assert (Hparse : parseInt (decimal_text n ++ String c rest)
                   = Finite (inject_Z (Z.of_nat n))).
  { apply parseInt_decimal_text; cbn [list_ascii_of_string starts_without_digit];
      [exact Hdig|].
    rewrite Forall_forall in Hlist.
    split; apply Hlist; apply list_elem_of_In; cbn; auto 10. }
  assert (Hnan : StringToNumber (decimal_text n ++ String c rest) = NaN).
  { destruct (trim_digit_chars_then (Nat.to_uint n) c (list_ascii_of_string rest)
                Hd Hws) as (rest' & Etrim).
    rewrite (StringToNumber_digit_chars _ (Nat.to_uint n) (c :: rest'));
      [now apply StrUnsignedDecimalLiteral_then| |exact Hd|exact Hc].
    rewrite list_ascii_of_string_app. exact Etrim. }
  split; [exact Hparse|]. split; [exact Hparse|]. split; [exact Hnan|].
  intros fuel random. now apply init_engine_not_a_number.
Qed.

Lemma listeners_and_engine_disagree_on_trailing_text_witness :
  ((Z.of_nat 12 <= max_exact_integer)%Z /\ ends_the_number "p" = true)
  /\ (decimal_text 12 ++ String "p" "x")%string = "12px"%string
  /\ parseInt (decimal_text 12 ++ String "p" "x") = Finite (inject_Z (Z.of_nat 12))
  /\ listeners_num_robots_create (Some (decimal_text 12 ++ String "p" "x")%string)
     = Finite (inject_Z (Z.of_nat 12))
  /\ StringToNumber (decimal_text 12 ++ String "p" "x") = NaN
  /\ forall fuel random,
       init_engine (S fuel) random (Some (decimal_text 12 ++ String "p" "x")%string)
       = Some [].
Proof.
  assert (Hn : (Z.of_nat 12 <= max_exact_integer)%Z)
    by (apply Z.leb_le; vm_compute; reflexivity).
  assert (Hc : ends_the_number "p" = true) by reflexivity.
  split; [split; [exact Hn|exact Hc]|]. split; [reflexivity|].
  exact (@listeners_and_engine_disagree_on_trailing_text model_host 12 "p" "x" Hn Hc).
Defined.

(** ** The floor texture *)

Lemma foldl_ext_in {A B} (f g : A -> B -> A) (l : list B) (a : A) :
  (forall acc b, In b l -> f acc b = g acc b) -> foldl f a l = foldl g a l.
Proof.
  revert a. induction l as [|b l IH]; intros a Hfg; [reflexivity|].
  cbn [foldl]. rewrite (Hfg a b) by now left.
  apply IH. intros acc b' Hb'. apply Hfg. now right.
Qed.

(** Every call paints one tile of the grid, inside the canvas. *)
Lemma paint_floor_tiles :
  forallb (fun call =>
             (rect_w call =? tile_size)%Z && (rect_h call =? tile_size)%Z
             && (rect_x call mod tile_size =? 0)%Z && (rect_y call mod tile_size =? 0)%Z
             && (0 <=? rect_x call)%Z && (rect_x call + rect_w call <=? canvas_width)%Z
             && (0 <=? rect_y call)%Z && (rect_y call + rect_h call <=? canvas_height)%Z)
          paint_floor = true.
Proof. vm_compute. reflexivity. Qed.

Lemma paint_floor_tile (call : fillRect_call) :
  In call paint_floor ->
  (rect_w call = tile_size /\ rect_h call = tile_size
   /\ rect_x call mod tile_size = 0 /\ rect_y call mod tile_size = 0
   /\ 0 <= rect_x call /\ rect_x call + rect_w call <= canvas_width
   /\ 0 <= rect_y call /\ rect_y call + rect_h call <= canvas_height)%Z.
Proof.
  intros Hin. pose proof paint_floor_tiles as Hall.
  rewrite forallb_forall in Hall. specialize (Hall call Hin).
  repeat (apply andb_true_iff in Hall; destruct Hall as (Hall & ?)).
  repeat match goal with
         | H : (_ =? _)%Z = true |- _ => apply Z.eqb_eq in H
         | H : (_ <=? _)%Z = true |- _ => apply Z.leb_le in H
         end.
  repeat split; assumption.
Qed.

(** Whether a call covers a pixel depends on the tile of the pixel only. *)
Lemma covers_tile_corner (call : fillRect_call) (px py : Z) :
  In call paint_floor ->
  covers call px py
  = covers call (tile_size * (px / tile_size)) (tile_size * (py / tile_size)).
Proof.
  intros Hin.
  destruct (paint_floor_tile call Hin) as (Hw & Hh & Hx & Hy & _).
  unfold covers. rewrite Hw, Hh. unfold tile_size in *.
  assert (Hcol : forall a p : Z, (a mod 32 = 0)%Z ->
            ((a <=? p) && (p <? a + 32) = (a <=? 32 * (p / 32)) && (32 * (p / 32) <? a + 32))%Z).
  { intros a p Ha.
    destruct (Z.leb_spec a p), (Z.ltb_spec p (a + 32)),
      (Z.leb_spec a (32 * (p / 32))), (Z.ltb_spec (32 * (p / 32)) (a + 32));
      try reflexivity; exfalso; Z.to_euclidean_division_equations; lia. }
  rewrite <- !andb_assoc.
  rewrite andb_assoc, (Hcol _ px Hx).
  rewrite <- andb_assoc. f_equal. f_equal. apply (Hcol _ py Hy).
Qed.

Lemma pixel_color_tile_corner (px py : Z) :
  pixel_color paint_floor px py
  = pixel_color paint_floor (tile_size * (px / tile_size)) (tile_size * (py / tile_size)).
Proof.
  unfold pixel_color. apply foldl_ext_in. intros acc call Hin.
  now rewrite (covers_tile_corner call px py Hin).
Qed.

Lemma count_true_ext_in {A} (p q : A -> bool) (l : list A) :
  (forall a, In a l -> p a = q a) -> count_true p l = count_true q l.
Proof.
  intros Hpq. apply count_true_ext. intros a Ha. apply Hpq.
  now apply list_elem_of_In.
Qed.

(** The colour and the number of covering calls at the corner of each of the
    16 x 16 tiles. *)
Lemma paint_floor_corners :
  forallb (fun a =>
    forallb (fun b =>
      match pixel_color paint_floor (tile_size * Z.of_nat a) (tile_size * Z.of_nat b) with
      | Some color =>
          String.eqb color
            (if Z.even (Z.of_nat a + Z.of_nat b) then "#CCCCCC" else "#FFFFFF")
      | None => false
      end
      && (count_true (fun call => covers call (tile_size * Z.of_nat a)
                                         (tile_size * Z.of_nat b))
                     paint_floor =? 1)%nat)
      (seq 0 16))
    (seq 0 16) = true.
Proof. vm_compute. reflexivity. Qed.

(** X25.  The two loops of [setup_scene] paint the floor texture as a
    checkerboard: they make 256 calls of [fillRect]; every pixel of the
    512 x 512 canvas is covered by exactly one of them, and its colour is
    [#CCCCCC] when the sum of the column and row numbers of its 32-pixel tile
    is even and [#FFFFFF] when it is odd, so that two tiles that share an edge
    never have the same colour; no call paints outside the canvas. *)
Theorem floor_is_a_checkerboard (px py : Z) :
  (0 <= px < canvas_width)%Z -> (0 <= py < canvas_height)%Z ->
  length paint_floor = 256%nat
  /\ pixel_color paint_floor px py
     = Some (if Z.even (px / tile_size + py / tile_size)
             then "#CCCCCC" else "#FFFFFF")%string
  /\ count_true (fun call => covers call px py) paint_floor = 1%nat
  /\ ((px + tile_size < canvas_width)%Z ->
      pixel_color paint_floor (px + tile_size) py <> pixel_color paint_floor px py)
  /\ ((py + tile_size < canvas_height)%Z ->
      pixel_color paint_floor px (py + tile_size) <> pixel_color paint_floor px py)
  /\ (forall qx qy,
        (qx < 0 \/ canvas_width <= qx \/ qy < 0 \/ canvas_height <= qy)%Z ->
        pixel_color paint_floor qx qy = None).
Proof.
  assert (Hin : forall qx qy, (0 <= qx < canvas_width)%Z -> (0 <= qy < canvas_height)%Z ->
    pixel_color paint_floor qx qy
    = Some (if Z.even (qx / tile_size + qy / tile_size)
            then "#CCCCCC" else "#FFFFFF")%string
    /\ count_true (fun call => covers call qx qy) paint_floor = 1%nat).
  { intros qx qy Hx Hy. unfold canvas_width, canvas_height in Hx, Hy.
    pose proof paint_floor_corners as Hall. rewrite forallb_forall in Hall.
    assert (Ha : (0 <= qx / tile_size < 16)%Z)
      by (unfold tile_size; Z.to_euclidean_division_equations; lia).
    assert (Hb : (0 <= qy / tile_size < 16)%Z)
      by (unfold tile_size; Z.to_euclidean_division_equations; lia).
    specialize (Hall (Z.to_nat (qx / tile_size))).
    rewrite forallb_forall in Hall.
    specialize (Hall ltac:(apply in_seq; lia) (Z.to_nat (qy / tile_size))
                     ltac:(apply in_seq; lia)).
    rewrite !Z2Nat.id in Hall by lia.
    rewrite <- pixel_color_tile_corner in Hall.
    apply andb_true_iff in Hall. destruct Hall as (Hcolor & Hcount).
    split.
    - destruct (pixel_color paint_floor qx qy) as [color|]; [|discriminate].
      apply String.eqb_eq in Hcolor. now rewrite Hcolor.
    - apply Nat.eqb_eq in Hcount. rewrite <- Hcount.
      apply count_true_ext_in. intros call Hcall.
      apply covers_tile_corner. exact Hcall. }
  intros Hx Hy. split; [reflexivity|].
  destruct (Hin px py Hx Hy) as (Hcolor & Hcount).
  split; [exact Hcolor|]. split; [exact Hcount|].
  assert (Hflip : forall a b : Z,
            (if Z.even (a + 1 + b) then "#CCCCCC" else "#FFFFFF")%string
            <> (if Z.even (a + b) then "#CCCCCC" else "#FFFFFF")%string).
  { intros a b. replace (a + 1 + b)%Z with (Z.succ (a + b)) by lia.
    rewrite Z.even_succ, <- Z.negb_even.
    destruct (Z.even (a + b)); discriminate. }
  split; [|split].
  - intros Hnext.
    assert (Hx' : (0 <= px + tile_size < canvas_width)%Z)
      by (unfold tile_size, canvas_width in *; lia).
    destruct (Hin (px + tile_size)%Z py Hx' Hy) as (Hcolor' & _).
    rewrite Hcolor', Hcolor.
    replace ((px + tile_size) / tile_size)%Z with (px / tile_size + 1)%Z
      by (unfold tile_size; Z.to_euclidean_division_equations; lia).
    intros [= E]. exact (Hflip _ _ E).
  - intros Hnext.
    assert (Hy' : (0 <= py + tile_size < canvas_height)%Z)
      by (unfold tile_size, canvas_height in *; lia).
    destruct (Hin px (py + tile_size)%Z Hx Hy') as (Hcolor' & _).
    rewrite Hcolor', Hcolor.
    replace ((py + tile_size) / tile_size)%Z with (py / tile_size + 1)%Z
      by (unfold tile_size; Z.to_euclidean_division_equations; lia).
    replace (px / tile_size + (py / tile_size + 1))%Z
      with (px / tile_size + 1 + py / tile_size)%Z by lia.
    intros [= E]. exact (Hflip _ _ E).
  - intros qx qy Hout. unfold pixel_color.
    rewrite (foldl_ext_in _ (fun acc _ => acc)).
    + generalize paint_floor as calls. induction calls; [reflexivity|assumption].
    + intros acc call Hcall.
      destruct (paint_floor_tile call Hcall) as (_ & _ & _ & _ & Hx0 & Hx1 & Hy0 & Hy1).
      assert (Hno : covers call qx qy = false).
      { unfold covers.
        destruct (Z.leb_spec (rect_x call) qx), (Z.ltb_spec qx (rect_x call + rect_w call)),
          (Z.leb_spec (rect_y call) qy), (Z.ltb_spec qy (rect_y call + rect_h call));
          try reflexivity; exfalso; lia. }
      now rewrite Hno.
Qed.

Lemma floor_is_a_checkerboard_witness :
  ((0 <= 40 < canvas_width)%Z /\ (0 <= 0 < canvas_height)%Z)
  /\ length paint_floor = 256%nat
  /\ pixel_color paint_floor 40 0
     = Some (if Z.even (40 / tile_size + 0 / tile_size)
             then "#CCCCCC" else "#FFFFFF")%string
  /\ count_true (fun call => covers call 40 0) paint_floor = 1%nat
  /\ ((40 + tile_size < canvas_width)%Z ->
      pixel_color paint_floor (40 + tile_size) 0 <> pixel_color paint_floor 40 0)
  /\ ((0 + tile_size < canvas_height)%Z ->
      pixel_color paint_floor 40 (0 + tile_size) <> pixel_color paint_floor 40 0)
  /\ (forall qx qy,
        (qx < 0 \/ canvas_width <= qx \/ qy < 0 \/ canvas_height <= qy)%Z ->
        pixel_color paint_floor qx qy = None).
Proof.
  assert (Hx : (0 <= 40 < canvas_width)%Z) by (unfold canvas_width; lia).
  assert (Hy : (0 <= 0 < canvas_height)%Z) by (unfold canvas_height; lia).
  split; [split; assumption|].
  exact (floor_is_a_checkerboard 40 0 Hx Hy).
Defined.
